(** * ng-morph: selector engine and template queries

    A shallow embedding of [src/core/selector.ts] (class [CssSelector]),
    [src/ast/types.ts] (the [is] guards) and [src/core/template.ts]
    (class [Template]) together with the properties stated about them.

    Conventions.
    - A JavaScript string is modelled by [string]; its 8-bit units are read
      as the code points U+0000..U+00FF (Latin-1).  [toLowerCase], [\w] and
      [\s] are the restrictions of the JavaScript ones to that range.
    - A thrown exception is modelled by the [Throw] outcome of a small
      error monad.  Loops ([while]) run on fuel; [NoFuel] is the outcome of
      a loop that was given too little of it, and every entry point is shown
      to give its loop enough.
    - [Map] and [Set] of the matcher are stdpp's [gmap] and [gset]. *)

Set Warnings "-register-all".
From stdpp Require Import gmap strings list.
From Stdlib Require Import String Ascii List Bool Arith Lia.
Import ListNotations.

Local Open Scope string_scope.
Local Open Scope list_scope.

(** ** JavaScript values used by the code *)

Module Js.

(** Exceptions the modelled code can raise. *)
Inductive exn : Type :=
| Error (message : string)
| TypeError (message : string).

(** Outcome of a computation that may throw. *)
Inductive outcome (A : Type) : Type :=
| Ok (a : A)
| Throw (e : exn)
| NoFuel.
Arguments Ok {A} a.
Arguments Throw {A} e.
Arguments NoFuel {A}.

Definition bind {A B : Type} (c : outcome A) (k : A -> outcome B) : outcome B :=
  match c with
  | Ok a => k a
  | Throw e => Throw e
  | NoFuel => NoFuel
  end.

(** Truthiness of [string | undefined]: defined and not empty. *)
Definition truthy (s : option string) : bool :=
  match s with
  | Some (String _ _) => true
  | _ => false
  end.

(** [s || ''] on [string | undefined]. *)
Definition or_empty (s : option string) : string :=
  match s with
  | Some v => v
  | None => ""
  end.

Definition in_range (lo hi : nat) (c : ascii) : bool :=
  (lo <=? nat_of_ascii c)%nat && (nat_of_ascii c <=? hi)%nat.

(** Upper-case letters of Latin-1: A-Z, and U+00C0..U+00DE but U+00D7. *)
Definition is_upper (c : ascii) : bool :=
  in_range 65 90 c
  || (in_range 192 222 c && negb (nat_of_ascii c =? 215)%nat).

Definition lower_char (c : ascii) : ascii :=
  if is_upper c then ascii_of_nat (nat_of_ascii c + 32) else c.

(** [String.prototype.toLowerCase] *)
Fixpoint toLowerCase (s : string) : string :=
  match s with
  | EmptyString => EmptyString
  | String c r => String (lower_char c) (toLowerCase r)
  end.

(** [s.slice(1)] *)
Definition slice1 (s : string) : string :=
  match s with
  | EmptyString => EmptyString
  | String _ r => r
  end.

(** [\w] *)
Definition is_word (c : ascii) : bool :=
  in_range 48 57 c || in_range 65 90 c || in_range 97 122 c
  || (nat_of_ascii c =? 95)%nat.

(** [\s]: TAB, LF, VT, FF, CR, SPACE and NBSP. *)
Definition is_space (c : ascii) : bool :=
  in_range 9 13 c || (nat_of_ascii c =? 32)%nat || (nat_of_ascii c =? 160)%nat.

(** Longest prefix of characters satisfying [p], and what follows it:
    a greedy [p*]. *)
Fixpoint span (p : ascii -> bool) (s : string) : string * string :=
  match s with
  | EmptyString => (EmptyString, EmptyString)
  | String c r =>
      if p c then let '(a, b) := span p r in (String c a, b)
      else (EmptyString, s)
  end.

(** [s.startsWith(p)], returning what follows [p]. *)
Fixpoint strip_prefix (p s : string) : option string :=
  match p, s with
  | EmptyString, _ => Some s
  | String a p', String b s' =>
      if Ascii.eqb a b then strip_prefix p' s' else None
  | String _ _, EmptyString => None
  end.

Definition startsWith (s p : string) : bool :=
  match strip_prefix p s with Some _ => true | None => false end.

End Js.

Import Js.

#[global] Instance outcome_ret : MRet outcome := @Ok.
#[global] Instance outcome_bind : MBind outcome :=
  fun A B k c => Js.bind c k.

(** ** [src/core/selector.ts] *)

Module CssSelector.

(** The class [CssSelector]: [attrs] is the flat array
    [name0, value0, name1, value1, ...] of the source. *)
Inductive t : Type :=
| Build (element : option string) (classNames : list string)
        (attrs : list string) (notSelectors : list t).

Definition element (s : t) : option string :=
  match s with Build e _ _ _ => e end.
Definition classNames (s : t) : list string :=
  match s with Build _ c _ _ => c end.
Definition attrs (s : t) : list string :=
  match s with Build _ _ a _ => a end.
Definition notSelectors (s : t) : list t :=
  match s with Build _ _ _ n => n end.

(** [new CssSelector()] *)
Definition new : t := Build None [] [] [].

Definition setElement (e : option string) (s : t) : t :=
  Build e (classNames s) (attrs s) (notSelectors s).

Definition addClassName (name : string) (s : t) : t :=
  Build (element s) (classNames s ++ [toLowerCase name]) (attrs s)
        (notSelectors s).

Definition addAttribute (name value : string) (s : t) : t :=
  Build (element s) (classNames s) (attrs s ++ [name; toLowerCase value])
        (notSelectors s).

(** [s.notSelectors.push(n)] *)
Definition pushNot (n : t) (s : t) : t :=
  Build (element s) (classNames s) (attrs s) (notSelectors s ++ [n]).

(** *** [SELECTOR_REGEXP] *)

(** The capture groups of one match; [None] is [undefined]. *)
Record RegExpMatch : Type := {
  g1 : option string;  (* 1: :not( *)
  g2 : option string;  (* 2: tag *)
  g3 : option string;  (* 3: . or # *)
  g4 : option string;  (* 4: attribute *)
  g5 : option string;  (* 5: attribute_string *)
  g6 : option string;  (* 6: attribute_value *)
  g7 : option string;  (* 7: ) *)
  g8 : option string   (* 8: , *)
}.

(** [[-\w]] *)
Definition is_tag_char (c : ascii) : bool :=
  Ascii.eqb c "-" || is_word c.

(** [[-.\w*\\$]] *)
Definition is_attr_char (c : ascii) : bool :=
  Ascii.eqb c "-" || Ascii.eqb c "." || is_word c || Ascii.eqb c "*"
  || Ascii.eqb c "\" || Ascii.eqb c "$".

(** The class of the two quote characters, U+0022 and U+0027. *)
Definition is_quote (c : ascii) : bool :=
  Ascii.eqb c "034" || Ascii.eqb c "039".

(** The negated class of the value: anything but a closing bracket and
    the two quotes. *)
Definition is_value_char (c : ascii) : bool :=
  negb (Ascii.eqb c "]" || is_quote c).

(** Alternative 1, group 1: the text [:not(]. *)
Definition alt_not (s : string) : option (RegExpMatch * string) :=
  match strip_prefix ":not(" s with
  | Some r =>
      Some ({| g1 := Some ":not("; g2 := None; g3 := None; g4 := None;
               g5 := None; g6 := None; g7 := None; g8 := None |}, r)
  | None => None
  end.

(** Alternative 2, group 2: an optional [.] or [#] (group 3) and one
    or more characters of [[-\w]].  When the optional prefix is
    taken and no tag character follows, giving the prefix back does not
    help, as [.] and [#] are no tag characters. *)
Definition alt_tag (s : string) : option (RegExpMatch * string) :=
  let '(prefix, s1) :=
    match s with
    | String c r =>
        if Ascii.eqb c "." || Ascii.eqb c "#"
        then (String c EmptyString, r) else (EmptyString, s)
    | EmptyString => (EmptyString, s)
    end in
  match span is_tag_char s1 with
  | (EmptyString, _) => None
  | (w, r) =>
      Some ({| g1 := None; g2 := Some (prefix ++ w)%string; g3 := Some prefix;
               g4 := None; g5 := None; g6 := None; g7 := None;
               g8 := None |}, r)
  end.

(** The optional part of alternative 3 (an equals sign, group 5: an
    optional quote, group 6: the value, a back-reference to group 5),
    followed by the closing bracket.
    The classes of the name and of the value exclude what has to follow
    them, so the greedy choices are the only ones that can succeed: a
    shorter name or value is followed by a character of its own class,
    and a quote that is given back by group 5 is met again where the
    closing bracket is required. *)
Definition alt_attr_tail (name s : string) : option (RegExpMatch * string) :=
  match s with
  | String c r =>
      if Ascii.eqb c "]" then
        Some ({| g1 := None; g2 := None; g3 := None; g4 := Some name;
                 g5 := None; g6 := None; g7 := None; g8 := None |}, r)
      else if Ascii.eqb c "=" then
        match r with
        | String q r1 =>
            if is_quote q then
              let '(v, r2) := span is_value_char r1 in
              match r2 with
              | String q' (String b r3) =>
                  if Ascii.eqb q q' && Ascii.eqb b "]" then
                    Some ({| g1 := None; g2 := None; g3 := None;
                             g4 := Some name;
                             g5 := Some (String q EmptyString);
                             g6 := Some v; g7 := None; g8 := None |}, r3)
                  else None
              | _ => None
              end
            else
              let '(v, r2) := span is_value_char r in
              match r2 with
              | String b r3 =>
                  if Ascii.eqb b "]" then
                    Some ({| g1 := None; g2 := None; g3 := None;
                             g4 := Some name; g5 := Some EmptyString;
                             g6 := Some v; g7 := None; g8 := None |}, r3)
                  else None
              | EmptyString => None
              end
        | EmptyString => None
        end
      else None
  | EmptyString => None
  end.

(** Alternative 3: an opening bracket, group 4: one or more characters
    of [[-.\w*\\$]], the optional part, a closing bracket. *)
Definition alt_attr (s : string) : option (RegExpMatch * string) :=
  match s with
  | String c r =>
      if Ascii.eqb c "[" then
        match span is_attr_char r with
        | (EmptyString, _) => None
        | (name, r1) => alt_attr_tail name r1
        end
      else None
  | EmptyString => None
  end.

(** Alternative 4, group 7: a closing parenthesis. *)
Definition alt_close (s : string) : option (RegExpMatch * string) :=
  match s with
  | String c r =>
      if Ascii.eqb c ")" then
        Some ({| g1 := None; g2 := None; g3 := None; g4 := None;
                 g5 := None; g6 := None; g7 := Some ")"; g8 := None |}, r)
      else None
  | EmptyString => None
  end.

(** Alternative 5, group 8: a comma with any white space around it. *)
Definition alt_comma (s : string) : option (RegExpMatch * string) :=
  let '(w1, r) := span is_space s in
  match r with
  | String c r1 =>
      if Ascii.eqb c "," then
        let '(w2, r2) := span is_space r1 in
        Some ({| g1 := None; g2 := None; g3 := None; g4 := None;
                 g5 := None; g6 := None; g7 := None;
                 g8 := Some (w1 ++ "," ++ w2)%string |}, r2)
      else None
  | EmptyString => None
  end.

(** A match of [SELECTOR_REGEXP] that starts at the head of [s]: the
    first alternative, in the order of the pattern, that matches. *)
Definition match_here (s : string) : option (RegExpMatch * string) :=
  match alt_not s with
  | Some m => Some m
  | None =>
  match alt_tag s with
  | Some m => Some m
  | None =>
  match alt_attr s with
  | Some m => Some m
  | None =>
  match alt_close s with
  | Some m => Some m
  | None => alt_comma s
  end end end end.

(** [SELECTOR_REGEXP.exec(selector)] with the [g] flag, on the part of
    [selector] from [lastIndex] on: the leftmost match, and the part of
    the input after it (the new [lastIndex]); [None] is [null]. *)
Fixpoint exec (s : string) : option (RegExpMatch * string) :=
  match match_here s with
  | Some m => Some m
  | None =>
      match s with
      | EmptyString => None
      | String _ r => exec r
      end
  end.

(** *** [CssSelector.parse] *)

(** What the variable [current] refers to: the object in [cssSelector],
    or the object pushed last on [cssSelector.notSelectors]. *)
Inductive Current : Type := CurSelector | CurNotSelector.

(** The variables of [parse]. *)
Record ParseState : Type := {
  results : list t;
  cssSelector : t;
  current : Current;
  inNot : bool
}.

Fixpoint update_last (f : t -> t) (l : list t) : list t :=
  match l with
  | [] => []
  | [x] => [f x]
  | x :: r => x :: update_last f r
  end.

(** A method call on [current]; the object is shared with
    [cssSelector], so the change shows there. *)
Definition on_current (f : t -> t) (st : ParseState) : ParseState :=
  match current st with
  | CurSelector =>
      {| results := results st; cssSelector := f (cssSelector st);
         current := current st; inNot := inNot st |}
  | CurNotSelector =>
      let c := cssSelector st in
      {| results := results st;
         cssSelector := Build (element c) (classNames c) (attrs c)
                              (update_last f (notSelectors c));
         current := current st; inNot := inNot st |}
  end.

Definition nesting_error : exn :=
  Error "Nesting :not in a selector is not allowed".
Definition multiple_error : exn :=
  Error "Multiple selectors in :not are not supported".

(** The body of the [while] loop, for one match. *)
Definition step (m : RegExpMatch) (st : ParseState) : outcome ParseState :=
  st1 ← (if truthy (g1 m) then
           if inNot st then Throw nesting_error
           else Ok {| results := results st;
                      cssSelector := pushNot new (cssSelector st);
                      current := CurNotSelector; inNot := true |}
         else Ok st);
  let st2 :=
    if truthy (g2 m) then
      let tag := or_empty (g2 m) in
      let prefix := or_empty (g3 m) in
      if String.eqb prefix "#" then
        on_current (addAttribute "id" (slice1 tag)) st1
      else if String.eqb prefix "." then
        on_current (addClassName (slice1 tag)) st1
      else
        on_current (setElement (Some tag)) st1
    else st1 in
  let st3 :=
    if truthy (g4 m) then
      on_current (addAttribute (or_empty (g4 m)) (or_empty (g6 m))) st2
    else st2 in
  let st4 :=
    if truthy (g7 m) then
      {| results := results st3; cssSelector := cssSelector st3;
         current := CurSelector; inNot := false |}
    else st3 in
  if truthy (g8 m) then
    if inNot st4 then Throw multiple_error
    else Ok {| results := results st4 ++ [cssSelector st4];
               cssSelector := new; current := CurSelector;
               inNot := inNot st4 |}
  else Ok st4.

Definition init : ParseState :=
  {| results := []; cssSelector := new; current := CurSelector;
     inNot := false |}.

(** The [while ((match = SELECTOR_REGEXP.exec(selector)))] loop and the
    two statements after it; [selector] is the input from [lastIndex]
    on. *)
Fixpoint parse_loop (fuel : nat) (selector : string) (st : ParseState)
  : outcome (list t) :=
  match fuel with
  | O => NoFuel
  | S fuel' =>
      match exec selector with
      | Some (m, rest) =>
          st' ← step m st;
          parse_loop fuel' rest st'
      | None => Ok (results st ++ [cssSelector st])
      end
  end.

(** Every match takes at least one character, so the loop runs at most
    [length selector] times before [exec] gives [null]. *)
Definition parse (selector : string) : outcome (list t) :=
  parse_loop (S (String.length selector)) selector init.

(** *** [CssSelector.matches] *)

(** The argument of [matches]; [None] is an absent property. *)
Record ElementInfo : Type := {
  tagName : option string;
  classList : option (list string);
  attributes : option (list (string * string))
}.

(** [new Set(element.classList?.map(c => c.toLowerCase()) || [])] *)
Definition elementClasses (e : ElementInfo) : gset string :=
  list_to_set (map toLowerCase (default [] (classList e))).

(** [new Map(element.attributes?.map(attr => [lower name, lower value])
    || [])]: a later entry for a key replaces an earlier one. *)
Definition elementAttrs (e : ElementInfo) : gmap string string :=
  fold_left (fun m a => <[toLowerCase (fst a) := toLowerCase (snd a)]> m)
            (default [] (attributes e)) ∅.

(** The [for (let i = 0; i < this.attrs.length; i += 2)] loop of
    [matches]; [true] when it runs to its end.  A name in last position
    has an [undefined] value, which is falsy. *)
Fixpoint attrs_hold (m : gmap string string) (attrs : list string) : bool :=
  match attrs with
  | [] => true
  | [name] =>
      bool_decide (is_Some (m !! toLowerCase name))
  | name :: value :: rest =>
      match m !! toLowerCase name with
      | None => false
      | Some v =>
          if truthy (Some value) && negb (String.eqb v value) then false
          else attrs_hold m rest
      end
  end.

Fixpoint matches (sel : t) (e : ElementInfo) : bool :=
  match sel with
  | Build element classNames attrs notSelectors =>
      if truthy element
         && (negb (truthy (tagName e))
             || negb (String.eqb (toLowerCase (or_empty element))
                                 (toLowerCase (or_empty (tagName e)))))
      then false
      else if (0 <? length classNames)%nat
              && negb (forallb (fun className =>
                                  bool_decide (className ∈ elementClasses e))
                               classNames)
      then false
      else if (0 <? length attrs)%nat
              && negb (attrs_hold (elementAttrs e) attrs)
      then false
      else if (0 <? length notSelectors)%nat
              && existsb (fun notSelector => matches notSelector e)
                         notSelectors
      then false
      else true
  end.

(** *** [CssSelector.toString] *)

(** The [for] loop of [toString] over the flat [attrs]. *)
Fixpoint attrs_text (attrs : list string) (res : string) : string :=
  match attrs with
  | [] => res
  | [name] => (res ++ "[" ++ name ++ "]")%string
  | name :: value :: rest =>
      attrs_text rest
        (res ++ "[" ++ name
             ++ (if truthy (Some value) then "=" ++ value else "")
             ++ "]")%string
  end.

Fixpoint toString (sel : t) : string :=
  match sel with
  | Build element classNames attrs notSelectors =>
      let res := or_empty element in
      let res :=
        fold_left (fun res klass => (res ++ "." ++ klass)%string)
                  classNames res in
      let res := attrs_text attrs res in
      fold_left (fun res notSelector =>
                   (res ++ ":not(" ++ toString notSelector ++ ")")%string)
                notSelectors res
  end.

End CssSelector.

(** ** The trees of [@angular/compiler] that the code receives *)

Module Ng.

(** [ParseSourceSpan]: only passed on by the code. *)
Record ParseSourceSpan : Type := { span_start : nat; span_end : nat }.

(** The expression classes the source imports.  [ThisReceiver] is the
    one subclass among them: it extends [ImplicitReceiver].  [OtherAST]
    stands for a node of any other expression class (a binary operator,
    a conditional, a pipe, ...) with its operands. *)
Inductive AST : Type :=
| ASTWithSource (ast : AST) (source : option string) (location : string)
| PropertyRead (receiver : AST) (name : string)
| Call (receiver : AST) (args : list AST)
| ImplicitReceiver
| ThisReceiver
| LiteralPrimitive (value : string)
| OtherAST (operands : list AST).

Definition instanceof_ImplicitReceiver (a : AST) : bool :=
  match a with
  | ImplicitReceiver | ThisReceiver => true
  | _ => false
  end.

Definition instanceof_LiteralPrimitive (a : AST) : bool :=
  match a with
  | LiteralPrimitive _ => true
  | _ => false
  end.

Record TextAttribute : Type := {
  attr_name : string;
  attr_value : string
}.

Record BoundAttribute : Type := {
  input_name : string;
  input_value : AST;
  input_sourceSpan : ParseSourceSpan
}.

Record BoundEvent : Type := {
  output_name : string;
  output_handler : AST;
  output_sourceSpan : ParseSourceSpan
}.

(** The node classes that [src/ast/types.ts] imports ([DeferredTrigger],
    an abstract class, apart).  A list of nodes has the type
    [TmplAstNode[]] of the source: any class may occur in it.  The
    library has node classes that the file does not import,
    [IfBlockBranch] and [ForLoopBlockEmpty] among them; their objects
    stand in the fields [branches] and [empty], in no list of nodes, and
    are the types [IfBlockBranch] and [option (list TmplAstNode)] here.
    What the guards make of the name of such a class is stated on class
    names. *)
Inductive TmplAstNode : Type :=
| TmplAstElement (name : string) (attributes : list TextAttribute)
    (inputs : list BoundAttribute) (outputs : list BoundEvent)
    (children : list TmplAstNode) (sourceSpan : ParseSourceSpan)
| TmplAstText (value : string)
| TmplAstTemplate (attributes : list TextAttribute)
    (inputs : list BoundAttribute) (outputs : list BoundEvent)
    (children : list TmplAstNode)
| TmplAstTextAttribute (a : TextAttribute)
| TmplAstBoundAttribute (b : BoundAttribute)
| TmplAstBoundEvent (e : BoundEvent)
| TmplAstBoundText (value : AST)
| TmplAstContent
| TmplAstReference (name value : string)
| TmplAstVariable (name value : string)
| TmplAstIfBlock (branches : list IfBlockBranch)
    (sourceSpan : ParseSourceSpan)
| TmplAstForLoopBlock (expression : AST) (children : list TmplAstNode)
    (empty : option (list TmplAstNode)) (sourceSpan : ParseSourceSpan)
| TmplAstSwitchBlock (expression : AST) (cases : list SwitchBlockCase)
    (sourceSpan : ParseSourceSpan)
| TmplAstSwitchBlockCase (c : SwitchBlockCase)
| TmplAstDeferredBlock (children : list TmplAstNode)
    (placeholder loading error : option (list TmplAstNode))
| TmplAstDeferredBlockLoading (children : list TmplAstNode)
| TmplAstDeferredBlockError (children : list TmplAstNode)
| TmplAstDeferredBlockPlaceholder (children : list TmplAstNode)
with IfBlockBranch : Type :=
| Branch (expression : option AST) (children : list TmplAstNode)
with SwitchBlockCase : Type :=
| Case (expression : option AST) (children : list TmplAstNode)
    (sourceSpan : ParseSourceSpan).

Definition branch_expression (b : IfBlockBranch) : option AST :=
  match b with Branch e _ => e end.
Definition branch_children (b : IfBlockBranch) : list TmplAstNode :=
  match b with Branch _ c => c end.
Definition case_expression (c : SwitchBlockCase) : option AST :=
  match c with Case e _ _ => e end.
Definition case_children (c : SwitchBlockCase) : list TmplAstNode :=
  match c with Case _ c _ => c end.
Definition case_sourceSpan (c : SwitchBlockCase) : ParseSourceSpan :=
  match c with Case _ _ s => s end.

(** [node.constructor.name]: the name of the class in
    [@angular/compiler] (a bundler may add a suffix to it). *)
Definition constructor_name (node : TmplAstNode) : string :=
  match node with
  | TmplAstElement _ _ _ _ _ _ => "Element"
  | TmplAstText _ => "Text"
  | TmplAstTemplate _ _ _ _ => "Template"
  | TmplAstTextAttribute _ => "TextAttribute"
  | TmplAstBoundAttribute _ => "BoundAttribute"
  | TmplAstBoundEvent _ => "BoundEvent"
  | TmplAstBoundText _ => "BoundText"
  | TmplAstContent => "Content"
  | TmplAstReference _ _ => "Reference"
  | TmplAstVariable _ _ => "Variable"
  | TmplAstIfBlock _ _ => "IfBlock"
  | TmplAstForLoopBlock _ _ _ _ => "ForLoopBlock"
  | TmplAstSwitchBlock _ _ _ => "SwitchBlock"
  | TmplAstSwitchBlockCase _ => "SwitchBlockCase"
  | TmplAstDeferredBlock _ _ _ _ => "DeferredBlock"
  | TmplAstDeferredBlockLoading _ => "DeferredBlockLoading"
  | TmplAstDeferredBlockError _ => "DeferredBlockError"
  | TmplAstDeferredBlockPlaceholder _ => "DeferredBlockPlaceholder"
  end.

(** The property [children] of a node; [None] is [undefined]. *)
Definition children (node : TmplAstNode) : option (list TmplAstNode) :=
  match node with
  | TmplAstElement _ _ _ _ c _ => Some c
  | TmplAstTemplate _ _ _ c => Some c
  | TmplAstForLoopBlock _ c _ _ => Some c
  | TmplAstSwitchBlockCase c => Some (case_children c)
  | TmplAstDeferredBlock c _ _ _ => Some c
  | TmplAstDeferredBlockLoading c => Some c
  | TmplAstDeferredBlockError c => Some c
  | TmplAstDeferredBlockPlaceholder c => Some c
  | _ => None
  end.

(** The property [branches]. *)
Definition branches (node : TmplAstNode) : option (list IfBlockBranch) :=
  match node with
  | TmplAstIfBlock b _ => Some b
  | _ => None
  end.

(** The property [cases]. *)
Definition cases (node : TmplAstNode) : option (list SwitchBlockCase) :=
  match node with
  | TmplAstSwitchBlock _ c _ => Some c
  | _ => None
  end.

End Ng.

Import Ng.

(** ** [src/ast/types.ts] *)

Module Types.

Definition checkNodeType (node : TmplAstNode) (typeName : string) : bool :=
  startsWith (constructor_name node) typeName.

(** The guards of the object [is]. *)
Definition is_element (node : TmplAstNode) : bool :=
  checkNodeType node "Element".
Definition is_template (node : TmplAstNode) : bool :=
  checkNodeType node "Template".
Definition is_propertyBinding (node : TmplAstNode) : bool :=
  checkNodeType node "BoundAttribute".
Definition is_eventBinding (node : TmplAstNode) : bool :=
  checkNodeType node "BoundEvent".
Definition is_boundText (node : TmplAstNode) : bool :=
  checkNodeType node "BoundText".
Definition is_ifBlock (node : TmplAstNode) : bool :=
  checkNodeType node "IfBlock".
Definition is_forBlock (node : TmplAstNode) : bool :=
  checkNodeType node "ForLoopBlock".
Definition is_switchBlock (node : TmplAstNode) : bool :=
  checkNodeType node "SwitchBlock".
Definition is_deferBlock (node : TmplAstNode) : bool :=
  checkNodeType node "DeferredBlock".

End Types.

Import Types.

(** ** [src/core/template.ts] *)

Module Template.

Record EventHandler : Type := {
  handler_name : string;
  handler_arguments : list string;
  handler_fullText : string;
  handler_sourceSpan : ParseSourceSpan
}.

Record PropertyBinding : Type := {
  binding_name : string;
  binding_value : string;
  binding_isLiteral : bool;
  binding_referencedProperties : list string;
  binding_sourceSpan : ParseSourceSpan
}.

(** The union ['if' | 'for' | 'switch' | 'case']. *)
Inductive ControlFlowType : Type := type_if | type_for | type_switch | type_case.

Record ControlFlowExpression : Type := {
  cf_type : ControlFlowType;
  cf_expression : string;
  cf_referencedProperties : list string;
  cf_sourceSpan : ParseSourceSpan
}.

(** [stack.pop()] on an array: the last element and the array left. *)
Definition pop {A : Type} (stack : list A) : option (A * list A) :=
  match rev stack with
  | [] => None
  | x :: r => Some (x, rev r)
  end.

(** [stack.push(...xs)] where [xs] may be [undefined]. *)
Definition push_spread {A : Type} (stack : list A) (xs : option (list A))
  : outcome (list A) :=
  match xs with
  | Some l => Ok (stack ++ l)
  | None => Throw (TypeError "undefined is not iterable")
  end.

(** [xs.forEach(x => stack.push(...f(x)))] where [xs] may be
    [undefined]. *)
Definition push_each {A B : Type} (stack : list A) (xs : option (list B))
    (f : B -> list A) : outcome (list A) :=
  match xs with
  | Some l => Ok (fold_left (fun stack x => stack ++ f x) l stack)
  | None => Throw (TypeError "Cannot read properties of undefined")
  end.

(** The [if ... else if ...] chain of [traverseNodes] that pushes the
    children of [current]. *)
Definition push_children (current : TmplAstNode) (stack : list TmplAstNode)
  : outcome (list TmplAstNode) :=
  if is_element current then push_spread stack (children current)
  else if is_template current then push_spread stack (children current)
  else if is_ifBlock current then
    push_each stack (branches current) branch_children
  else if is_forBlock current then push_spread stack (children current)
  else if is_switchBlock current then
    push_each stack (cases current) case_children
  else Ok stack.

Section Traverse.
(** The state a visitor works on (the array or set it fills). *)
Context {St : Type}.
Variable visitor : TmplAstNode -> St -> outcome St.

(** The [while (stack.length > 0)] loop of [traverseNodes]. *)
Fixpoint traverse_loop (fuel : nat) (stack : list TmplAstNode) (st : St)
  : outcome St :=
  match fuel with
  | O => NoFuel
  | S fuel' =>
      match pop stack with
      | None => Ok st
      | Some (current, stack') =>
          st' ← visitor current st;
          stack'' ← push_children current stack';
          traverse_loop fuel' stack'' st'
      end
  end.
End Traverse.

(** Number of nodes of a tree that a node list can reach: a bound on
    the number of turns of the loop. *)
Fixpoint node_count (node : TmplAstNode) : nat :=
  let fix nodes_count (l : list TmplAstNode) : nat :=
    match l with
    | [] => 0
    | n :: r => node_count n + nodes_count r
    end in
  let opt_count (o : option (list TmplAstNode)) : nat :=
    match o with
    | Some l => nodes_count l
    | None => 0
    end in
  S match node with
    | TmplAstElement _ _ _ _ c _ => nodes_count c
    | TmplAstTemplate _ _ _ c => nodes_count c
    | TmplAstIfBlock bs _ =>
        (fix branches_count (bs : list IfBlockBranch) : nat :=
           match bs with
           | [] => 0
           | Branch _ c :: r => nodes_count c + branches_count r
           end) bs
    | TmplAstForLoopBlock _ c e _ => nodes_count c + opt_count e
    | TmplAstSwitchBlock _ cs _ =>
        (fix cases_count (cs : list SwitchBlockCase) : nat :=
           match cs with
           | [] => 0
           | Case _ c _ :: r => nodes_count c + cases_count r
           end) cs
    | TmplAstSwitchBlockCase (Case _ c _) => nodes_count c
    | TmplAstDeferredBlock c p l e =>
        nodes_count c + opt_count p + opt_count l + opt_count e
    | TmplAstDeferredBlockLoading c => nodes_count c
    | TmplAstDeferredBlockError c => nodes_count c
    | TmplAstDeferredBlockPlaceholder c => nodes_count c
    | _ => 0
    end.

Fixpoint nodes_count (l : list TmplAstNode) : nat :=
  match l with
  | [] => 0
  | n :: r => node_count n + nodes_count r
  end.

(** [traverseNodes(nodes, visitor)]: the stack starts as a copy of
    [nodes]. *)
Definition traverseNodes {St : Type} (nodes : list TmplAstNode)
    (visitor : TmplAstNode -> St -> outcome St) (st : St) : outcome St :=
  traverse_loop visitor (S (nodes_count nodes)) nodes st.

(** [value.split(/\s+/)]: the pieces between maximal runs of white
    space; [piece] is the piece being read and [in_run] tells that the
    character before was white space. *)
Fixpoint split_spaces (value : string) (piece : string) (in_run : bool)
  : list string :=
  match value with
  | EmptyString => [piece]
  | String c r =>
      if is_space c then
        if in_run then split_spaces r piece true
        else piece :: split_spaces r EmptyString true
      else split_spaces r (piece ++ String c EmptyString)%string false
  end.

(** [Boolean] on a string. *)
Definition nonempty (s : string) : bool := truthy (Some s).

(** [matchesSelector(element, selector)]; [element] has passed
    [is.element]. *)
Definition matchesSelector (element : TmplAstNode) (selector : string)
  : outcome bool :=
  selectors ← CssSelector.parse selector;
  match element with
  | TmplAstElement name attributes inputs _ _ _ =>
      let elementInfo_attributes :=
        map (fun attr => (attr_name attr, attr_value attr)) attributes
        ++ map (fun input =>
                  (input_name input,
                   match input_value input with
                   | ASTWithSource _ source _ => or_empty source
                   | _ => EmptyString
                   end)) inputs in
      let elementInfo_classList :=
        match find (fun attr => String.eqb (attr_name attr) "class")
                   attributes with
        | Some classAttr =>
            filter nonempty
                   (split_spaces (attr_value classAttr) EmptyString false)
        | None => []
        end in
      let elementInfo :=
        {| CssSelector.tagName := Some name;
           CssSelector.classList := Some elementInfo_classList;
           CssSelector.attributes := Some elementInfo_attributes |} in
      Ok (existsb (fun cssSelector =>
                     CssSelector.matches cssSelector elementInfo)
                  selectors)
  | _ => Throw (TypeError "Cannot read properties of undefined")
  end.

(** [findElements(selector)], on the nodes [this.parse()] returns. *)
Definition findElements (selector : string) (nodes : list TmplAstNode)
  : outcome (list TmplAstNode) :=
  traverseNodes nodes
    (fun node elements =>
       if is_element node then
         m ← matchesSelector node selector;
         Ok (if m : bool then elements ++ [node] else elements)
       else Ok elements)
    [].

(** [node.inputs] and [node.outputs] of a node that passed
    [is.element]. *)
Definition inputs (node : TmplAstNode) : list BoundAttribute :=
  match node with
  | TmplAstElement _ _ i _ _ _ => i
  | _ => []
  end.
Definition outputs (node : TmplAstNode) : list BoundEvent :=
  match node with
  | TmplAstElement _ _ _ o _ _ => o
  | _ => []
  end.

Definition findPropertyBindings (propertyName : string)
    (nodes : list TmplAstNode) : outcome (list BoundAttribute) :=
  traverseNodes nodes
    (fun node bindings =>
       if is_element node then
         Ok (bindings
               ++ filter (fun input =>
                            String.eqb (input_name input) propertyName)
                         (inputs node))
       else Ok bindings)
    [].

Definition findEventBindings (eventName : string)
    (nodes : list TmplAstNode) : outcome (list BoundEvent) :=
  traverseNodes nodes
    (fun node bindings =>
       if is_element node then
         Ok (bindings
               ++ filter (fun output =>
                            String.eqb (output_name output) eventName)
                         (outputs node))
       else Ok bindings)
    [].

Definition findInterpolations (nodes : list TmplAstNode)
  : outcome (list TmplAstNode) :=
  traverseNodes nodes
    (fun node interpolations =>
       if is_boundText node then Ok (interpolations ++ [node])
       else Ok interpolations)
    [].

(** [Set.prototype.add] on a set kept in insertion order, which is the
    order [Array.from] lists it in. *)
Definition set_add (x : string) (s : list string) : list string :=
  if existsb (String.eqb x) s then s else s ++ [x].

(** [traverseAST(ast, visitor)] *)
Fixpoint traverseAST {St : Type} (ast : AST) (visitor : AST -> St -> St)
    (st : St) : St :=
  let st := visitor ast st in
  match ast with
  | Call receiver args =>
      let st :=
        fold_left (fun st arg => traverseAST arg visitor st) args st in
      traverseAST receiver visitor st
  | PropertyRead receiver _ => traverseAST receiver visitor st
  | _ => st
  end.

(** The visitor that [analyzePropertyBinding] and the four
    [analyze...Expression] methods pass to [traverseAST]. *)
Definition push_implicit_read (node : AST)
    (referencedProperties : list string) : list string :=
  match node with
  | PropertyRead receiver name =>
      if instanceof_ImplicitReceiver receiver
      then referencedProperties ++ [name]
      else referencedProperties
  | _ => referencedProperties
  end.

Section Queries.
(** The method [toString()] of the expression classes of
    [@angular/compiler]. *)
Variable ast_toString : AST -> string.

(** The fields a visitor reads of a node that passed
    [is.propertyBinding], [is.eventBinding] or [is.boundText]. *)
Definition getBindingDependencies_visitor (node : TmplAstNode)
    (dependencies : list string) : outcome (list string) :=
  let dependencies :=
    if is_propertyBinding node then
      match node with
      | TmplAstBoundAttribute b => set_add (input_name b) dependencies
      | _ => dependencies
      end
    else dependencies in
  let dependencies :=
    if is_eventBinding node then
      match node with
      | TmplAstBoundEvent e =>
          let handlerText := ast_toString (output_handler e) in
          set_add handlerText dependencies
      | _ => dependencies
      end
    else dependencies in
  let dependencies :=
    if is_boundText node then
      match node with
      | TmplAstBoundText value =>
          let expressionText := ast_toString value in
          set_add expressionText dependencies
      | _ => dependencies
      end
    else dependencies in
  Ok dependencies.

Definition getBindingDependencies (nodes : list TmplAstNode)
  : outcome (list string) :=
  traverseNodes nodes getBindingDependencies_visitor [].

Definition analyzeEventHandler (event : BoundEvent) : option EventHandler :=
  match output_handler event with
  | ASTWithSource expression _ _ =>
      let '(name, args) :=
        match expression with
        | Call receiver args =>
            (match receiver with
             | PropertyRead _ name => name
             | _ => EmptyString
             end,
             map ast_toString args)
        | PropertyRead _ name => (name, [])
        | _ => (EmptyString, [])
        end in
      Some {| handler_name := name;
              handler_arguments := args;
              handler_fullText := ast_toString (output_handler event);
              handler_sourceSpan := output_sourceSpan event |}
  | _ => None
  end.

Definition getEventHandlers (nodes : list TmplAstNode)
  : outcome (list EventHandler) :=
  traverseNodes nodes
    (fun node handlers =>
       if is_element node then
         Ok (fold_left
               (fun handlers output =>
                  match analyzeEventHandler output with
                  | Some handler => handlers ++ [handler]
                  | None => handlers
                  end)
               (outputs node) handlers)
       else Ok handlers)
    [].

Definition analyzePropertyBinding (binding : BoundAttribute)
  : option PropertyBinding :=
  match input_value binding with
  | ASTWithSource expression _ _ =>
      let referencedProperties :=
        traverseAST expression push_implicit_read [] in
      Some {| binding_name := input_name binding;
              binding_value := ast_toString (input_value binding);
              binding_isLiteral := instanceof_LiteralPrimitive expression;
              binding_referencedProperties := referencedProperties;
              binding_sourceSpan := input_sourceSpan binding |}
  | _ => None
  end.

Definition getPropertyBindings (nodes : list TmplAstNode)
  : outcome (list PropertyBinding) :=
  traverseNodes nodes
    (fun node bindings =>
       if is_element node then
         Ok (fold_left
               (fun bindings input =>
                  match analyzePropertyBinding input with
                  | Some binding => bindings ++ [binding]
                  | None => bindings
                  end)
               (inputs node) bindings)
       else Ok bindings)
    [].

(** The common body of [analyzeIfExpression], [analyzeForExpression],
    [analyzeSwitchExpression] and [analyzeCaseExpression]: [expr] is
    [None] when it is [null] or [undefined]. *)
Definition analyzeExpression (type : ControlFlowType) (expr : option AST)
    (sourceSpan : ParseSourceSpan) : ControlFlowExpression :=
  let referencedProperties :=
    match expr with
    | Some (ASTWithSource ast _ _) =>
        traverseAST ast push_implicit_read []
    | _ => []
    end in
  {| cf_type := type;
     cf_expression :=
       match expr with
       | Some e => ast_toString e
       | None => EmptyString
       end;
     cf_referencedProperties := referencedProperties;
     cf_sourceSpan := sourceSpan |}.

(** [node.branches[0]?.expression] *)
Definition first_branch_expression (branches : list IfBlockBranch)
  : option AST :=
  match branches with
  | b :: _ => branch_expression b
  | [] => None
  end.

Definition analyzeIfExpression (branches : list IfBlockBranch)
    (sourceSpan : ParseSourceSpan) : ControlFlowExpression :=
  analyzeExpression type_if (first_branch_expression branches) sourceSpan.

Definition analyzeForExpression (expression : AST)
    (sourceSpan : ParseSourceSpan) : ControlFlowExpression :=
  analyzeExpression type_for (Some expression) sourceSpan.

Definition analyzeSwitchExpression (expression : AST)
    (sourceSpan : ParseSourceSpan) : ControlFlowExpression :=
  analyzeExpression type_switch (Some expression) sourceSpan.

Definition analyzeCaseExpression (c : SwitchBlockCase)
  : ControlFlowExpression :=
  analyzeExpression type_case (case_expression c) (case_sourceSpan c).

(** The visitor of [getControlFlowExpressions]: an [instanceof] test
    per class. *)
Definition getControlFlowExpressions_visitor (node : TmplAstNode)
    (expressions : list ControlFlowExpression)
  : outcome (list ControlFlowExpression) :=
  match node with
  | TmplAstIfBlock branches sourceSpan =>
      Ok (expressions ++ [analyzeIfExpression branches sourceSpan])
  | TmplAstForLoopBlock expression _ _ sourceSpan =>
      Ok (expressions ++ [analyzeForExpression expression sourceSpan])
  | TmplAstSwitchBlock expression _ sourceSpan =>
      Ok (expressions ++ [analyzeSwitchExpression expression sourceSpan])
  | TmplAstSwitchBlockCase c =>
      Ok (expressions ++ [analyzeCaseExpression c])
  | _ => Ok expressions
  end.

Definition getControlFlowExpressions (nodes : list TmplAstNode)
  : outcome (list ControlFlowExpression) :=
  traverseNodes nodes getControlFlowExpressions_visitor [].

End Queries.

End Template.

Import Template.

(** ** Notions the properties are stated with *)

Module Walk.

(** The nodes [traverseNodes] pushes after visiting [node], in the order
    it pushes them. *)
Definition pushed (node : TmplAstNode) : list TmplAstNode :=
  match node with
  | TmplAstElement _ _ _ _ c _ => c
  | TmplAstTemplate _ _ _ c => c
  | TmplAstIfBlock bs _ => concat (map branch_children bs)
  | TmplAstForLoopBlock _ c _ _ => c
  | TmplAstSwitchBlock _ cs _ => concat (map case_children cs)
  | _ => []
  end.

(** Depth first, a node before what it pushes, the last of a list of
    siblings first. *)
Fixpoint visit_node (node : TmplAstNode) : list TmplAstNode :=
  let fix visit_rev (l : list TmplAstNode) : list TmplAstNode :=
    match l with
    | [] => []
    | n :: r => visit_rev r ++ visit_node n
    end in
  node ::
    match node with
    | TmplAstElement _ _ _ _ c _ => visit_rev c
    | TmplAstTemplate _ _ _ c => visit_rev c
    | TmplAstIfBlock bs _ =>
        (fix go (bs : list IfBlockBranch) : list TmplAstNode :=
           match bs with
           | [] => []
           | Branch _ c :: r => go r ++ visit_rev c
           end) bs
    | TmplAstForLoopBlock _ c _ _ => visit_rev c
    | TmplAstSwitchBlock _ cs _ =>
        (fix go (cs : list SwitchBlockCase) : list TmplAstNode :=
           match cs with
           | [] => []
           | Case _ c _ :: r => go r ++ visit_rev c
           end) cs
    | _ => []
    end.

Fixpoint visit_order (nodes : list TmplAstNode) : list TmplAstNode :=
  match nodes with
  | [] => []
  | n :: r => visit_order r ++ visit_node n
  end.

(** Depth first, a node before what it pushes, siblings in the order of
    the source template: the order the specification names. *)
Fixpoint source_node (node : TmplAstNode) : list TmplAstNode :=
  let fix source_list (l : list TmplAstNode) : list TmplAstNode :=
    match l with
    | [] => []
    | n :: r => source_node n ++ source_list r
    end in
  node ::
    match node with
    | TmplAstElement _ _ _ _ c _ => source_list c
    | TmplAstTemplate _ _ _ c => source_list c
    | TmplAstIfBlock bs _ =>
        (fix go (bs : list IfBlockBranch) : list TmplAstNode :=
           match bs with
           | [] => []
           | Branch _ c :: r => source_list c ++ go r
           end) bs
    | TmplAstForLoopBlock _ c _ _ => source_list c
    | TmplAstSwitchBlock _ cs _ =>
        (fix go (cs : list SwitchBlockCase) : list TmplAstNode :=
           match cs with
           | [] => []
           | Case _ c _ :: r => source_list c ++ go r
           end) cs
    | _ => []
    end.

Fixpoint source_order (nodes : list TmplAstNode) : list TmplAstNode :=
  match nodes with
  | [] => []
  | n :: r => source_node n ++ source_order r
  end.

(** One turn of the loop for each node of a list, in its order: the
    visitor, then the test of the node's kind. *)
Fixpoint visit_all {St : Type} (visitor : TmplAstNode -> St -> outcome St)
    (l : list TmplAstNode) (st : St) : outcome St :=
  match l with
  | [] => Ok st
  | n :: r =>
      st' ← visitor n st;
      _ ← push_children n [];
      visit_all visitor r st'
  end.

(** The sequence of nodes handed to the visitor. *)
Definition visited (nodes : list TmplAstNode) : outcome (list TmplAstNode) :=
  traverseNodes nodes (fun node seen => Ok (seen ++ [node])) [].

(** The same tree with every [@defer] block emptied: the children of a
    [DeferredBlock] and of its placeholder, loading and error blocks
    are dropped, wherever the block stands. *)
Definition emptied (o : option (list TmplAstNode))
  : option (list TmplAstNode) :=
  match o with
  | Some _ => Some []
  | None => None
  end.

Fixpoint erase_defer (node : TmplAstNode) : TmplAstNode :=
  let fix erase_list (l : list TmplAstNode) : list TmplAstNode :=
    match l with
    | [] => []
    | n :: r => erase_defer n :: erase_list r
    end in
  match node with
  | TmplAstElement name a i o c s =>
      TmplAstElement name a i o (erase_list c) s
  | TmplAstTemplate a i o c => TmplAstTemplate a i o (erase_list c)
  | TmplAstIfBlock bs s =>
      TmplAstIfBlock
        ((fix go (bs : list IfBlockBranch) : list IfBlockBranch :=
            match bs with
            | [] => []
            | Branch e c :: r => Branch e (erase_list c) :: go r
            end) bs) s
  | TmplAstForLoopBlock e c em s =>
      TmplAstForLoopBlock e (erase_list c)
        match em with
        | Some l => Some (erase_list l)
        | None => None
        end s
  | TmplAstSwitchBlock e cs s =>
      TmplAstSwitchBlock e
        ((fix go (cs : list SwitchBlockCase) : list SwitchBlockCase :=
            match cs with
            | [] => []
            | Case e c s :: r => Case e (erase_list c) s :: go r
            end) cs) s
  | TmplAstSwitchBlockCase (Case e c s) =>
      TmplAstSwitchBlockCase (Case e (erase_list c) s)
  | TmplAstDeferredBlock _ p l e =>
      TmplAstDeferredBlock [] (emptied p) (emptied l) (emptied e)
  | TmplAstDeferredBlockLoading _ => TmplAstDeferredBlockLoading []
  | TmplAstDeferredBlockError _ => TmplAstDeferredBlockError []
  | TmplAstDeferredBlockPlaceholder _ => TmplAstDeferredBlockPlaceholder []
  | n => n
  end.

Fixpoint erase_defers (l : list TmplAstNode) : list TmplAstNode :=
  match l with
  | [] => []
  | n :: r => erase_defer n :: erase_defers r
  end.

(** The classes the traversal descends into. *)
Definition descends_into (node : TmplAstNode) : Prop :=
  match node with
  | TmplAstElement _ _ _ _ _ _
  | TmplAstTemplate _ _ _ _
  | TmplAstIfBlock _ _
  | TmplAstForLoopBlock _ _ _ _
  | TmplAstSwitchBlock _ _ _ => True
  | _ => False
  end.

(** The expression nodes the walk of [traverseAST] reaches from a
    root: the root, and from a call its arguments and its receiver, from
    a property read its receiver. *)
Inductive walked : AST -> AST -> Prop :=
| walked_root (a : AST) : walked a a
| walked_arg (receiver : AST) (args : list AST) (arg n : AST) :
    In arg args -> walked arg n -> walked (Call receiver args) n
| walked_call_receiver (receiver : AST) (args : list AST) (n : AST) :
    walked receiver n -> walked (Call receiver args) n
| walked_read_receiver (receiver : AST) (name : string) (n : AST) :
    walked receiver n -> walked (PropertyRead receiver name) n.

(** [ExtractIdentifierDependencies]: the names [traverseAST] collects
    with the visitor of the analyses. *)
Definition dependencies (root : AST) : list string :=
  traverseAST root push_implicit_read [].

(** What the specification asks of [ExtractIdentifierDependencies]: the
    name of every property read of the expression tree whose receiver is
    the implicit receiver, wherever in the tree the read stands. *)
Fixpoint implicit_reads (a : AST) : list string :=
  match a with
  | ASTWithSource ast _ _ => implicit_reads ast
  | PropertyRead receiver name =>
      (if instanceof_ImplicitReceiver receiver then [name] else [])
        ++ implicit_reads receiver
  | Call receiver args =>
      flat_map implicit_reads args ++ implicit_reads receiver
  | OtherAST operands => flat_map implicit_reads operands
  | _ => []
  end.

(** A [SwitchBlockCase] that stands in a node list; [is.switchBlock]
    takes it for a [SwitchBlock]. *)
Definition is_stray_case (node : TmplAstNode) : bool :=
  match node with
  | TmplAstSwitchBlockCase _ => true
  | _ => false
  end.

(** What the visitor of [getBindingDependencies] adds to the set for a
    node. *)
Definition emitted (ast_toString : AST -> string) (node : TmplAstNode)
  : list string :=
  match node with
  | TmplAstBoundAttribute b => [input_name b]
  | TmplAstBoundEvent e => [ast_toString (output_handler e)]
  | TmplAstBoundText value => [ast_toString value]
  | _ => []
  end.


(** What the visitor of [getControlFlowExpressions] adds for a node of
    the classes IfBlock, ForLoopBlock and SwitchBlock. *)
Definition block_expressions (ast_toString : AST -> string)
    (node : TmplAstNode) : list ControlFlowExpression :=
  match node with
  | TmplAstIfBlock branches sourceSpan =>
      [analyzeIfExpression ast_toString branches sourceSpan]
  | TmplAstForLoopBlock expression _ _ sourceSpan =>
      [analyzeForExpression ast_toString expression sourceSpan]
  | TmplAstSwitchBlock expression _ sourceSpan =>
      [analyzeSwitchExpression ast_toString expression sourceSpan]
  | _ => []
  end.

End Walk.

Import Walk.

(** ** Sample templates *)

Module Sample.

Definition span0 : ParseSourceSpan := {| span_start := 0; span_end := 0 |}.

Definition read (name : string) : AST := PropertyRead ImplicitReceiver name.

(** The nodes of [<i></i><b></b>]. *)
Definition element_i : TmplAstNode := TmplAstElement "i" [] [] [] [] span0.
Definition element_b : TmplAstNode := TmplAstElement "b" [] [] [] [] span0.
Definition two_siblings : list TmplAstNode := [element_i; element_b].

(** The element of [<div [title]=a (click)=b()></div>]. *)
Definition div_title_click : TmplAstNode :=
  TmplAstElement "div" []
    [{| input_name := "title";
        input_value := ASTWithSource (read "a") (Some "a") "t.html";
        input_sourceSpan := span0 |}]
    [{| output_name := "click";
        output_handler :=
          ASTWithSource (Call (read "b") []) (Some "b()") "t.html";
        output_sourceSpan := span0 |}]
    [] span0.

(** The block of [@switch (x) { @case (1) { one } }]. *)
Definition case_one : SwitchBlockCase :=
  Case (Some (ASTWithSource (LiteralPrimitive "1") (Some "1") "t.html"))
       [TmplAstText "one"] span0.

Definition switch_x : TmplAstNode :=
  TmplAstSwitchBlock (ASTWithSource (read "x") (Some "x") "t.html")
                     [case_one] span0.

(** The element of [<button (click)=save($event)>x</button>]. *)
Definition event_arg : AST := read "$event".

Definition save_handler : AST :=
  ASTWithSource (Call (read "save") [event_arg]) (Some "save($event)")
                "t.html".

Definition button_save : TmplAstNode :=
  TmplAstElement "button" [] []
    [{| output_name := "click"; output_handler := save_handler;
        output_sourceSpan := span0 |}]
    [TmplAstText "x"] span0.

(** The block of [@if (user.active) { <div>x</div> }]. *)
Definition user_active : AST :=
  ASTWithSource (PropertyRead (read "user") "active") (Some "user.active")
                "t.html".

Definition if_user_active : TmplAstNode :=
  TmplAstIfBlock
    [Branch (Some user_active)
            [TmplAstElement "div" [] [] [] [TmplAstText "x"] span0]]
    span0.


(** An [@if] block inside a [@defer] block. *)
Definition deferred_if : TmplAstNode :=
  TmplAstDeferredBlock [if_user_active] None None None.


(** The block of [@if (m && n) { }]: the condition is a binary
    operator on two reads of the component. *)
Definition m_and_n : AST :=
  ASTWithSource (OtherAST [read "m"; read "n"]) (Some "m && n") "t.html".

Definition if_m_and_n : TmplAstNode :=
  TmplAstIfBlock [Branch (Some m_and_n) []] span0.

End Sample.

(** ** Notions the properties of the selector engine are stated with *)

Module Grammar.

Import CssSelector.

Fixpoint all_chars (p : ascii -> bool) (s : string) : bool :=
  match s with
  | EmptyString => true
  | String c r => p c && all_chars p r
  end.

(** A string that [toLowerCase] leaves as it is. *)
Definition is_lower (s : string) : Prop := toLowerCase s = s.

(** The matches [exec] gives one after the other on a selector. *)
Fixpoint scan_loop (fuel : nat) (selector : string) : list RegExpMatch :=
  match fuel with
  | O => []
  | S fuel' =>
      match exec selector with
      | Some (m, rest) => m :: scan_loop fuel' rest
      | None => []
      end
  end.

Definition scan (selector : string) : list RegExpMatch :=
  scan_loop (S (String.length selector)) selector.

Definition is_not (m : RegExpMatch) : bool := truthy (g1 m).
Definition is_close (m : RegExpMatch) : bool := truthy (g7 m).
Definition is_comma (m : RegExpMatch) : bool := truthy (g8 m).

(** A negated group is open after the matches [seen]: the last of them
    that opens or closes a group opens one ([open] tells whether a group
    was open before them). *)
Definition open_after (open : bool) (seen : list RegExpMatch) : bool :=
  fold_left (fun open m =>
               if is_not m then true
               else if is_close m then false
               else open)
            seen open.

Definition group_open (seen : list RegExpMatch) : bool :=
  open_after false seen.

(** Among the matches [ms] there is a [:not(] or a comma met while a
    negated group is open. *)
Definition offends (ms : list RegExpMatch) : Prop :=
  exists seen m rest,
    ms = seen ++ m :: rest /\ group_open seen = true
    /\ (is_not m = true \/ is_comma m = true).

(** The loop of [parse] from the state [st] on, with the fuel [parse]
    gives it for the whole selector. *)
Definition parse_from (selector : string) (st : ParseState)
  : outcome (list t) :=
  parse_loop (S (String.length selector)) selector st.

(** The body of the loop on each of a list of matches, then the two
    statements after the loop. *)
Fixpoint run (ms : list RegExpMatch) (st : ParseState) : outcome (list t) :=
  match ms with
  | [] => Ok (results st ++ [cssSelector st])
  | m :: r => st' ← step m st; run r st'
  end.

(** The values of the flat array [attrs]: its entries at the odd
    indices. *)
Fixpoint values (attrs : list string) : list string :=
  match attrs with
  | _ :: value :: rest => value :: values rest
  | _ => []
  end.

(** Class names and attribute values are lower-case, in a selector and
    in its negated selectors. *)
Fixpoint stored_lower (sel : t) : Prop :=
  match sel with
  | Build _ classNames attrs notSelectors =>
      Forall is_lower classNames
      /\ Forall is_lower (values attrs)
      /\ (fix all (l : list t) : Prop :=
            match l with
            | [] => True
            | n :: r => stored_lower n /\ all r
            end) notSelectors
  end.

(** Class names, attribute names and attribute values are lower-case,
    in a selector and in its negated selectors. *)
Fixpoint all_stored_lower (sel : t) : Prop :=
  match sel with
  | Build _ classNames attrs notSelectors =>
      Forall is_lower classNames
      /\ Forall is_lower attrs
      /\ (fix all (l : list t) : Prop :=
            match l with
            | [] => True
            | n :: r => all_stored_lower n /\ all r
            end) notSelectors
  end.

(** The string [rest] does not go on with a character of the class [p]:
    a greedy run of [p] stops before it. *)
Definition stops (p : ascii -> bool) (rest : string) : Prop :=
  match rest with
  | EmptyString => True
  | String c _ => p c = false
  end.

(** The matches of [SELECTOR_REGEXP], by the alternative that matched. *)
Inductive token : RegExpMatch -> Prop :=
| token_not :
    token {| g1 := Some ":not("; g2 := None; g3 := None; g4 := None;
             g5 := None; g6 := None; g7 := None; g8 := None |}
| token_tag (prefix w : string) :
    prefix = "" \/ prefix = "." \/ prefix = "#" ->
    w <> "" -> all_chars is_tag_char w = true ->
    token {| g1 := None; g2 := Some (prefix ++ w)%string; g3 := Some prefix;
             g4 := None; g5 := None; g6 := None; g7 := None; g8 := None |}
| token_attr (name : string) (quote value : option string) :
    name <> "" -> all_chars is_attr_char name = true ->
    all_chars is_value_char (or_empty value) = true ->
    token {| g1 := None; g2 := None; g3 := None; g4 := Some name;
             g5 := quote; g6 := value; g7 := None; g8 := None |}
| token_close :
    token {| g1 := None; g2 := None; g3 := None; g4 := None;
             g5 := None; g6 := None; g7 := Some ")"; g8 := None |}
| token_comma (w : string) :
    w <> "" ->
    token {| g1 := None; g2 := None; g3 := None; g4 := None;
             g5 := None; g6 := None; g7 := None; g8 := Some w |}.

(** A tag or class name as the scan reads it. *)
Definition tag_word (w : string) : Prop :=
  w <> "" /\ all_chars is_tag_char w = true.

Definition class_name (c : string) : Prop := tag_word c /\ is_lower c.

Definition attr_name (name : string) : Prop :=
  name <> "" /\ all_chars is_attr_char name = true.

Definition attr_value (value : string) : Prop :=
  all_chars is_value_char value = true /\ is_lower value.

(** The flat array [attrs] holds pairs of a name and a value. *)
Fixpoint attr_pairs (attrs : list string) : Prop :=
  match attrs with
  | [] => True
  | [_] => False
  | name :: value :: rest =>
      attr_name name /\ attr_value value /\ attr_pairs rest
  end.

Definition element_word (element : option string) : Prop :=
  match element with
  | Some e => tag_word e
  | None => True
  end.

(** A selector without negated selectors, as [parse] builds it. *)
Definition simple (sel : t) : Prop :=
  element_word (element sel) /\ Forall class_name (classNames sel)
  /\ attr_pairs (attrs sel) /\ notSelectors sel = [].

(** A selector as [parse] builds it. *)
Definition parsed (sel : t) : Prop :=
  element_word (element sel) /\ Forall class_name (classNames sel)
  /\ attr_pairs (attrs sel) /\ Forall simple (notSelectors sel).

(** What holds of the variables of [parse] at each turn of the loop. *)
Definition state_parsed (st : ParseState) : Prop :=
  Forall parsed (results st) /\ parsed (cssSelector st).

(** The text [toString] writes, followed by the text [k]: the classes,
    the attributes, the element with both, the negated selectors, and a
    whole selector. *)
Fixpoint classes_k (classNames : list string) (k : string) : string :=
  match classNames with
  | [] => k
  | klass :: rest => ("." ++ klass ++ classes_k rest k)%string
  end.

Definition value_k (value : string) (k : string) : string :=
  if truthy (Some value) then ("=" ++ value ++ "]" ++ k)%string
  else ("]" ++ k)%string.

Fixpoint pairs_k (attrs : list string) (k : string) : string :=
  match attrs with
  | [] => k
  | [name] => ("[" ++ name ++ "]" ++ k)%string
  | name :: value :: rest =>
      ("[" ++ name ++ value_k value (pairs_k rest k))%string
  end.

Definition positive_k (element : option string) (classNames attrs : list string)
    (k : string) : string :=
  (or_empty element ++ classes_k classNames (pairs_k attrs k))%string.

Fixpoint nots_k (notSelectors : list t) (k : string) : string :=
  match notSelectors with
  | [] => k
  | n :: rest =>
      (":not("
       ++ positive_k (element n) (classNames n) (attrs n)
                     (")" ++ nots_k rest k))%string
  end.

Definition text_k (sel : t) (k : string) : string :=
  positive_k (element sel) (classNames sel) (attrs sel)
             (nots_k (notSelectors sel) k).

(** The selector [sel] with an element, classes and attributes more, as
    the calls of [setElement], [addClassName] and [addAttribute] leave
    it. *)
Definition grow (element' : option string) (classNames' attrs' : list string)
    (sel : t) : t :=
  Build (match element' with
         | Some _ => element'
         | None => element sel
         end)
        (classNames sel ++ classNames') (attrs sel ++ attrs')
        (notSelectors sel).

(** The matches of the five alternatives. *)
Definition not_match : RegExpMatch :=
  {| g1 := Some ":not("; g2 := None; g3 := None; g4 := None;
     g5 := None; g6 := None; g7 := None; g8 := None |}.

Definition tag_match (prefix w : string) : RegExpMatch :=
  {| g1 := None; g2 := Some (prefix ++ w)%string; g3 := Some prefix;
     g4 := None; g5 := None; g6 := None; g7 := None; g8 := None |}.

Definition attr_match (name : string) (quote value : option string)
  : RegExpMatch :=
  {| g1 := None; g2 := None; g3 := None; g4 := Some name;
     g5 := quote; g6 := value; g7 := None; g8 := None |}.

Definition close_match : RegExpMatch :=
  {| g1 := None; g2 := None; g3 := None; g4 := None;
     g5 := None; g6 := None; g7 := Some ")"; g8 := None |}.

End Grammar.

Import Grammar.

(** ** The method [toString] of the expression classes *)

Module Compiler.

(** [toString()] as [@angular/compiler], the dependency of the package,
    defines it: the class [AST] returns the text [AST] for every node,
    and of the classes the source imports [ASTWithSource] alone overrides
    it, with the template literal of its source, the word [in] and its
    location.  A [null] source reads [null] there. *)
Definition toString (ast : AST) : string :=
  match ast with
  | ASTWithSource _ source location =>
      (match source with
       | Some text => text
       | None => "null"
       end ++ " in " ++ location)%string
  | _ => "AST"
  end.

End Compiler.

(** ** [src/ast/types.ts]: the other guards, [NodeKind] and [hasKind] *)

Module NodeKind.

(** The enum [NodeKind]; its member [Variable] is written [Variable'],
    the plain word being taken. *)
Inductive t : Type :=
| Element | Text | Comment | Attribute | PropertyBinding | EventBinding
| TwoWayBinding | Interpolation | Template | Content | Reference | Variable'
| Directive | If | Else | For | Empty | Switch | Case | Default | Defer
| DeferPlaceholder | DeferLoading | DeferError.

(** The string each member of the enum stands for. *)
Definition value (kind : t) : string :=
  match kind with
  | Element => "Element"
  | Text => "Text"
  | Comment => "Comment"
  | Attribute => "Attribute"
  | PropertyBinding => "PropertyBinding"
  | EventBinding => "EventBinding"
  | TwoWayBinding => "TwoWayBinding"
  | Interpolation => "Interpolation"
  | Template => "Template"
  | Content => "Content"
  | Reference => "Reference"
  | Variable' => "Variable"
  | Directive => "Directive"
  | If => "If"
  | Else => "Else"
  | For => "For"
  | Empty => "Empty"
  | Switch => "Switch"
  | Case => "Case"
  | Default => "Default"
  | Defer => "Defer"
  | DeferPlaceholder => "DeferPlaceholder"
  | DeferLoading => "DeferLoading"
  | DeferError => "DeferError"
  end.

End NodeKind.

Module Kinds.

(** The guards of the object [is] that [src/core/template.ts] does not
    call. *)
Definition is_content (node : TmplAstNode) : bool :=
  checkNodeType node "Content".
Definition is_reference (node : TmplAstNode) : bool :=
  checkNodeType node "Reference".
Definition is_variable (node : TmplAstNode) : bool :=
  checkNodeType node "Variable".



Definition hasKind (node : TmplAstNode) (kind : NodeKind.t) : bool :=
  checkNodeType node (NodeKind.value kind).

Definition isNodeOfKind (node : TmplAstNode) (kind : NodeKind.t) : bool :=
  checkNodeType node (NodeKind.value kind).

End Kinds.

(** ** [src/core/template.ts]: the queries that sum up other queries *)

Module Summary.

(** [xs.forEach(x => set.add(x))], and [new Set(xs)] when [set] is
    empty. *)
Definition add_each (xs : list string) (set : list string) : list string :=
  fold_left (fun set x => set_add x set) xs set.

Section Queries.
Variable ast_toString : AST -> string.

(** [findMethodCalls()], on the nodes [this.parse()] returns. *)
Definition findMethodCalls (nodes : list TmplAstNode)
  : outcome (list string) :=
  handlers ← getEventHandlers ast_toString nodes;
  Ok (add_each (map handler_name handlers) []).

Definition findReferencedProperties (nodes : list TmplAstNode)
  : outcome (list string) :=
  bindings ← getPropertyBindings ast_toString nodes;
  Ok (fold_left
        (fun properties binding =>
           add_each (binding_referencedProperties binding) properties)
        bindings []).

Definition findControlFlowDependencies (nodes : list TmplAstNode)
  : outcome (list string) :=
  expressions ← getControlFlowExpressions ast_toString nodes;
  Ok (fold_left
        (fun dependencies expr =>
           add_each (cf_referencedProperties expr) dependencies)
        expressions []).

End Queries.

End Summary.

(** ** [src/core/template.ts]: the object of the class [Template] *)

Module TemplateClass.

(** [ParseError] of the compiler, with the two fields the code reads. *)
Record ParseError : Type := {
  msg : string;
  span : ParseSourceSpan
}.

(** [ParsedTemplate]: [errors] is [ParseError[] | null]. *)
Record ParsedTemplate : Type := {
  nodes : list TmplAstNode;
  parsed_errors : option (list ParseError)
}.

(** The union ['error' | 'warning']. *)
Inductive Level : Type := level_error | level_warning.

Record BindingError : Type := {
  error_message : string;
  error_span : ParseSourceSpan;
  error_level : Level
}.

(** The fields of a [Template]. *)
Record t : Type := {
  content : string;
  path : string;
  parsedTemplate : option ParsedTemplate;
  errors : list BindingError
}.

(** [new Template(content, path)] *)
Definition new (content path : string) : t :=
  {| content := content; path := path; parsedTemplate := None;
     errors := [] |}.

Definition getContent (this : t) : string := content this.

Definition getPath (this : t) : string := path this.

Section Methods.
(** [parseTemplate] of [@angular/compiler] is a call out of the code: it
    is given the state of what lies outside the object and returns it,
    so that the calls made show. *)
Context {World : Type}.
Variable parseTemplate : string -> string -> World -> ParsedTemplate * World.
Variable ast_toString : AST -> string.

(** A method that may assign to the fields of [this] and call the
    compiler. *)
Definition method (A : Type) : Type := t -> World -> A * t * World.

Definition parse : method (list TmplAstNode) :=
  fun this world =>
    match parsedTemplate this with
    | Some parsed => (nodes parsed, this, world)
    | None =>
        let '(parsed, world) :=
          parseTemplate (content this) (path this) world in
        let this :=
          {| content := content this; path := path this;
             parsedTemplate := Some parsed;
             errors :=
               match parsed_errors parsed with
               | Some errors =>
                   map (fun error =>
                          {| error_message := msg error;
                             error_span := span error;
                             error_level := level_error |})
                       errors
               | None => errors this
               end |} in
        (nodes parsed, this, world)
    end.

Definition getErrors : method (list BindingError) :=
  fun this world =>
    let '(this, world) :=
      match parsedTemplate this with
      | Some _ => (this, world)
      | None => let '(_, this, world) := parse this world in (this, world)
      end in
    (errors this, this, world).

Definition validateBindings : method (list BindingError) :=
  fun this world =>
    let '(this, world) :=
      match parsedTemplate this with
      | Some _ => (this, world)
      | None => let '(_, this, world) := parse this world in (this, world)
      end in
    (errors this, this, world).

(** A method that starts with [const nodes = this.parse()] and goes on
    with the nodes alone; what it throws leaves the assignments of
    [parse] in place. *)
Definition on_nodes {A : Type} (query : list TmplAstNode -> outcome A)
  : method (outcome A) :=
  fun this world =>
    let '(nodes, this, world) := parse this world in
    (query nodes, this, world).

Definition findElements (selector : string)
  : method (outcome (list TmplAstNode)) :=
  on_nodes (Template.findElements selector).

Definition findPropertyBindings (propertyName : string)
  : method (outcome (list BoundAttribute)) :=
  on_nodes (Template.findPropertyBindings propertyName).

Definition findEventBindings (eventName : string)
  : method (outcome (list BoundEvent)) :=
  on_nodes (Template.findEventBindings eventName).

Definition findInterpolations : method (outcome (list TmplAstNode)) :=
  on_nodes Template.findInterpolations.

Definition getBindingDependencies : method (outcome (list string)) :=
  on_nodes (Template.getBindingDependencies ast_toString).

Definition getEventHandlers : method (outcome (list EventHandler)) :=
  on_nodes (Template.getEventHandlers ast_toString).

Definition getPropertyBindings : method (outcome (list PropertyBinding)) :=
  on_nodes (Template.getPropertyBindings ast_toString).

Definition findMethodCalls : method (outcome (list string)) :=
  on_nodes (Summary.findMethodCalls ast_toString).

Definition findReferencedProperties : method (outcome (list string)) :=
  on_nodes (Summary.findReferencedProperties ast_toString).

Definition getControlFlowExpressions
  : method (outcome (list ControlFlowExpression)) :=
  on_nodes (Template.getControlFlowExpressions ast_toString).

Definition findControlFlowDependencies : method (outcome (list string)) :=
  on_nodes (Summary.findControlFlowDependencies ast_toString).

End Methods.

End TemplateClass.

(** ** Notions the properties of the matcher are stated with *)

Module Match.

Import CssSelector.

(** The object [matchesSelector] builds of an element and hands to
    [matches]. *)
Definition elementInfo (element : TmplAstNode) : ElementInfo :=
  match element with
  | TmplAstElement name attributes inputs _ _ _ =>
      {| tagName := Some name;
         classList :=
           Some match find (fun attr =>
                              String.eqb (Ng.attr_name attr) "class")
                           attributes with
                | Some classAttr =>
                    filter nonempty
                      (split_spaces (Ng.attr_value classAttr) EmptyString
                                    false)
                | None => []
                end;
         attributes :=
           Some (map (fun attr => (Ng.attr_name attr, Ng.attr_value attr))
                     attributes
                 ++ map (fun input =>
                           (input_name input,
                            match input_value input with
                            | ASTWithSource _ source _ => or_empty source
                            | _ => EmptyString
                            end)) inputs) |}
  | _ => {| tagName := None; classList := None; attributes := None |}
  end.

(** An element written in lower case. *)
Definition lower_info (e : ElementInfo) : ElementInfo :=
  {| tagName := option_map toLowerCase (tagName e);
     classList := option_map (map toLowerCase) (classList e);
     attributes :=
       option_map (map (fun a => (toLowerCase (fst a), toLowerCase (snd a))))
                  (attributes e) |}.

(** The flat array [attrs] with its names, the entries at the even
    indices, in lower case. *)
Fixpoint lower_attr_names (attrs : list string) : list string :=
  match attrs with
  | [] => []
  | [name] => [toLowerCase name]
  | name :: value :: rest => toLowerCase name :: value :: lower_attr_names rest
  end.

(** A selector with its element and its attribute names in lower case,
    and so its negated selectors. *)
Fixpoint lower_names (sel : t) : t :=
  match sel with
  | Build element classNames attrs notSelectors =>
      Build (option_map toLowerCase element) classNames
            (lower_attr_names attrs) (map lower_names notSelectors)
  end.

(** The entry of a list of attributes that decides for a name: the last
    one that has this name, case apart. *)
Definition deciding (name : string) (attributes : list (string * string))
  : option (string * string) :=
  find (fun a => String.eqb (toLowerCase (fst a)) (toLowerCase name))
       (rev attributes).

(** The requirements of the flat array [attrs], read on the list of
    attributes of the element. *)
Fixpoint attrs_required (attributes : list (string * string))
    (attrs : list string) : bool :=
  match attrs with
  | [] => true
  | [name] =>
      match deciding name attributes with
      | Some _ => true
      | None => false
      end
  | name :: value :: rest =>
      match deciding name attributes with
      | Some a =>
          (negb (nonempty value) || String.eqb (toLowerCase (snd a)) value)
          && attrs_required attributes rest
      | None => false
      end
  end.

(** The characters between two compound selectors: white space and the
    combinators. *)
Definition is_gap (c : ascii) : bool :=
  is_space c || Ascii.eqb c ">" || Ascii.eqb c "+" || Ascii.eqb c "~".

(** A class token holds no white space. *)
Definition no_space (c : ascii) : bool := negb (is_space c).

(** A text read as its words: [spaced words text] when [text] is the
    words of the list, in their order, each a longest run of characters
    that are no white space, with white space alone before, between and
    after them. *)
Inductive spaced : list string -> string -> Prop :=
| spaced_end (gap : string) :
    all_chars is_space gap = true -> spaced [] gap
| spaced_word (gap word rest : string) (words : list string) :
    all_chars is_space gap = true ->
    word <> EmptyString -> all_chars no_space word = true ->
    stops no_space rest -> spaced words rest ->
    spaced (word :: words) (gap ++ word ++ rest)%string.

(** The texts of the selectors of a list, a comma between two of
    them. *)
Fixpoint join (sels : list t) : string :=
  match sels with
  | [] => EmptyString
  | [sel] => toString sel
  | sel :: rest => (toString sel ++ "," ++ join rest)%string
  end.

(** The match of a comma without white space around it. *)
Definition comma_match : RegExpMatch :=
  {| g1 := None; g2 := None; g3 := None; g4 := None;
     g5 := None; g6 := None; g7 := None; g8 := Some "," |}.

End Match.

(** * Properties *)

(** ** The traversal *)

(** Case analysis on the class of a node, a [SwitchBlockCase] down to its
    fields. *)
Ltac case_node n :=
  destruct n as [ | | | | | | | | | | | | |[? ? ?]| | | | ].

Section TraversalFacts.

Lemma pop_snoc {A : Type} (l : list A) (x : A) : pop (l ++ [x]) = Some (x, l).
Proof.
  unfold pop. rewrite rev_app_distr. simpl. now rewrite rev_involutive.
Qed.

Lemma visit_order_app (a b : list TmplAstNode) :
  visit_order (a ++ b) = visit_order b ++ visit_order a.
Proof.
  induction a as [|n a IH]; simpl.
  - now rewrite app_nil_r.
  - rewrite IH. now rewrite app_assoc.
Qed.

Lemma visit_node_unfold (node : TmplAstNode) :
  visit_node node = node :: visit_order (pushed node).
Proof.
  destruct node as [ | | | | | | | | | |bs ?| |? cs ?| | | | | ];
    try reflexivity; simpl; f_equal.
  - induction bs as [|[e c] bs IH]; simpl; [reflexivity|].
    rewrite visit_order_app. f_equal. exact IH.
  - induction cs as [|[e c s] cs IH]; simpl; [reflexivity|].
    rewrite visit_order_app. f_equal. exact IH.
Qed.

Lemma visit_order_snoc (l : list TmplAstNode) (n : TmplAstNode) :
  visit_order (l ++ [n]) = n :: visit_order (pushed n) ++ visit_order l.
Proof.
  rewrite visit_order_app. simpl. now rewrite visit_node_unfold.
Qed.

Lemma fold_left_push {A B : Type} (f : B -> list A) (l : list B)
    (stack : list A) :
  fold_left (fun stack x => stack ++ f x) l stack
  = stack ++ concat (map f l).
Proof.
  revert stack. induction l as [|x l IH]; intros stack; simpl.
  - now rewrite app_nil_r.
  - rewrite IH. now rewrite app_assoc.
Qed.

(** What the chain of tests of [traverseNodes] does with each class. *)
Lemma push_children_spec (n : TmplAstNode) (stack : list TmplAstNode) :
  push_children n stack
  = match n with
    | TmplAstSwitchBlockCase _ =>
        Throw (TypeError "Cannot read properties of undefined")
    | _ => Ok (stack ++ pushed n)
    end.
Proof.
  destruct n; try reflexivity;
    unfold push_children; cbn;
    try (now rewrite app_nil_r);
    now rewrite fold_left_push.
Qed.

Lemma push_children_nil (n : TmplAstNode) (stack : list TmplAstNode) :
  push_children n stack
  = (_ ← push_children n []; Ok (stack ++ pushed n)).
Proof. rewrite !push_children_spec. now destruct n. Qed.

Lemma nodes_count_app (a b : list TmplAstNode) :
  nodes_count (a ++ b) = nodes_count a + nodes_count b.
Proof.
  induction a as [|n a IH]; simpl; [reflexivity|].
  rewrite IH. lia.
Qed.

Ltac fold_nodes_count :=
  change (fix nodes_count (l : list TmplAstNode) {struct l} : nat :=
            match l with
            | [] => 0
            | n :: r => node_count n + nodes_count r
            end) with nodes_count in *.

Lemma pushed_count (n : TmplAstNode) : nodes_count (pushed n) < node_count n.
Proof.
  destruct n as [ | | | | | | | | | |bs ?|? c e ?|? cs ?|[? ? ?]| | | | ];
    simpl; fold_nodes_count; try lia.
  - apply Nat.lt_succ_r.
    induction bs as [|[e c] bs IH]; simpl; [lia|].
    rewrite nodes_count_app. fold_nodes_count. lia.
  - apply Nat.lt_succ_r.
    induction cs as [|[e c s] cs IH]; simpl; [lia|].
    rewrite nodes_count_app. fold_nodes_count. lia.
Qed.

(** The loop visits the nodes in [visit_order], and the fuel
    [traverseNodes] gives it is enough. *)
Lemma traverse_loop_spec {St : Type}
    (visitor : TmplAstNode -> St -> outcome St) (fuel : nat) :
  forall (stack : list TmplAstNode) (st : St),
    nodes_count stack < fuel ->
    traverse_loop visitor fuel stack st
    = visit_all visitor (visit_order stack) st.
Proof.
  induction fuel as [|fuel IH]; intros stack st Hfuel; [lia|].
  destruct stack as [|x l] using rev_ind; [reflexivity|].
  simpl. rewrite pop_snoc, visit_order_snoc. simpl.
  destruct (visitor x st) as [st'| |]; simpl; try reflexivity.
  rewrite (push_children_nil x l).
  destruct (push_children x []) as [?| |]; simpl; try reflexivity.
  rewrite IH.
  - now rewrite visit_order_app.
  - rewrite nodes_count_app in *. pose proof (pushed_count x).
    simpl in Hfuel. lia.
Qed.

Lemma traverseNodes_spec {St : Type} (nodes : list TmplAstNode)
    (visitor : TmplAstNode -> St -> outcome St) (st : St) :
  traverseNodes nodes visitor st
  = visit_all visitor (visit_order nodes) st.
Proof. apply traverse_loop_spec. lia. Qed.

(** The traversal throws when it is handed a [SwitchBlockCase], and
    visits the nodes of [visit_order] otherwise. *)
Lemma visited_spec (nodes : list TmplAstNode) :
  visited nodes
  = if existsb is_stray_case (visit_order nodes)
    then Throw (TypeError "Cannot read properties of undefined")
    else Ok (visit_order nodes).
Proof.
  unfold visited. rewrite traverseNodes_spec.
  enough (H : forall l seen,
             visit_all (fun node seen => Ok (seen ++ [node])) l seen
             = if existsb is_stray_case l
               then Throw (TypeError "Cannot read properties of undefined")
               else Ok (seen ++ l)) by apply (H _ []).
  induction l as [|n l IH]; intros seen; cbn [visit_all existsb].
  - now rewrite app_nil_r.
  - rewrite push_children_spec.
    destruct n; simpl; try reflexivity; rewrite IH, <- app_assoc;
      reflexivity.
Qed.

End TraversalFacts.

(** C1, as stated, fails: of the two sibling elements of
    [<i></i><b></b>] the traversal visits the second first, where the
    order of the source template has the first first. *)
Lemma visited_reverses_siblings :
  visited Sample.two_siblings
    = Ok [Sample.element_b; Sample.element_i]
  /\ Sample.two_siblings = [Sample.element_i; Sample.element_b]
  /\ visited Sample.two_siblings <> Ok (source_order Sample.two_siblings).
Proof. repeat split; discriminate. Qed.

(** C1, amended: the traversal is depth first and a node is visited before
    the nodes it pushes, but siblings are visited last first: the visitor
    is run, in this order, on the last node of the list, on what that node
    pushes (again last first), and then on the rest of the list; the
    sequence of the nodes handed to the visitor is [visit_order]. *)
Theorem traverseNodes_visits_last_sibling_first :
  (forall (St : Type) (nodes : list TmplAstNode)
          (visitor : TmplAstNode -> St -> outcome St) (st : St),
      traverseNodes nodes visitor st
      = visit_all visitor (visit_order nodes) st)
  /\ (forall nodes : list TmplAstNode,
        visited nodes
        = if existsb is_stray_case (visit_order nodes)
          then Throw (TypeError "Cannot read properties of undefined")
          else Ok (visit_order nodes))
  /\ visit_order [] = []
  /\ (forall (siblings : list TmplAstNode) (last : TmplAstNode),
        visit_order (siblings ++ [last])
        = last :: visit_order (pushed last) ++ visit_order siblings).
Proof.
  split; [|split; [|split]].
  - intros. apply traverseNodes_spec.
  - apply visited_spec.
  - reflexivity.
  - intros. apply visit_order_snoc.
Qed.

(** ** Nothing inside a [@defer] block is visited *)

Section DeferFacts.

Lemma erase_defers_map (l : list TmplAstNode) :
  erase_defers l = map erase_defer l.
Proof. induction l; simpl; congruence. Qed.

Ltac fold_erase :=
  change (fix erase_list (l : list TmplAstNode) {struct l}
            : list TmplAstNode :=
            match l with
            | [] => []
            | n :: r => erase_defer n :: erase_list r
            end) with erase_defers in *.

Lemma erase_defers_app (a b : list TmplAstNode) :
  erase_defers (a ++ b) = erase_defers a ++ erase_defers b.
Proof. rewrite !erase_defers_map. apply map_app. Qed.

Lemma pushed_erase (n : TmplAstNode) :
  pushed (erase_defer n) = erase_defers (pushed n).
Proof.
  destruct n as [ | | | | | | | | | |bs ?| |? cs ?|[? ? ?]| | | | ];
    simpl; fold_erase; try reflexivity.
  - induction bs as [|[e c] bs IH]; simpl; [reflexivity|].
    fold_erase. now rewrite erase_defers_app, IH.
  - induction cs as [|[e c s] cs IH]; simpl; [reflexivity|].
    fold_erase. now rewrite erase_defers_app, IH.
Qed.

Lemma constructor_name_erase (n : TmplAstNode) :
  constructor_name (erase_defer n) = constructor_name n.
Proof. case_node n; reflexivity. Qed.

Lemma push_children_erase (n : TmplAstNode) :
  (_ ← push_children (erase_defer n) []; Ok tt)
  = (_ ← push_children n []; Ok tt).
Proof.
  rewrite !push_children_spec.
  case_node n; reflexivity.
Qed.

Lemma visit_order_erase_bounded (k : nat) :
  forall l : list TmplAstNode,
    nodes_count l <= k ->
    visit_order (erase_defers l) = erase_defers (visit_order l).
Proof.
  induction k as [|k IH]; intros [|n r] Hk; try reflexivity.
  - simpl in Hk. destruct n; simpl in Hk; lia.
  - simpl. rewrite erase_defers_app, !visit_node_unfold. simpl.
    pose proof (pushed_count n). simpl in Hk.
    rewrite pushed_erase, !IH by lia. reflexivity.
Qed.

Lemma visit_order_erase (l : list TmplAstNode) :
  visit_order (erase_defers l) = erase_defers (visit_order l).
Proof. now apply (visit_order_erase_bounded (nodes_count l)). Qed.

Lemma visit_all_erase {St : Type}
    (visitor : TmplAstNode -> St -> outcome St) :
  (forall n st, visitor (erase_defer n) st = visitor n st) ->
  forall (l : list TmplAstNode) (st : St),
    visit_all visitor (erase_defers l) st = visit_all visitor l st.
Proof.
  intros Hv l. induction l as [|n l IH]; intros st; simpl; [reflexivity|].
  rewrite Hv. destruct (visitor n st) as [st'| |]; simpl; try reflexivity.
  rewrite !push_children_spec.
  case_node n; simpl;
    try reflexivity; apply IH.
Qed.

Lemma traverseNodes_erase {St : Type}
    (visitor : TmplAstNode -> St -> outcome St) :
  (forall n st, visitor (erase_defer n) st = visitor n st) ->
  forall (nodes : list TmplAstNode) (st : St),
    traverseNodes (erase_defers nodes) visitor st
    = traverseNodes nodes visitor st.
Proof.
  intros Hv nodes st.
  rewrite !traverseNodes_spec, visit_order_erase.
  now apply visit_all_erase.
Qed.

Lemma is_guard_erase (typeName : string) (n : TmplAstNode) :
  checkNodeType (erase_defer n) typeName = checkNodeType n typeName.
Proof. unfold checkNodeType. now rewrite constructor_name_erase. Qed.

Lemma inputs_erase (n : TmplAstNode) : inputs (erase_defer n) = inputs n.
Proof. case_node n; reflexivity. Qed.

Lemma outputs_erase (n : TmplAstNode) : outputs (erase_defer n) = outputs n.
Proof. case_node n; reflexivity. Qed.

Lemma matchesSelector_erase (n : TmplAstNode) (selector : string) :
  matchesSelector (erase_defer n) selector = matchesSelector n selector.
Proof. case_node n; reflexivity. Qed.

Lemma findElements_erase (selector : string) (nodes : list TmplAstNode) :
  findElements selector (erase_defers nodes)
  = (elements ← findElements selector nodes; Ok (erase_defers elements)).
Proof.
  unfold findElements. rewrite !traverseNodes_spec, visit_order_erase.
  set (v := fun (node : TmplAstNode) (elements : list TmplAstNode) =>
              if is_element node
              then m ← matchesSelector node selector;
                   Ok (if m : bool then elements ++ [node] else elements)
              else Ok elements).
  enough (H : forall l acc,
             visit_all v (erase_defers l) (erase_defers acc)
             = (elements ← visit_all v l acc; Ok (erase_defers elements)))
    by apply (H _ []).
  subst v. induction l as [|n l IH]; intros acc;
    cbn [visit_all erase_defers]; [reflexivity|].
  unfold is_element. rewrite is_guard_erase, matchesSelector_erase.
  destruct (checkNodeType n "Element").
  - destruct (matchesSelector n selector) as [m| |]; simpl;
      try reflexivity.
    rewrite !push_children_spec.
    case_node n; simpl;
      try reflexivity;
      destruct m; rewrite <- ?IH, ?erase_defers_app; reflexivity.
  - simpl. rewrite !push_children_spec.
    case_node n; simpl;
      try reflexivity; apply IH.
Qed.

Lemma erase_boundText (n : TmplAstNode) :
  is_boundText n = true -> erase_defer n = n.
Proof. case_node n; now try discriminate. Qed.

Lemma findInterpolations_erase (nodes : list TmplAstNode) :
  findInterpolations (erase_defers nodes) = findInterpolations nodes.
Proof.
  unfold findInterpolations.
  rewrite !traverseNodes_spec, visit_order_erase.
  set (v := fun (node : TmplAstNode) (interpolations : list TmplAstNode) =>
              if is_boundText node then Ok (interpolations ++ [node])
              else Ok interpolations).
  enough (H : forall l acc,
             visit_all v (erase_defers l) acc = visit_all v l acc)
    by apply H.
  subst v. induction l as [|n l IH]; intros acc;
    cbn [visit_all erase_defers]; [reflexivity|].
  rewrite (is_guard_erase "BoundText" n : is_boundText _ = is_boundText n).
  destruct (is_boundText n) eqn:Hb; simpl.
  - rewrite (erase_boundText n Hb), !push_children_spec.
    destruct n; simpl; try reflexivity; apply IH.
  - rewrite !push_children_spec.
    case_node n; simpl;
      try reflexivity; apply IH.
Qed.

Lemma visited_erase (nodes : list TmplAstNode) :
  visited (erase_defers nodes)
  = (seen ← visited nodes; Ok (erase_defers seen)).
Proof.
  rewrite !visited_spec, visit_order_erase.
  assert (H : forall l,
             existsb is_stray_case (erase_defers l)
             = existsb is_stray_case l).
  { induction l as [|n l IH]; [reflexivity|]. simpl. rewrite IH.
    now case_node n. }
  rewrite H. now destruct (existsb is_stray_case (visit_order nodes)).
Qed.

End DeferFacts.

(** C10: the traversal pushes children for the classes Element, Template,
    IfBlock, ForLoopBlock and SwitchBlock only, and what it pushes for them
    is their child lists; a [@defer] block is visited alone, without
    anything below it; so the nodes visited and the answers of the queries
    are the same on a template and on the template with every [@defer]
    block, placeholder, loading and error block emptied: nothing they
    return comes from inside one.  An [@if] inside a [@defer] gives no
    control-flow record. *)
Theorem queries_ignore_defer_content :
  (forall (n : TmplAstNode) (stack stack' : list TmplAstNode),
      push_children n stack = Ok stack' -> stack' = stack ++ pushed n)
  /\ (forall n : TmplAstNode, pushed n <> [] -> descends_into n)
  /\ (forall (children : list TmplAstNode)
             (placeholder loading error : option (list TmplAstNode)),
        visited [TmplAstDeferredBlock children placeholder loading error]
        = Ok [TmplAstDeferredBlock children placeholder loading error])
  /\ (forall nodes : list TmplAstNode,
        visited (erase_defers nodes)
        = (seen ← visited nodes; Ok (erase_defers seen)))
  /\ (forall ast_toString : AST -> string,
        getControlFlowExpressions ast_toString [Sample.deferred_if] = Ok [])
  /\ (forall (selector : string) (nodes : list TmplAstNode),
        findElements selector (erase_defers nodes)
        = (elements ← findElements selector nodes;
           Ok (erase_defers elements)))
  /\ (forall nodes : list TmplAstNode,
        findInterpolations (erase_defers nodes) = findInterpolations nodes)
  /\ (forall (ast_toString : AST -> string) (nodes : list TmplAstNode),
        getPropertyBindings ast_toString (erase_defers nodes)
        = getPropertyBindings ast_toString nodes
        /\ getEventHandlers ast_toString (erase_defers nodes)
           = getEventHandlers ast_toString nodes
        /\ getBindingDependencies ast_toString (erase_defers nodes)
           = getBindingDependencies ast_toString nodes
        /\ getControlFlowExpressions ast_toString (erase_defers nodes)
           = getControlFlowExpressions ast_toString nodes).
Proof.
  repeat split.
  - intros n stack stack'. rewrite push_children_spec.
    destruct n; congruence.
  - intros n. destruct n; simpl; congruence || exact (fun _ => I).
  - apply visited_erase.
  - apply findElements_erase.
  - apply findInterpolations_erase.
  - apply traverseNodes_erase. intros n st. cbv beta.
    unfold is_element. now rewrite is_guard_erase, inputs_erase.
  - apply traverseNodes_erase. intros n st. cbv beta.
    unfold is_element. now rewrite is_guard_erase, outputs_erase.
  - apply traverseNodes_erase. intros n st.
    case_node n; reflexivity.
  - apply traverseNodes_erase. intros n st.
    destruct n as [ | | | | | | | | | |[|[? ?] ?] ?| | |[? ? ?]| | | | ];
      reflexivity.
Qed.

(** ** The queries *)

Section QueryFacts.

(** A visitor that never throws leaves the traversal to fail or not on
    its own, and folds over the visited nodes when it does not. *)
Lemma visit_all_pure {St : Type} (visitor : TmplAstNode -> St -> outcome St)
    (f : TmplAstNode -> St -> St) :
  (forall n st, visitor n st = Ok (f n st)) ->
  forall (l seen : list TmplAstNode) (st : St),
    visit_all visitor l st
    = (_ ← visit_all (fun node seen => Ok (seen ++ [node])) l seen;
       Ok (fold_left (fun st n => f n st) l st)).
Proof.
  intros Hv l. induction l as [|n l IH]; intros seen st; simpl;
    [reflexivity|].
  rewrite Hv. simpl.
  destruct (push_children n []) as [?| |]; simpl; try reflexivity.
  apply IH.
Qed.

Lemma traverseNodes_pure {St : Type}
    (visitor : TmplAstNode -> St -> outcome St)
    (f : TmplAstNode -> St -> St) :
  (forall n st, visitor n st = Ok (f n st)) ->
  forall (nodes : list TmplAstNode) (st : St),
    traverseNodes nodes visitor st
    = (_ ← visited nodes;
       Ok (fold_left (fun st n => f n st) (visit_order nodes) st)).
Proof.
  intros Hv nodes st. unfold visited.
  rewrite !traverseNodes_spec. now apply visit_all_pure.
Qed.

Lemma fold_left_append {A B : Type} (g : B -> list A) (l : list B)
    (acc : list A) :
  fold_left (fun acc x => acc ++ g x) l acc = acc ++ flat_map g l.
Proof.
  revert acc. induction l as [|x l IH]; intros acc; simpl.
  - now rewrite app_nil_r.
  - rewrite IH. now rewrite app_assoc.
Qed.

Variable ast_toString : AST -> string.

Lemma getControlFlowExpressions_visitor_spec (n : TmplAstNode)
    (expressions : list ControlFlowExpression) :
  getControlFlowExpressions_visitor ast_toString n expressions
  = Ok (expressions
          ++ match n with
             | TmplAstSwitchBlockCase c =>
                 [analyzeCaseExpression ast_toString c]
             | _ => block_expressions ast_toString n
             end).
Proof. destruct n; simpl; now rewrite ?app_nil_r. Qed.

(** No call of [getControlFlowExpressions] that returns gives a record of
    type ['case']: a visited [SwitchBlockCase] makes the traversal throw
    on [current.cases], and the cases of a [SwitchBlock] are not
    visited. *)
Lemma getControlFlowExpressions_no_case (nodes : list TmplAstNode)
    (expressions : list ControlFlowExpression) :
  getControlFlowExpressions ast_toString nodes = Ok expressions ->
  Forall (fun e => cf_type e <> type_case) expressions.
Proof.
  unfold getControlFlowExpressions. rewrite traverseNodes_spec.
  assert (H : forall l acc res,
             Forall (fun e => cf_type e <> type_case) acc ->
             visit_all (getControlFlowExpressions_visitor ast_toString)
                       l acc = Ok res ->
             Forall (fun e => cf_type e <> type_case) res).
  { induction l as [|n l IH]; intros acc res Hacc; simpl.
    - now intros [= <-].
    - rewrite getControlFlowExpressions_visitor_spec, push_children_spec.
      destruct n; simpl; try discriminate; apply IH;
        rewrite ?app_nil_r; try assumption;
        apply Forall_app; split; try assumption;
        repeat constructor; discriminate. }
  apply H. constructor.
Qed.


Lemma set_add_spec (x : string) (s : list string) :
  NoDup s ->
  NoDup (set_add x s) /\ forall y, In y (set_add x s) <-> y = x \/ In y s.
Proof.
  intros Hs. unfold set_add.
  destruct (existsb (String.eqb x) s) eqn:Hx.
  - split; [assumption|]. intros y. split; [now right|].
    intros [->|Hy]; [|assumption].
    apply existsb_exists in Hx as (z & Hz & Hxz).
    now apply String.eqb_eq in Hxz as ->.
  - split.
    + apply List.NoDup_app;
        [assumption|constructor; [intros []|constructor]|].
      intros y Hy [<-|[]].
      assert (Hex : existsb (String.eqb x) s = true).
      { apply existsb_exists. exists x. split; [assumption|].
        apply String.eqb_refl. }
      congruence.
    + intros y. rewrite in_app_iff. simpl. intuition congruence.
Qed.

(** What [getBindingDependencies] returns: without repeats, what its
    visitor emits for the nodes the traversal hands it. *)
Lemma getBindingDependencies_spec (nodes : list TmplAstNode) :
  exists dependencies,
    getBindingDependencies ast_toString nodes
    = (_ ← visited nodes; Ok dependencies)
    /\ NoDup dependencies
    /\ forall x,
         In x dependencies
         <-> exists n, In n (visit_order nodes)
                       /\ In x (emitted ast_toString n).
Proof.
  unfold getBindingDependencies.
  rewrite (traverseNodes_pure _
             (fun n deps =>
                fold_left (fun d x => set_add x d) (emitted ast_toString n)
                          deps))
    by (intros n st; destruct n; reflexivity).
  eexists. split; [reflexivity|].
  enough (H : forall l deps,
             NoDup deps ->
             let res :=
               fold_left
                 (fun st n =>
                    fold_left (fun d x => set_add x d)
                              (emitted ast_toString n) st) l deps in
             NoDup res
             /\ forall x,
                  In x res
                  <-> In x deps
                      \/ exists n, In n l /\ In x (emitted ast_toString n)).
  { destruct (H (visit_order nodes) [] (List.NoDup_nil _)) as [Hnd Hin].
    split; [exact Hnd|]. intros x. rewrite Hin. simpl. tauto. }
  induction l as [|n l IH]; intros deps Hdeps; simpl.
  - split; [assumption|]. intros x. split; [now left|].
    now intros [H|(n & [] & _)].
  - assert (Hn : NoDup (fold_left (fun d x => set_add x d)
                                  (emitted ast_toString n) deps)
                 /\ forall x,
                      In x (fold_left (fun d x => set_add x d)
                                      (emitted ast_toString n) deps)
                      <-> In x deps \/ In x (emitted ast_toString n)).
    { destruct n; simpl; try (split; [assumption|intros; tauto]);
        match goal with
        | |- NoDup (set_add ?y deps) /\ _ =>
            destruct (set_add_spec y deps Hdeps) as [Hnd Hin];
            split; [exact Hnd|]; intros x; rewrite Hin; intuition
        end. }
    destruct Hn as [Hnd Hin]. destruct (IH _ Hnd) as [Hnd' Hin'].
    split; [exact Hnd'|]. intros x. rewrite Hin', Hin. split.
    + intros [[H|H]|(m & Hm & Hx)]; eauto 6.
    + intros [H|(m & [<-|Hm] & Hx)]; eauto 6.
Qed.

End QueryFacts.

(** C2: the code does not do what the claim says of the bindings of an
    element.  Whatever property and event bindings an element carries,
    [getBindingDependencies] returns nothing for it: the traversal hands
    the visitor the element and its children, never the entries of
    [inputs] and [outputs], so the branches for property and event
    bindings are not reached.  In particular the template
    [<div [title]=a (click)=b()></div>] gives the empty list. *)
Theorem getBindingDependencies_skips_element_bindings :
  forall (ast_toString : AST -> string),
    getBindingDependencies ast_toString [Sample.div_title_click] = Ok []
    /\ forall (name : string) (attributes : list TextAttribute)
              (inputs : list BoundAttribute) (outputs : list BoundEvent)
              (sourceSpan : ParseSourceSpan),
         getBindingDependencies ast_toString
           [TmplAstElement name attributes inputs outputs [] sourceSpan]
         = Ok [].
Proof. intros ast_toString. split; reflexivity. Qed.

(** C3: the code does not record the cases of a switch.  For the template
    [@switch (x) { @case (1) { one } }], [getControlFlowExpressions]
    returns the record of the switch alone: the traversal pushes the
    children of each case, not the case, so the branch for
    [SwitchBlockCase] is not reached. *)
Theorem getControlFlowExpressions_skips_cases :
  forall (ast_toString : AST -> string),
    getControlFlowExpressions ast_toString [Sample.switch_x]
    = Ok [{| cf_type := type_switch;
             cf_expression :=
               ast_toString
                 (ASTWithSource (Sample.read "x") (Some "x") "t.html");
             cf_referencedProperties := ["x"];
             cf_sourceSpan := Sample.span0 |}].
Proof. intros ast_toString. reflexivity. Qed.

(** ** Event handlers *)



(** ** Dependencies of an expression *)

Section AstInduction.
Variable P : AST -> Prop.
Hypothesis HSource : forall ast source location,
    P ast -> P (ASTWithSource ast source location).
Hypothesis HRead : forall receiver name,
    P receiver -> P (PropertyRead receiver name).
Hypothesis HCall : forall receiver args,
    P receiver -> Forall P args -> P (Call receiver args).
Hypothesis HImplicit : P ImplicitReceiver.
Hypothesis HThis : P ThisReceiver.
Hypothesis HLiteral : forall value, P (LiteralPrimitive value).
Hypothesis HOther : forall operands, Forall P operands -> P (OtherAST operands).

Lemma AST_nested_ind (a : AST) : P a.
Proof.
  revert a. fix IH 1.
  intros [ast source location|receiver name|receiver args| | |value
         |operands].
  - apply HSource, IH.
  - apply HRead, IH.
  - apply HCall; [apply IH|].
    induction args as [|x args IHargs]; constructor; [apply IH|exact IHargs].
  - exact HImplicit.
  - exact HThis.
  - apply HLiteral.
  - apply HOther.
    induction operands as [|x l IHl]; constructor; [apply IH|exact IHl].
Qed.

End AstInduction.

Section DependencyFacts.

Lemma traverseAST_read {St : Type} (receiver : AST) (name : string)
    (visitor : AST -> St -> St) (st : St) :
  traverseAST (PropertyRead receiver name) visitor st
  = traverseAST receiver visitor (visitor (PropertyRead receiver name) st).
Proof. reflexivity. Qed.

Lemma traverseAST_call {St : Type} (receiver : AST) (args : list AST)
    (visitor : AST -> St -> St) (st : St) :
  traverseAST (Call receiver args) visitor st
  = traverseAST receiver visitor
      (fold_left (fun st arg => traverseAST arg visitor st) args
                 (visitor (Call receiver args) st)).
Proof. reflexivity. Qed.

(** The visitor appends, so a walk adds its names after those found
    before it. *)
Lemma traverseAST_append (a : AST) :
  forall st : list string,
    traverseAST a push_implicit_read st = st ++ dependencies a.
Proof.
  induction a as [ast source location IH|receiver name IH
                 |receiver args IHr IHargs| | |value|operands IH]
    using AST_nested_ind; intros st; unfold dependencies;
    try (simpl; now rewrite app_nil_r).
  - rewrite !traverseAST_read, (IH (push_implicit_read _ st)),
      (IH (push_implicit_read _ [])).
    simpl. destruct (instanceof_ImplicitReceiver receiver); simpl.
    + now rewrite <- app_assoc.
    + reflexivity.
  - rewrite !traverseAST_call, (IHr (fold_left _ _ _)),
      (IHr (fold_left _ args (push_implicit_read _ []))).
    rewrite app_assoc. f_equal.
    change (push_implicit_read (Call receiver args) st) with st.
    change (push_implicit_read (Call receiver args) []) with (@nil string).
    clear IHr. revert st.
    induction IHargs as [|arg args Harg _ IH]; intros st; simpl.
    + now rewrite app_nil_r.
    + rewrite (IH (traverseAST arg _ st)), (IH (traverseAST arg _ [])).
      rewrite Harg. unfold dependencies. now rewrite app_assoc.
Qed.

Lemma dependencies_read (receiver : AST) (name : string) :
  dependencies (PropertyRead receiver name)
  = (if instanceof_ImplicitReceiver receiver then [name] else [])
      ++ dependencies receiver.
Proof.
  unfold dependencies at 1. rewrite traverseAST_read, traverseAST_append.
  simpl. now destruct (instanceof_ImplicitReceiver receiver).
Qed.

Lemma dependencies_call (receiver : AST) (args : list AST) :
  dependencies (Call receiver args)
  = flat_map dependencies args ++ dependencies receiver.
Proof.
  unfold dependencies at 1. rewrite traverseAST_call, traverseAST_append.
  f_equal.
  change (push_implicit_read (Call receiver args) []) with (@nil string).
  enough (H : forall st,
             fold_left (fun st arg => traverseAST arg push_implicit_read st)
                       args st
             = st ++ flat_map dependencies args) by apply H.
  induction args as [|arg args IH]; intros st; simpl.
  - now rewrite app_nil_r.
  - rewrite IH, traverseAST_append. now rewrite app_assoc.
Qed.

Lemma dependencies_walked (root : AST) (name : string) :
  In name (dependencies root)
  <-> exists receiver,
        walked root (PropertyRead receiver name)
        /\ instanceof_ImplicitReceiver receiver = true.
Proof.
  split.
  - induction root as [ast source location IH|receiver rname IH
                      |receiver args IHr IHargs| | |value|operands IH]
      using AST_nested_ind; try (now intros []).
    + rewrite dependencies_read, in_app_iff. intros [Hin|Hin].
      * destruct (instanceof_ImplicitReceiver receiver) eqn:Hrecv;
          [|now destruct Hin].
        destruct Hin as [<-|[]]. exists receiver. split; [constructor|easy].
      * destruct (IH Hin) as (r & Hw & Hr). exists r.
        split; [now apply walked_read_receiver|easy].
    + rewrite dependencies_call, in_app_iff, in_flat_map.
      intros [(arg & Harg & Hin)|Hin].
      * rewrite Forall_forall in IHargs.
        destruct (IHargs arg Harg Hin) as (r & Hw & Hr). exists r.
        split; [now apply (walked_arg _ _ arg)|easy].
      * destruct (IHr Hin) as (r & Hw & Hr). exists r.
        split; [now apply walked_call_receiver|easy].
  - intros (receiver & Hw & Hr).
    remember (PropertyRead receiver name) as target eqn:Ht.
    induction Hw as [a|r args arg n Harg Hw IH|r args n Hw IH
                    |r rname n Hw IH]; subst.
    + rewrite dependencies_read, Hr. now left.
    + rewrite dependencies_call, in_app_iff, in_flat_map.
      left. exists arg. auto.
    + rewrite dependencies_call, in_app_iff. right. auto.
    + rewrite dependencies_read, in_app_iff. right. auto.
Qed.

End DependencyFacts.

Section SkippedReads.

(** What [traverseAST] collects stands in the tree as a read of the
    implicit receiver. *)
Lemma dependencies_sound (root : AST) (name : string) :
  In name (dependencies root) -> In name (implicit_reads root).
Proof.
  induction root as [ast source location IH|receiver rname IH
                    |receiver args IHr IHargs| | |value|operands IH]
    using AST_nested_ind; try (now intros []).
  - rewrite dependencies_read. cbn [implicit_reads].
    rewrite !in_app_iff. intros [H|H]; [now left|right; now apply IH].
  - rewrite dependencies_call. cbn [implicit_reads].
    rewrite !in_app_iff, !in_flat_map.
    intros [(arg & Harg & H)|H]; [left|right; now apply IHr].
    exists arg. split; [exact Harg|].
    rewrite List.Forall_forall in IHargs. now apply IHargs.
Qed.

End SkippedReads.

(** C9: the code does not do what the claim says of a read that stands
    under an operator.  For [@if (m && n) { }] the condition holds the
    reads [m] and [n] of the component, and the record of the block
    references no property: [traverseAST] goes on from a call and from a
    property read only, so that the operands of every other expression
    class are never handed to the visitor.  What it does collect is a
    read of the implicit receiver of the tree, and for
    [@if (user.active) { <div>x</div> }] the record holds [user] and not
    [active], as the claim says. *)
Theorem dependencies_skip_reads_under_operators :
  forall ast_toString : AST -> string,
    getControlFlowExpressions ast_toString [Sample.if_m_and_n]
    = Ok [{| cf_type := type_if;
             cf_expression := ast_toString Sample.m_and_n;
             cf_referencedProperties := [];
             cf_sourceSpan := Sample.span0 |}]
    /\ implicit_reads Sample.m_and_n = ["m"; "n"]
    /\ (forall operands : list AST, dependencies (OtherAST operands) = [])
    /\ (forall (root : AST) (name : string),
           In name (dependencies root) -> In name (implicit_reads root))
    /\ (exists record,
           getControlFlowExpressions ast_toString [Sample.if_user_active]
           = Ok [record]
           /\ cf_type record = type_if
           /\ In "user" (cf_referencedProperties record)
           /\ ~ In "active" (cf_referencedProperties record)).
Proof.
  intros ast_toString. repeat split.
  - apply dependencies_sound.
  - eexists. split; [reflexivity|]. simpl.
    split; [reflexivity|]. split; [now left|].
    intros [H|[]]. discriminate.
Qed.

(** ** Matching *)

Lemma matches_unfold (sel : CssSelector.t) (e : CssSelector.ElementInfo) :
  CssSelector.matches sel e
  = if truthy (CssSelector.element sel)
       && (negb (truthy (CssSelector.tagName e))
           || negb (String.eqb
                      (toLowerCase (or_empty (CssSelector.element sel)))
                      (toLowerCase (or_empty (CssSelector.tagName e)))))
    then false
    else if (0 <? length (CssSelector.classNames sel))%nat
            && negb (forallb
                       (fun className =>
                          bool_decide
                            (className ∈ CssSelector.elementClasses e))
                       (CssSelector.classNames sel))
    then false
    else if (0 <? length (CssSelector.attrs sel))%nat
            && negb (CssSelector.attrs_hold (CssSelector.elementAttrs e)
                                            (CssSelector.attrs sel))
    then false
    else if (0 <? length (CssSelector.notSelectors sel))%nat
            && existsb (fun notSelector => CssSelector.matches notSelector e)
                       (CssSelector.notSelectors sel)
    then false
    else true.
Proof. destruct sel; reflexivity. Qed.

(** C5: a selector none of whose negated selectors may match does not match
    an element that one of them matches, whatever its tag, classes and
    attributes are. *)
Theorem matches_false_when_not_selector_matches :
  forall (sel : CssSelector.t) (e : CssSelector.ElementInfo),
    existsb (fun notSelector => CssSelector.matches notSelector e)
            (CssSelector.notSelectors sel) = true ->
    CssSelector.matches sel e = false.
Proof.
  intros sel e Hnot. rewrite matches_unfold, Hnot.
  do 3 match goal with
       | |- (if ?c then false else _) = false => destruct c; [reflexivity|]
       end.
  destruct (CssSelector.notSelectors sel); [discriminate Hnot|reflexivity].
Qed.

(** Use of C5: [div:not(.x)] on a [div] of class [X]. *)
Lemma matches_false_when_not_selector_matches_witness :
  CssSelector.matches
    (CssSelector.Build (Some "div") [] []
       [CssSelector.Build None ["x"] [] []])
    {| CssSelector.tagName := Some "div";
       CssSelector.classList := Some ["X"];
       CssSelector.attributes := None |}
  = false.
Proof.
  apply matches_false_when_not_selector_matches. vm_compute. reflexivity.
Defined.

(** ** Strings and character classes *)

Import CssSelector.

Section StringFacts.

Local Open Scope string_scope.
Local Arguments String.append !s1 s2 : simpl nomatch.

Lemma append_empty_r (s : string) : s ++ "" = s.
Proof. induction s as [|c s IH]; simpl; congruence. Qed.

Lemma append_assoc (a b c : string) : (a ++ b) ++ c = a ++ (b ++ c).
Proof. induction a as [|x a IH]; simpl; congruence. Qed.

Lemma length_append (a b : string) :
  String.length (a ++ b) = String.length a + String.length b.
Proof. induction a as [|x a IH]; simpl; congruence. Qed.

Lemma span_spec (p : ascii -> bool) (s : string) :
  forall a b, span p s = (a, b) ->
              s = a ++ b /\ all_chars p a = true /\ stops p b.
Proof.
  induction s as [|c s IH]; simpl; intros a b H.
  - injection H as <- <-. repeat split.
  - destruct (p c) eqn:Hc.
    + destruct (span p s) as [a' b'] eqn:Hs. injection H as <- <-.
      destruct (IH _ _ eq_refl) as (-> & Ha & Hb). simpl.
      rewrite Hc, Ha. repeat split. exact Hb.
    + injection H as <- <-. repeat split. exact Hc.
Qed.

Lemma span_append (p : ascii -> bool) (a rest : string) :
  all_chars p a = true -> stops p rest -> span p (a ++ rest) = (a, rest).
Proof.
  induction a as [|c a IH]; simpl; intros Ha Hrest.
  - destruct rest as [|c r]; [reflexivity|]. simpl in *. now rewrite Hrest.
  - apply andb_true_iff in Ha as [Hc Ha]. rewrite Hc, IH; auto.
Qed.

Lemma span_length (p : ascii -> bool) (s a b : string) :
  span p s = (a, b) -> String.length s = String.length a + String.length b.
Proof.
  intros H. apply span_spec in H as (-> & _ & _). apply length_append.
Qed.

Lemma all_chars_append (p : ascii -> bool) (a b : string) :
  all_chars p (a ++ b) = all_chars p a && all_chars p b.
Proof.
  induction a as [|c a IH]; simpl; [reflexivity|].
  now rewrite IH, andb_assoc.
Qed.

Lemma all_chars_weaken (p q : ascii -> bool) (s : string) :
  (forall c, p c = true -> q c = true) ->
  all_chars p s = true -> all_chars q s = true.
Proof.
  intros Hpq. induction s as [|c s IH]; simpl; [reflexivity|].
  intros H. apply andb_true_iff in H as [Hc Hs].
  now rewrite (Hpq _ Hc), IH.
Qed.

Lemma lower_char_idempotent (c : ascii) :
  lower_char (lower_char c) = lower_char c.
Proof. destruct c as [[] [] [] [] [] [] [] []]; reflexivity. Qed.

Lemma toLowerCase_idempotent (s : string) :
  toLowerCase (toLowerCase s) = toLowerCase s.
Proof.
  induction s as [|c s IH]; simpl; [reflexivity|].
  now rewrite lower_char_idempotent, IH.
Qed.

Lemma lower_char_tag (c : ascii) :
  is_tag_char c = true -> is_tag_char (lower_char c) = true.
Proof. destruct c as [[] [] [] [] [] [] [] []]; now vm_compute. Qed.

Lemma lower_char_value (c : ascii) :
  is_value_char c = true -> is_value_char (lower_char c) = true.
Proof. destruct c as [[] [] [] [] [] [] [] []]; now vm_compute. Qed.

Lemma tag_char_value (c : ascii) :
  is_tag_char c = true -> is_value_char c = true.
Proof. destruct c as [[] [] [] [] [] [] [] []]; now vm_compute. Qed.

Lemma toLowerCase_chars (p : ascii -> bool) (s : string) :
  (forall c, p c = true -> p (lower_char c) = true) ->
  all_chars p s = true -> all_chars p (toLowerCase s) = true.
Proof.
  intros Hp. induction s as [|c s IH]; simpl; [reflexivity|].
  intros H. apply andb_true_iff in H as [Hc Hs].
  now rewrite (Hp _ Hc), IH.
Qed.

Lemma toLowerCase_nonempty (s : string) : s <> "" -> toLowerCase s <> "".
Proof. destruct s; [congruence|discriminate]. Qed.

End StringFacts.

(** ** The scan of a selector *)

Section ScanFacts.

Local Open Scope string_scope.
Local Arguments String.append !s1 s2 : simpl nomatch.

Lemma strip_prefix_spec (p s r : string) :
  strip_prefix p s = Some r -> s = p ++ r.
Proof.
  revert s. induction p as [|a p IH]; intros s; simpl.
  - now intros [= ->].
  - destruct s as [|b s]; [discriminate|].
    destruct (Ascii.eqb a b) eqn:Hab; [|discriminate].
    apply Ascii.eqb_eq in Hab as ->. intros H. now rewrite (IH _ H).
Qed.

Lemma strip_prefix_append (p r : string) : strip_prefix p (p ++ r) = Some r.
Proof.
  induction p as [|a p IH]; simpl; [reflexivity|].
  now rewrite Ascii.eqb_refl.
Qed.

Lemma alt_not_token (s : string) (m : RegExpMatch) (rest : string) :
  alt_not s = Some (m, rest) ->
  token m /\ String.length rest < String.length s.
Proof.
  unfold alt_not. destruct (strip_prefix ":not(" s) as [r|] eqn:Hs;
    [|discriminate].
  intros [= <- <-]. apply strip_prefix_spec in Hs as ->.
  split; [constructor|]. rewrite length_append. simpl. lia.
Qed.

Lemma alt_tag_token (s : string) (m : RegExpMatch) (rest : string) :
  alt_tag s = Some (m, rest) ->
  token m /\ String.length rest < String.length s.
Proof.
  unfold alt_tag.
  set (split := match s with
                | String c r =>
                    if Ascii.eqb c "." || Ascii.eqb c "#"
                    then (String c "", r) else ("", s)
                | "" => ("", s)
                end).
  assert (Hsplit : (fst split = "" \/ fst split = "." \/ fst split = "#")
                   /\ s = fst split ++ snd split).
  { subst split. destruct s as [|c r]; [now auto|].
    destruct (Ascii.eqb c ".") eqn:Hdot; simpl.
    - apply Ascii.eqb_eq in Hdot as ->. auto.
    - destruct (Ascii.eqb c "#") eqn:Hhash; simpl; [|now auto].
      apply Ascii.eqb_eq in Hhash as ->. auto. }
  destruct split as [prefix s1]. simpl in Hsplit.
  destruct Hsplit as [Hprefix ->].
  destruct (span is_tag_char s1) as [w r] eqn:Hspan.
  apply span_spec in Hspan as (-> & Hw & _).
  destruct w as [|c w]; [discriminate|].
  intros [= <- <-]. split.
  - now constructor.
  - rewrite !length_append. simpl. lia.
Qed.

Lemma alt_attr_tail_token (name s : string) (m : RegExpMatch)
    (rest : string) :
  name <> "" -> all_chars is_attr_char name = true ->
  alt_attr_tail name s = Some (m, rest) ->
  token m /\ String.length rest < String.length s.
Proof.
  intros Hne Hname. unfold alt_attr_tail.
  destruct s as [|c r]; [discriminate|].
  destruct (Ascii.eqb c "]").
  { intros [= <- <-]. split; [now constructor|simpl; lia]. }
  destruct (Ascii.eqb c "="); [|discriminate].
  destruct r as [|q r1]; [discriminate|].
  destruct (is_quote q).
  - destruct (span is_value_char r1) as [v r2] eqn:Hspan.
    pose proof (span_length _ _ _ _ Hspan) as Hlen.
    apply span_spec in Hspan as (_ & Hv & _).
    destruct r2 as [|q' [|b r3]]; try discriminate.
    destruct (Ascii.eqb q q' && Ascii.eqb b "]"); [|discriminate].
    intros [= <- <-]. split; [now constructor|].
    simpl in *. lia.
  - destruct (span is_value_char (String q r1)) as [v r2] eqn:Hspan.
    pose proof (span_length _ _ _ _ Hspan) as Hlen.
    apply span_spec in Hspan as (_ & Hv & _).
    destruct r2 as [|b r3]; [discriminate|].
    destruct (Ascii.eqb b "]"); [|discriminate].
    intros [= <- <-]. split; [now constructor|].
    simpl in *. lia.
Qed.

Lemma alt_attr_token (s : string) (m : RegExpMatch) (rest : string) :
  alt_attr s = Some (m, rest) ->
  token m /\ String.length rest < String.length s.
Proof.
  unfold alt_attr. destruct s as [|c r]; [discriminate|].
  destruct (Ascii.eqb c "["); [|discriminate].
  destruct (span is_attr_char r) as [name r1] eqn:Hspan.
  pose proof (span_length _ _ _ _ Hspan) as Hlen.
  apply span_spec in Hspan as (_ & Hname & _).
  destruct name as [|a name]; [discriminate|].
  intros H. apply alt_attr_tail_token in H as [Htok Hlt];
    [|discriminate|assumption].
  split; [assumption|]. simpl in *. lia.
Qed.

Lemma alt_close_token (s : string) (m : RegExpMatch) (rest : string) :
  alt_close s = Some (m, rest) ->
  token m /\ String.length rest < String.length s.
Proof.
  unfold alt_close. destruct s as [|c r]; [discriminate|].
  destruct (Ascii.eqb c ")"); [|discriminate].
  intros [= <- <-]. split; [constructor|simpl; lia].
Qed.

Lemma alt_comma_token (s : string) (m : RegExpMatch) (rest : string) :
  alt_comma s = Some (m, rest) ->
  token m /\ String.length rest < String.length s.
Proof.
  unfold alt_comma.
  destruct (span is_space s) as [w1 r] eqn:H1.
  pose proof (span_length _ _ _ _ H1) as Hlen1.
  destruct r as [|c r1]; [discriminate|].
  destruct (Ascii.eqb c ","); [|discriminate].
  destruct (span is_space r1) as [w2 r2] eqn:H2.
  pose proof (span_length _ _ _ _ H2) as Hlen2.
  intros [= <- <-]. split.
  - constructor. destruct w1; discriminate.
  - simpl in *. lia.
Qed.

Lemma match_here_token (s : string) (m : RegExpMatch) (rest : string) :
  match_here s = Some (m, rest) ->
  token m /\ String.length rest < String.length s.
Proof.
  unfold match_here.
  destruct (alt_not s) as [[m1 r1]|] eqn:H1.
  { intros [= <- <-]. now apply alt_not_token. }
  destruct (alt_tag s) as [[m2 r2]|] eqn:H2.
  { intros [= <- <-]. now apply alt_tag_token. }
  destruct (alt_attr s) as [[m3 r3]|] eqn:H3.
  { intros [= <- <-]. now apply alt_attr_token. }
  destruct (alt_close s) as [[m4 r4]|] eqn:H4.
  { intros [= <- <-]. now apply alt_close_token. }
  apply alt_comma_token.
Qed.

(** A match is a token and takes at least one character. *)
Lemma exec_token (s : string) (m : RegExpMatch) (rest : string) :
  exec s = Some (m, rest) ->
  token m /\ String.length rest < String.length s.
Proof.
  induction s as [|c s IH]; cbn [exec].
  - intros H. vm_compute in H. discriminate.
  - destruct (match_here (String c s)) as [[m' r']|] eqn:H.
    + intros [= <- <-]. now apply match_here_token in H.
    + intros H'. destruct (IH H') as [Htok Hlt]. split; [assumption|].
      simpl. lia.
Qed.

(** More fuel than [parse] gives changes nothing. *)
Lemma parse_loop_fuels (fuel1 : nat) :
  forall (fuel2 : nat) (s : string) (st : ParseState),
    String.length s < fuel1 -> String.length s < fuel2 ->
    parse_loop fuel1 s st = parse_loop fuel2 s st.
Proof.
  induction fuel1 as [|fuel1 IH]; intros [|fuel2] s st H1 H2; try lia.
  simpl. destruct (exec s) as [[m rest]|] eqn:He; [|reflexivity].
  destruct (step m st) as [st'| |]; simpl; try reflexivity.
  apply exec_token in He as [_ Hlt]. apply IH; lia.
Qed.

Lemma parse_from_unfold (s : string) (st : ParseState) :
  parse_from s st
  = match exec s with
    | Some (m, rest) => st' ← step m st; parse_from rest st'
    | None => Ok (results st ++ [cssSelector st])%list
    end.
Proof.
  unfold parse_from at 1. simpl.
  destruct (exec s) as [[m rest]|] eqn:He; [|reflexivity].
  destruct (step m st) as [st'| |]; simpl; try reflexivity.
  apply exec_token in He as [_ Hlt]. apply parse_loop_fuels; lia.
Qed.

Lemma scan_loop_fuels (fuel1 : nat) :
  forall (fuel2 : nat) (s : string),
    String.length s < fuel1 -> String.length s < fuel2 ->
    scan_loop fuel1 s = scan_loop fuel2 s.
Proof.
  induction fuel1 as [|fuel1 IH]; intros [|fuel2] s H1 H2; try lia.
  simpl. destruct (exec s) as [[m rest]|] eqn:He; [|reflexivity].
  apply exec_token in He as [_ Hlt]. f_equal. apply IH; lia.
Qed.

Lemma scan_unfold (s : string) :
  scan s
  = match exec s with
    | Some (m, rest) => m :: scan rest
    | None => []
    end.
Proof.
  unfold scan at 1. simpl.
  destruct (exec s) as [[m rest]|] eqn:He; [|reflexivity].
  f_equal. apply exec_token in He as [_ Hlt]. apply scan_loop_fuels; lia.
Qed.

Lemma scan_tokens (s : string) : Forall token (scan s).
Proof.
  remember (String.length s) as n eqn:Hn. revert s Hn.
  induction n as [n IH] using lt_wf_ind. intros s ->.
  rewrite scan_unfold. destruct (exec s) as [[m rest]|] eqn:He;
    [|constructor].
  apply exec_token in He as [Htok Hlt].
  constructor; [assumption|]. now apply (IH _ Hlt).
Qed.

(** [parse] runs the body of its loop on the matches of the scan. *)
Lemma parse_from_run (s : string) :
  forall st : ParseState, parse_from s st = run (scan s) st.
Proof.
  remember (String.length s) as n eqn:Hn. revert s Hn.
  induction n as [n IH] using lt_wf_ind. intros s -> st.
  rewrite parse_from_unfold, scan_unfold.
  destruct (exec s) as [[m rest]|] eqn:He; [|reflexivity].
  apply exec_token in He as [_ Hlt]. simpl.
  destruct (step m st) as [st'| |]; simpl; try reflexivity.
  now apply (IH _ Hlt).
Qed.

Lemma parse_run (s : string) : parse s = run (scan s) init.
Proof. apply (parse_from_run s init). Qed.

End ScanFacts.

(** ** What [parse] builds *)

Section ParsedFacts.

Lemma pair_induction {A : Type} (P : list A -> Prop) :
  P [] -> (forall x, P [x]) -> (forall x y l, P l -> P (x :: y :: l)) ->
  forall l, P l.
Proof.
  intros Hnil Hone Hpair.
  fix IH 1. intros [|x [|y l]]; [exact Hnil|apply Hone|].
  apply Hpair. apply IH.
Qed.

Lemma attr_pairs_app (a b : list string) :
  attr_pairs a -> attr_pairs b -> attr_pairs (a ++ b).
Proof.
  induction a as [|x|x y a IH] using pair_induction; simpl.
  - auto.
  - intros [].
  - intros (Hx & Hy & Ha) Hb. auto.
Qed.

Lemma attr_pairs_values_lower (attrs : list string) :
  attr_pairs attrs -> Forall is_lower (values attrs).
Proof.
  induction attrs as [|x|x y a IH] using pair_induction; simpl.
  - constructor.
  - intros [].
  - intros (_ & [_ Hy] & Ha). constructor; auto.
Qed.

Lemma simple_parsed (sel : t) : simple sel -> parsed sel.
Proof.
  intros (He & Hc & Ha & Hn). repeat split; try assumption.
  rewrite Hn. constructor.
Qed.

Lemma simple_stored_lower (sel : t) : simple sel -> stored_lower sel.
Proof.
  destruct sel as [e c a n]. intros (He & Hc & Ha & Hn). simpl in *.
  subst n. repeat split.
  - eapply Forall_impl; [|exact Hc]. now intros x [_ Hx].
  - now apply attr_pairs_values_lower.
Qed.

Lemma parsed_stored_lower (sel : t) : parsed sel -> stored_lower sel.
Proof.
  destruct sel as [e c a n]. intros (He & Hc & Ha & Hn). simpl in *.
  repeat split.
  - eapply Forall_impl; [|exact Hc]. now intros x [_ Hx].
  - now apply attr_pairs_values_lower.
  - induction Hn as [|x l Hx _ IH]; [exact I|].
    split; [now apply simple_stored_lower|exact IH].
Qed.

Lemma update_last_Forall (P : t -> Prop) (f : t -> t) (l : list t) :
  (forall x, P x -> P (f x)) -> Forall P l -> Forall P (update_last f l).
Proof.
  intros Hf. induction 1 as [|x l Hx Hl IH]; [constructor|].
  simpl. destruct l as [|y l]; constructor; auto.
Qed.

Lemma on_current_parsed (f : t -> t) (st : ParseState) :
  (forall sel, parsed sel -> parsed (f sel)) ->
  (forall sel, simple sel -> simple (f sel)) ->
  state_parsed st -> state_parsed (on_current f st).
Proof.
  intros Hp Hs [Hres Hsel]. unfold on_current.
  destruct (current st); split; simpl; auto.
  destruct Hsel as (He & Hc & Ha & Hn). repeat split; simpl; auto.
  now apply update_last_Forall.
Qed.

Lemma setElement_keeps (w : string) :
  tag_word w ->
  (forall sel, parsed sel -> parsed (setElement (Some w) sel))
  /\ (forall sel, simple sel -> simple (setElement (Some w) sel)).
Proof.
  intros Hw. split; intros [e c a n] (He & Hc & Ha & Hn);
    repeat split; simpl; auto; apply Hw.
Qed.

Lemma addClassName_keeps (w : string) :
  tag_word w ->
  (forall sel, parsed sel -> parsed (addClassName w sel))
  /\ (forall sel, simple sel -> simple (addClassName w sel)).
Proof.
  intros [Hne Hw].
  assert (Hclass : class_name (toLowerCase w)).
  { repeat split.
    - now apply toLowerCase_nonempty.
    - apply toLowerCase_chars; [apply lower_char_tag|assumption].
    - apply toLowerCase_idempotent. }
  split; intros [e c a n] (He & Hc & Ha & Hn);
    repeat split; simpl; auto; apply Forall_app; auto.
Qed.

Lemma addAttribute_keeps (name value : string) :
  attr_name name -> all_chars is_value_char value = true ->
  (forall sel, parsed sel -> parsed (addAttribute name value sel))
  /\ (forall sel, simple sel -> simple (addAttribute name value sel)).
Proof.
  intros Hname Hvalue.
  assert (Hpair : attr_pairs [name; toLowerCase value]).
  { repeat split; try apply Hname.
    - apply toLowerCase_chars; [apply lower_char_value|assumption].
    - apply toLowerCase_idempotent. }
  split; intros [e c a n] (He & Hc & Ha & Hn);
    repeat split; simpl; auto; now apply attr_pairs_app.
Qed.

Lemma parsed_new : parsed new /\ simple new.
Proof. repeat split; simpl; auto. Qed.

(** The body of the loop keeps the selectors well formed. *)
Lemma step_parsed (m : RegExpMatch) (st st' : ParseState) :
  token m -> state_parsed st -> step m st = Ok st' -> state_parsed st'.
Proof.
  intros Htok Hst. unfold step.
  destruct Htok as [|prefix w Hprefix Hne Hw|name quote value Hne Hname Hvalue
                   | |w Hne]; simpl.
  - destruct (inNot st); [discriminate|]. intros [= <-].
    destruct Hst as [Hres (He & Hc & Ha & Hn)].
    split; [assumption|]. repeat split; simpl; auto.
    apply Forall_app. split; [assumption|].
    constructor; [apply parsed_new|constructor].
  - assert (Htag : tag_word w) by now split.
    destruct Hprefix as [->|[->| ->]]; simpl;
      (destruct w as [|c w]; [congruence|]); simpl; intros [= <-].
    + now apply on_current_parsed; try apply setElement_keeps.
    + now apply on_current_parsed; try apply addClassName_keeps.
    + destruct (addAttribute_keeps "id" (String c w)) as [Hp Hs].
      * now split.
      * eapply all_chars_weaken; [apply tag_char_value|exact Hw].
      * now apply on_current_parsed.
  - destruct name as [|c name]; [congruence|]. simpl. intros [= <-].
    now apply on_current_parsed; try apply addAttribute_keeps.
  - intros [= <-]. exact Hst.
  - destruct w as [|c w]; [congruence|]. simpl.
    destruct (inNot st); [discriminate|]. intros [= <-].
    destruct Hst as [Hres Hsel]. split; simpl.
    + apply Forall_app. split; [assumption|]. now constructor.
    + apply parsed_new.
Qed.

Lemma run_parsed (ms : list RegExpMatch) :
  forall (st : ParseState) (sels : list t),
    Forall token ms -> state_parsed st -> run ms st = Ok sels ->
    Forall parsed sels.
Proof.
  induction ms as [|m ms IH]; intros st sels Htok Hst; simpl.
  - intros [= <-]. destruct Hst as [Hres Hsel].
    apply Forall_app. split; [assumption|]. now constructor.
  - inversion_clear Htok as [|? ? Hm Hms].
    destruct (step m st) as [st'| |] eqn:Hstep; try discriminate. simpl.
    apply IH; [assumption|]. now apply (step_parsed m st).
Qed.

Lemma parse_parsed (s : string) (sels : list t) :
  parse s = Ok sels -> Forall parsed sels.
Proof.
  rewrite parse_run. apply run_parsed; [apply scan_tokens|].
  split; [constructor|apply parsed_new].
Qed.

End ParsedFacts.

(** C4, as stated, fails: [parse] stores the attribute name of [[Foo=Bar]]
    as it is written, with its upper-case letter. *)
Lemma parse_keeps_case_of_attribute_name :
  parse "[Foo=Bar]" = Ok [Build None [] ["Foo"; "bar"] []]
  /\ ~ (forall (s : string) (sels : list t),
           parse s = Ok sels -> Forall all_stored_lower sels).
Proof.
  split; [reflexivity|].
  intros H.
  pose proof (H "[Foo=Bar]" [Build None [] ["Foo"; "bar"] []] eq_refl) as H'.
  inversion_clear H' as [|? ? Hsel _]. simpl in Hsel.
  destruct Hsel as (_ & Hattrs & _).
  inversion_clear Hattrs as [|? ? Hfoo _]. discriminate Hfoo.
Qed.

(** C4, amended: after [parse] succeeds, every class name and every
    attribute value stored in each returned selector, and in its
    [notSelectors], is lower-case.  (Attribute names are stored as they
    are written.) *)
Theorem parse_stores_lower_case :
  forall (s : string) (sels : list t),
    parse s = Ok sels -> Forall stored_lower sels.
Proof.
  intros s sels H. apply parse_parsed in H.
  eapply Forall_impl; [|exact H]. apply parsed_stored_lower.
Qed.

(** Use of C4 on [DIV.Big[Foo=Bar]:not(.Q)]. *)
Lemma parse_stores_lower_case_witness :
  Forall stored_lower
    [Build (Some "DIV") ["big"] ["Foo"; "bar"] [Build None ["q"] [] []]].
Proof.
  apply (parse_stores_lower_case "DIV.Big[Foo=Bar]:not(.Q)"). reflexivity.
Defined.

(** ** When [parse] throws *)

Section ThrowFacts.

(** The body of the loop throws on a [:not(] or a comma met in an open
    group, and on nothing else; otherwise it opens or closes the group as
    the match says. *)
Lemma step_cases (m : RegExpMatch) (st : ParseState) :
  token m ->
  if inNot st && (is_not m || is_comma m)
  then step m st
       = Throw (if is_not m then nesting_error else multiple_error)
  else exists st',
         step m st = Ok st'
         /\ inNot st' = open_after (inNot st) [m].
Proof.
  intros Htok. unfold step, open_after, is_not, is_comma, is_close.
  destruct Htok as [|prefix w Hprefix Hne Hw|name quote value Hne Hname Hvalue
                   | |w Hne]; simpl.
  - destruct (inNot st); simpl; [reflexivity|]. eexists. split; reflexivity.
  - rewrite andb_false_r.
    destruct Hprefix as [->|[->| ->]]; simpl;
      (destruct w as [|c w]; [congruence|]); simpl;
      eexists; (split; [reflexivity|]); unfold on_current;
      destruct (current st); reflexivity.
  - rewrite andb_false_r. destruct name as [|c name]; [congruence|]. simpl.
    eexists. split; [reflexivity|]. unfold on_current.
    destruct (current st); reflexivity.
  - rewrite andb_false_r. eexists. split; reflexivity.
  - destruct w as [|c w]; [congruence|]. simpl.
    destruct (inNot st); simpl; [reflexivity|]. eexists. split; reflexivity.
Qed.

Lemma open_after_cons (open : bool) (m : RegExpMatch)
    (seen : list RegExpMatch) :
  open_after open (m :: seen) = open_after (open_after open [m]) seen.
Proof. reflexivity. Qed.

Lemma run_throw (ms : list RegExpMatch) :
  forall (st : ParseState) (e : exn),
    Forall token ms -> run ms st = Throw e ->
    exists seen m rest,
      ms = seen ++ m :: rest /\ open_after (inNot st) seen = true
      /\ ((is_not m = true /\ e = nesting_error)
          \/ (is_comma m = true /\ e = multiple_error)).
Proof.
  induction ms as [|m ms IH]; intros st e Htok; simpl; [discriminate|].
  inversion_clear Htok as [|? ? Hm Hms].
  pose proof (step_cases m st Hm) as Hstep.
  destruct (inNot st && (is_not m || is_comma m)) eqn:Hbad.
  - rewrite Hstep. simpl. intros [= <-].
    apply andb_true_iff in Hbad as [Hopen Hkind].
    exists [], m, ms. repeat split; [exact Hopen|].
    destruct (is_not m); simpl in *; auto.
  - destruct Hstep as (st' & -> & Hopen). simpl. intros Hrun.
    destruct (IH _ _ Hms Hrun) as (seen & m' & rest & -> & Hseen & Hkind).
    exists (m :: seen), m', rest. repeat split; [|exact Hkind].
    rewrite open_after_cons, <- Hopen. exact Hseen.
Qed.

Lemma run_offends (ms : list RegExpMatch) :
  forall (st : ParseState) (seen : list RegExpMatch) (m : RegExpMatch)
         (rest : list RegExpMatch),
    Forall token ms ->
    ms = seen ++ m :: rest -> open_after (inNot st) seen = true ->
    is_not m = true \/ is_comma m = true ->
    exists e, run ms st = Throw e.
Proof.
  induction ms as [|m0 ms IH]; intros st seen m rest Htok Hms Hopen Hkind.
  - now destruct seen.
  - inversion_clear Htok as [|? ? Hm0 Htoks]. simpl.
    pose proof (step_cases m0 st Hm0) as Hstep.
    destruct (inNot st && (is_not m0 || is_comma m0)) eqn:Hbad.
    + rewrite Hstep. simpl. eauto.
    + destruct Hstep as (st' & -> & Hopen'). simpl.
      destruct seen as [|m1 seen]; simpl in Hms; injection Hms as <- ->.
      * simpl in Hopen. rewrite Hopen in Hbad. simpl in Hbad.
        apply orb_false_iff in Hbad as [H1 H2].
        destruct Hkind; congruence.
      * apply (IH st' seen m rest); auto.
        rewrite Hopen'. exact Hopen.
Qed.

Lemma run_returns (ms : list RegExpMatch) :
  forall st : ParseState,
    Forall token ms ->
    (exists e, run ms st = Throw e)
    \/ (exists sels, run ms st = Ok sels /\ sels <> []).
Proof.
  induction ms as [|m ms IH]; intros st Htok; simpl.
  - right. eexists. split; [reflexivity|]. now destruct (results st).
  - inversion_clear Htok as [|? ? Hm Hms].
    pose proof (step_cases m st Hm) as Hstep.
    destruct (inNot st && (is_not m || is_comma m)).
    + rewrite Hstep. left. simpl. eauto.
    + destruct Hstep as (st' & -> & _). simpl. now apply IH.
Qed.

End ThrowFacts.

(** C6: [parse] throws exactly when the scan meets a [:not(] or a comma
    while a negated group is open, the nesting error for the first and the
    error of several selectors for the second; on every other string,
    whatever characters it holds, it returns a list of selectors that is
    not empty. *)
Theorem parse_throws_exactly_in_open_group :
  forall s : string,
    (forall e : exn,
        parse s = Throw e ->
        exists seen m rest,
          scan s = seen ++ m :: rest /\ group_open seen = true
          /\ ((is_not m = true /\ e = nesting_error)
              \/ (is_comma m = true /\ e = multiple_error)))
    /\ (offends (scan s) -> exists e, parse s = Throw e)
    /\ (~ offends (scan s) ->
        exists sels, parse s = Ok sels /\ sels <> []).
Proof.
  intros s. rewrite parse_run. pose proof (scan_tokens s) as Htok.
  split; [|split].
  - intros e He. now apply (run_throw _ init e Htok).
  - intros (seen & m & rest & Hms & Hopen & Hkind).
    now apply (run_offends _ init seen m rest).
  - intros Hnone. destruct (run_returns _ init Htok) as [[e He]|Hok];
      [|exact Hok].
    exfalso. apply Hnone.
    destruct (run_throw _ init e Htok He)
      as (seen & m & rest & Hms & Hopen & Hkind).
    exists seen, m, rest. repeat split; try assumption.
    destruct Hkind as [[H _]|[H _]]; auto.
Qed.

(** Use of C6: [:not(a,b)] throws, [a$$b] returns. *)
Lemma parse_throws_exactly_in_open_group_witness :
  (exists e, parse ":not(a,b)" = Throw e)
  /\ (exists sels, parse "a$$b" = Ok sels /\ sels <> []).
Proof.
  split.
  - apply (proj1 (proj2 (parse_throws_exactly_in_open_group ":not(a,b)"))).
    eexists [_; _], _, _. split; [reflexivity|]. split; [reflexivity|].
    right. reflexivity.
  - apply (proj2 (proj2 (parse_throws_exactly_in_open_group "a$$b"))).
    intros (seen & m & rest & Hms & Hopen & Hkind).
    vm_compute in Hms.
    destruct seen as [|m1 [|m2 [|m3 seen]]]; simpl in Hms;
      try discriminate Hms; injection Hms as <- <-; discriminate Hopen.
Defined.

(** ** The text of a selector *)

Section TextFacts.

Local Open Scope string_scope.
Local Arguments String.append !s1 s2 : simpl nomatch.

Lemma classes_fold (classNames : list string) :
  forall res k : string,
    fold_left (fun res klass => res ++ "." ++ klass) classNames res ++ k
    = res ++ classes_k classNames k.
Proof.
  induction classNames as [|c cs IH]; intros res k; simpl; [reflexivity|].
  rewrite IH, !append_assoc. reflexivity.
Qed.

Lemma attrs_text_pairs (attrs : list string) :
  forall res k : string,
    attr_pairs attrs -> attrs_text attrs res ++ k = res ++ pairs_k attrs k.
Proof.
  induction attrs as [|x|name value attrs IH] using pair_induction;
    intros res k; simpl; [reflexivity|intros []|].
  intros (_ & _ & Hattrs).
  rewrite (IH _ _ Hattrs), !append_assoc. simpl. unfold value_k.
  destruct value; repeat (simpl; rewrite ?append_assoc); reflexivity.
Qed.

Lemma toString_simple (n : t) (k : string) :
  simple n ->
  toString n ++ k = positive_k (element n) (classNames n) (attrs n) k.
Proof.
  destruct n as [e cs a ns]. intros (_ & _ & Ha & Hn). simpl in *. subst ns.
  simpl. unfold positive_k.
  rewrite (attrs_text_pairs _ _ _ Ha), classes_fold. reflexivity.
Qed.

Lemma nots_fold (notSelectors : list t) :
  forall res k : string,
    Forall simple notSelectors ->
    fold_left (fun res notSelector =>
                 res ++ ":not(" ++ toString notSelector ++ ")")
              notSelectors res ++ k
    = res ++ nots_k notSelectors k.
Proof.
  induction notSelectors as [|n ns IH]; intros res k Hns; simpl;
    [reflexivity|].
  inversion_clear Hns as [|? ? Hn Hrest].
  rewrite (IH _ _ Hrest), !append_assoc. simpl.
  now rewrite append_assoc, (toString_simple n _ Hn).
Qed.

(** The text of a selector that [parse] built. *)
Lemma toString_text (sel : t) (k : string) :
  parsed sel -> toString sel ++ k = text_k sel k.
Proof.
  destruct sel as [e cs a ns]. intros (_ & _ & Ha & Hn). simpl in *.
  unfold text_k, positive_k. simpl.
  rewrite (nots_fold _ _ _ Hn), (attrs_text_pairs _ _ _ Ha), classes_fold.
  reflexivity.
Qed.

End TextFacts.

(** ** Reading the text of a selector again *)

Section ReparseFacts.

Local Open Scope string_scope.
Local Arguments String.append !s1 s2 : simpl nomatch.

Lemma tag_char_not_colon (c : ascii) :
  is_tag_char c = true -> Ascii.eqb ":" c = false.
Proof. destruct c as [[] [] [] [] [] [] [] []]; now vm_compute. Qed.

Lemma tag_char_no_prefix (c : ascii) :
  is_tag_char c = true -> Ascii.eqb c "." || Ascii.eqb c "#" = false.
Proof. destruct c as [[] [] [] [] [] [] [] []]; now vm_compute. Qed.

Lemma value_char_no_quote (c : ascii) :
  is_value_char c = true -> is_quote c = false.
Proof. destruct c as [[] [] [] [] [] [] [] []]; now vm_compute. Qed.

Lemma exec_here (s : string) (r : RegExpMatch * string) :
  match_here s = Some r -> exec s = Some r.
Proof. intros H. destruct s; cbn [exec]; now rewrite H. Qed.

Lemma exec_not (rest : string) :
  exec (":not(" ++ rest) = Some (not_match, rest).
Proof.
  apply exec_here. unfold match_here, alt_not.
  now rewrite strip_prefix_append.
Qed.

Lemma exec_close (rest : string) :
  exec (")" ++ rest) = Some (close_match, rest).
Proof. reflexivity. Qed.

Lemma exec_element (e rest : string) :
  tag_word e -> stops is_tag_char rest ->
  exec (e ++ rest) = Some (tag_match "" e, rest).
Proof.
  intros [Hne He] Hrest. destruct e as [|c w]; [congruence|].
  pose proof He as Hcw. simpl in Hcw. apply andb_true_iff in Hcw as [Hc Hw].
  apply exec_here. unfold match_here.
  assert (Hnot : alt_not (String c w ++ rest) = None).
  { unfold alt_not.
    change (String c w ++ rest) with (String c (w ++ rest)).
    cbn [strip_prefix]. now rewrite (tag_char_not_colon c Hc). }
  rewrite Hnot. unfold alt_tag.
  change (String c w ++ rest) with (String c (w ++ rest)).
  cbv iota beta. rewrite (tag_char_no_prefix c Hc).
  change (String c (w ++ rest)) with (String c w ++ rest).
  rewrite (span_append is_tag_char (String c w) rest He Hrest).
  reflexivity.
Qed.

Lemma alt_tag_prefixed (p : ascii) (s1 : string) :
  Ascii.eqb p "." || Ascii.eqb p "#" = true ->
  alt_tag (String p s1)
  = match span is_tag_char s1 with
    | ("", _) => None
    | (w, r) => Some (tag_match (String p "") w, r)
    end.
Proof. intros H. unfold alt_tag. cbv iota beta. now rewrite H. Qed.

Lemma exec_class (c rest : string) :
  tag_word c -> stops is_tag_char rest ->
  exec ("." ++ c ++ rest) = Some (tag_match "." c, rest).
Proof.
  intros [Hne Hc] Hrest. destruct c as [|a w]; [congruence|].
  apply exec_here. unfold match_here.
  change (alt_not ("." ++ String a w ++ rest)) with (@None (RegExpMatch * string)).
  change ("." ++ String a w ++ rest) with (String "." (String a w ++ rest)).
  rewrite alt_tag_prefixed by reflexivity.
  rewrite (span_append is_tag_char (String a w) rest Hc Hrest).
  reflexivity.
Qed.

Lemma exec_attr (name value rest : string) :
  attr_name name -> all_chars is_value_char value = true ->
  exists quote v,
    exec ("[" ++ name ++ value_k value rest)
    = Some (attr_match name quote v, rest)
    /\ or_empty v = value.
Proof.
  intros [Hne Hname] Hvalue. destruct name as [|a n]; [congruence|].
  assert (Htail : stops is_attr_char (value_k value rest)).
  { unfold value_k. destruct value; reflexivity. }
  assert (Hhere : forall r,
             alt_attr_tail (String a n) (value_k value rest) = Some r ->
             exec ("[" ++ String a n ++ value_k value rest) = Some r).
  { intros r Hr. apply exec_here. unfold match_here.
    change (alt_not ("[" ++ String a n ++ value_k value rest))
      with (@None (RegExpMatch * string)).
    change (alt_tag ("[" ++ String a n ++ value_k value rest))
      with (@None (RegExpMatch * string)).
    unfold alt_attr.
    change ("[" ++ String a n ++ value_k value rest)
      with (String "[" (String a n ++ value_k value rest)).
    cbn [Ascii.eqb Bool.eqb]. cbv iota beta.
    rewrite (span_append is_attr_char (String a n) _ Hname Htail).
    now rewrite Hr. }
  unfold value_k in *. destruct value as [|q v]; simpl truthy in *;
    cbv iota in *.
  - exists None, None. split; [|reflexivity]. apply Hhere. reflexivity.
  - exists (Some ""), (Some (String q v)). split; [|reflexivity].
    apply Hhere. unfold alt_attr_tail.
    change ("=" ++ String q v ++ "]" ++ rest)
      with (String "=" (String q (v ++ "]" ++ rest))).
    cbn [Ascii.eqb Bool.eqb]. cbv iota beta.
    pose proof Hvalue as Hqv. simpl in Hqv.
    apply andb_true_iff in Hqv as [Hq Hv].
    rewrite (value_char_no_quote q Hq).
    change (String q (v ++ "]" ++ rest)) with (String q v ++ "]" ++ rest).
    rewrite (span_append is_value_char (String q v) ("]" ++ rest) Hvalue);
      [reflexivity|reflexivity].
Qed.

Local Arguments String.append : simpl never.

Lemma update_last_ext (f g : t -> t) (l : list t) :
  (forall x, f x = g x) -> update_last f l = update_last g l.
Proof.
  intros H. induction l as [|x l IH]; [reflexivity|].
  simpl. destruct l; [now rewrite H|now rewrite IH].
Qed.

Lemma update_last_snoc (f : t -> t) (l : list t) (x : t) :
  update_last f (l ++ [x])%list = (l ++ [f x])%list.
Proof.
  induction l as [|y l IH]; [reflexivity|].
  simpl. rewrite IH. now destruct l.
Qed.

Lemma update_last_compose (f g : t -> t) (l : list t) :
  update_last g (update_last f l) = update_last (fun x => g (f x)) l.
Proof.
  induction l as [|x l IH] using rev_ind; [reflexivity|].
  now rewrite !update_last_snoc.
Qed.

Lemma update_last_id (f : t -> t) (l : list t) :
  (forall x, f x = x) -> update_last f l = l.
Proof.
  intros H. induction l as [|x l IH]; [reflexivity|].
  simpl. destruct l; [now rewrite H|now rewrite IH].
Qed.

Lemma on_current_ext (f g : t -> t) (st : ParseState) :
  (forall x, f x = g x) -> on_current f st = on_current g st.
Proof.
  intros H. unfold on_current. destruct (current st).
  - now rewrite H.
  - now rewrite (update_last_ext f g _ H).
Qed.

Lemma on_current_compose (f g : t -> t) (st : ParseState) :
  on_current g (on_current f st) = on_current (fun x => g (f x)) st.
Proof.
  unfold on_current. destruct (current st); simpl; [reflexivity|].
  now rewrite update_last_compose.
Qed.

Lemma on_current_id (f : t -> t) (st : ParseState) :
  (forall x, f x = x) -> on_current f st = st.
Proof.
  intros H. unfold on_current. destruct st as [r c cur n].
  destruct cur; simpl.
  - now rewrite H.
  - rewrite (update_last_id f _ H). now destruct c.
Qed.

Lemma grow_nothing (sel : t) : grow None [] [] sel = sel.
Proof. destruct sel. unfold grow. simpl. now rewrite !app_nil_r. Qed.

Lemma stops_classes_k (classNames : list string) (k : string) :
  stops is_tag_char k -> stops is_tag_char (classes_k classNames k).
Proof. destruct classNames; [easy|reflexivity]. Qed.

Lemma stops_pairs_k (attrs : list string) (k : string) :
  stops is_tag_char k -> stops is_tag_char (pairs_k attrs k).
Proof. destruct attrs as [|? [|? ?]]; [easy|reflexivity|reflexivity]. Qed.

Lemma stops_nots_k (notSelectors : list t) (k : string) :
  stops is_tag_char k -> stops is_tag_char (nots_k notSelectors k).
Proof. destruct notSelectors; [easy|reflexivity]. Qed.

Lemma parse_from_element (e : option string) (rest : string)
    (st : ParseState) :
  element_word e -> stops is_tag_char rest ->
  parse_from (or_empty e ++ rest) st
  = parse_from rest (on_current (grow e [] []) st).
Proof.
  intros He Hrest. destruct e as [w|]; simpl in *.
  - rewrite parse_from_unfold, (exec_element w rest He Hrest).
    destruct He as [Hne _]. destruct w as [|c w]; [congruence|].
    simpl. f_equal. apply on_current_ext. intros [e' cs a ns].
    unfold setElement, grow. simpl. now rewrite !app_nil_r.
  - now rewrite (on_current_id _ st grow_nothing).
Qed.

Lemma parse_from_classes (classNames : list string) (rest : string) :
  forall st : ParseState,
    Forall class_name classNames -> stops is_tag_char rest ->
    parse_from (classes_k classNames rest) st
    = parse_from rest (on_current (grow None classNames []) st).
Proof.
  induction classNames as [|c cs IH]; intros st Hcs Hrest; simpl.
  - now rewrite (on_current_id _ st grow_nothing).
  - inversion_clear Hcs as [|? ? [Hc Hlower] Hrest'].
    rewrite parse_from_unfold,
      (exec_class c _ Hc (stops_classes_k cs rest Hrest)).
    destruct Hc as [Hne _]. destruct c as [|a w]; [congruence|].
    simpl. rewrite (IH _ Hrest' Hrest), on_current_compose. f_equal.
    apply on_current_ext. intros [e' cs' a' ns].
    unfold addClassName, grow. simpl.
    rewrite Hlower, !app_nil_r, <- app_assoc. reflexivity.
Qed.

Lemma parse_from_pairs (attrs : list string) (rest : string) :
  forall st : ParseState,
    attr_pairs attrs ->
    parse_from (pairs_k attrs rest) st
    = parse_from rest (on_current (grow None [] attrs) st).
Proof.
  induction attrs as [|x|name value attrs IH] using pair_induction;
    intros st; simpl.
  - intros _. now rewrite (on_current_id _ st grow_nothing).
  - intros [].
  - intros (Hname & [Hvalue Hlower] & Hattrs).
    destruct (exec_attr name value (pairs_k attrs rest) Hname Hvalue)
      as (quote & v & Hexec & Hv).
    rewrite parse_from_unfold, Hexec.
    destruct Hname as [Hne _]. destruct name as [|a n]; [congruence|].
    simpl. rewrite (IH _ Hattrs), on_current_compose, Hv. f_equal.
    apply on_current_ext. intros [e' cs' a' ns].
    unfold addAttribute, grow. simpl.
    rewrite Hlower, !app_nil_r, <- app_assoc. reflexivity.
Qed.

Lemma parse_from_positive (e : option string) (classNames attrs : list string)
    (rest : string) (st : ParseState) :
  element_word e -> Forall class_name classNames -> attr_pairs attrs ->
  stops is_tag_char rest ->
  parse_from (positive_k e classNames attrs rest) st
  = parse_from rest (on_current (grow e classNames attrs) st).
Proof.
  intros He Hcs Ha Hrest. unfold positive_k.
  rewrite parse_from_element, parse_from_classes, parse_from_pairs;
    auto using stops_classes_k, stops_pairs_k.
  rewrite !on_current_compose. f_equal. apply on_current_ext.
  intros [e' cs' a' ns]. unfold grow. simpl.
  rewrite !app_nil_r. now destruct e.
Qed.

Lemma parse_from_nots (notSelectors : list t) (rest : string) :
  forall (res : list t) (e : option string) (classNames attrs : list string)
         (seen : list t),
    Forall simple notSelectors ->
    parse_from (nots_k notSelectors rest)
      {| results := res; cssSelector := Build e classNames attrs seen;
         current := CurSelector; inNot := false |}
    = parse_from rest
        {| results := res;
           cssSelector := Build e classNames attrs (seen ++ notSelectors);
           current := CurSelector; inNot := false |}.
Proof.
  induction notSelectors as [|n ns IH]; intros res e cs a seen Hns; simpl.
  - now rewrite app_nil_r.
  - inversion_clear Hns as [|? ? Hn Hrest].
    destruct n as [e' cs' a' ns'].
    destruct Hn as (He' & Hcs' & Ha' & Hns'). simpl in *. subst ns'.
    rewrite parse_from_unfold, exec_not. simpl.
    rewrite parse_from_positive by (auto; reflexivity).
    rewrite parse_from_unfold, exec_close. unfold on_current. simpl.
    rewrite update_last_snoc.
    replace (grow e' cs' a' new) with (Build e' cs' a' [])
      by (unfold grow; simpl; now destruct e').
    rewrite (IH res e cs a (seen ++ [Build e' cs' a' []])%list Hrest).
    now rewrite <- app_assoc.
Qed.

(** A selector that [parse] built is read again from its text. *)
Lemma parse_toString (sel : t) :
  parsed sel -> parse (toString sel) = Ok [sel].
Proof.
  intros Hsel. change (parse (toString sel)) with
    (parse_from (toString sel) init).
  rewrite <- (append_empty_r (toString sel)), (toString_text sel "" Hsel).
  destruct sel as [e cs a ns]. destruct Hsel as (He & Hcs & Ha & Hns).
  unfold text_k. simpl in *.
  rewrite parse_from_positive by (auto; now apply stops_nots_k).
  unfold on_current, init. simpl.
  replace (grow e cs a new) with (Build e cs a [])
    by (unfold grow; simpl; now destruct e).
  rewrite (parse_from_nots ns "" [] e cs a [] Hns).
  rewrite parse_from_unfold. reflexivity.
Qed.

End ReparseFacts.

(** C7: when [parse] accepts a string, the text [toString] gives for each
    selector it returned is parsed again to that selector, and to it
    alone. *)
Theorem parse_toString_parse :
  forall (s : string) (sels : list t),
    parse s = Ok sels ->
    forall sel : t, In sel sels -> parse (toString sel) = Ok [sel].
Proof.
  intros s sels Hparse sel Hin. apply parse_toString.
  apply parse_parsed in Hparse. rewrite Forall_forall in Hparse.
  now apply Hparse.
Qed.

(** Use of C7 on [DIV.Big[Foo='Bar baz']:not(.Q#x), span]. *)
Lemma parse_toString_parse_witness :
  parse (toString
           (Build (Some "DIV") ["big"] ["Foo"; "bar baz"]
                  [Build None ["q"] ["id"; "x"] []]))
  = Ok [Build (Some "DIV") ["big"] ["Foo"; "bar baz"]
              [Build None ["q"] ["id"; "x"] []]].
Proof.
  apply (parse_toString_parse "DIV.Big[Foo='Bar baz']:not(.Q#x), span"
           [Build (Some "DIV") ["big"] ["Foo"; "bar baz"]
                  [Build None ["q"] ["id"; "x"] []];
            Build (Some "span") [] [] []]).
  - reflexivity.
  - left. reflexivity.
Defined.

(** * Further properties of the code *)

Import Match.

(** ** The traversal visits the nodes of the source order *)

Section OrderFacts.

Lemma source_order_app (a b : list TmplAstNode) :
  source_order (a ++ b) = source_order a ++ source_order b.
Proof.
  induction a as [|n a IH]; simpl; [reflexivity|].
  now rewrite IH, app_assoc.
Qed.

Lemma source_node_unfold (node : TmplAstNode) :
  source_node node = node :: source_order (pushed node).
Proof.
  destruct node as [ | | | | | | | | | |bs ?| |? cs ?| | | | | ];
    try reflexivity; simpl; f_equal.
  - induction bs as [|[e c] bs IH]; simpl; [reflexivity|].
    rewrite source_order_app. f_equal. exact IH.
  - induction cs as [|[e c s] cs IH]; simpl; [reflexivity|].
    rewrite source_order_app. f_equal. exact IH.
Qed.

Lemma node_count_pos (n : TmplAstNode) : 0 < node_count n.
Proof. destruct n; simpl; lia. Qed.

Lemma visit_order_permutation_bounded (k : nat) :
  forall l : list TmplAstNode,
    nodes_count l <= k -> Permutation (visit_order l) (source_order l).
Proof.
  induction k as [|k IH]; intros [|n r] Hk; simpl in *; try constructor.
  - pose proof (node_count_pos n). lia.
  - pose proof (node_count_pos n). pose proof (pushed_count n).
    rewrite visit_node_unfold, source_node_unfold. simpl.
    symmetry. apply Permutation_cons_app.
    rewrite Permutation_app_comm.
    apply Permutation_app; symmetry; apply IH; lia.
Qed.

Lemma visit_order_permutation (l : list TmplAstNode) :
  Permutation (visit_order l) (source_order l).
Proof. now apply (visit_order_permutation_bounded (nodes_count l)). Qed.

Lemma visited_ok (nodes seen : list TmplAstNode) :
  visited nodes = Ok seen ->
  seen = visit_order nodes
  /\ existsb is_stray_case (visit_order nodes) = false.
Proof.
  rewrite visited_spec.
  destruct (existsb is_stray_case (visit_order nodes)); [discriminate|].
  now intros [= <-].
Qed.

End OrderFacts.

(** X1: what the traversal hands to a visitor is a rearrangement of the
    nodes of the source order: the same nodes, each as often, and so as
    many; only their order differs. *)
Theorem traverseNodes_visits_the_nodes_of_source_order :
  forall nodes seen : list TmplAstNode,
    visited nodes = Ok seen ->
    Permutation seen (source_order nodes)
    /\ length seen = length (source_order nodes)
    /\ forall n, In n seen <-> In n (source_order nodes).
Proof.
  intros nodes seen [-> _]%visited_ok.
  pose proof (visit_order_permutation nodes) as H.
  split; [exact H|]. split; [now apply Permutation_length|].
  intros n. split; apply Permutation_in; [|symmetry]; exact H.
Qed.

Lemma traverseNodes_visits_the_nodes_of_source_order_witness :
  Permutation [Sample.element_b; Sample.element_i]
              (source_order Sample.two_siblings)
  /\ length [Sample.element_b; Sample.element_i]
     = length (source_order Sample.two_siblings)
  /\ forall n, In n [Sample.element_b; Sample.element_i]
               <-> In n (source_order Sample.two_siblings).
Proof.
  apply (traverseNodes_visits_the_nodes_of_source_order Sample.two_siblings).
  reflexivity.
Defined.

(** ** The queries as filters of the visited nodes *)

Section FindFacts.

Lemma matchesSelector_elementInfo (n : TmplAstNode) (selector : string) :
  is_element n = true ->
  matchesSelector n selector
  = (selectors ← parse selector;
     Ok (existsb (fun cssSelector => matches cssSelector (elementInfo n))
                 selectors)).
Proof. destruct n; try discriminate. reflexivity. Qed.

Lemma fold_left_filter {A : Type} (p : A -> bool) (l : list A) :
  forall acc : list A,
    fold_left (fun acc x => if p x then acc ++ [x] else acc) l acc
    = acc ++ filter p l.
Proof.
  induction l as [|x l IH]; intros acc; simpl.
  - now rewrite app_nil_r.
  - rewrite IH. destruct (p x); [|reflexivity].
    now rewrite <- app_assoc.
Qed.

(** With a selector that [parse] accepts, [findElements] keeps the
    visited elements that one of the selectors matches. *)
Lemma findElements_with (selector : string) (sels : list CssSelector.t)
    (nodes : list TmplAstNode) :
  parse selector = Ok sels ->
  findElements selector nodes
  = (_ ← visited nodes;
     Ok (filter (fun n =>
                   is_element n
                   && existsb (fun cssSelector =>
                                 matches cssSelector (elementInfo n)) sels)
                (visit_order nodes))).
Proof.
  intros Hsels. unfold findElements.
  rewrite (traverseNodes_pure _
             (fun n elements =>
                if is_element n
                   && existsb (fun cssSelector =>
                                 matches cssSelector (elementInfo n)) sels
                then elements ++ [n] else elements)).
  - now rewrite fold_left_filter.
  - intros n st. destruct (is_element n) eqn:Hn; [|reflexivity].
    rewrite (matchesSelector_elementInfo _ _ Hn), Hsels. reflexivity.
Qed.

Lemma visited_bind {A : Type} (nodes : list TmplAstNode)
    (f : list TmplAstNode -> A) :
  (seen ← visited nodes; Ok (f seen))
  = (_ ← visited nodes; Ok (f (visit_order nodes))).
Proof.
  rewrite visited_spec.
  now destruct (existsb is_stray_case (visit_order nodes)).
Qed.

End FindFacts.

(** X2: with a selector the parser accepts, [findElements] returns the
    visited elements that one of the comma-separated selectors matches,
    in the order of the visit, and fails only where the traversal
    does. *)
Theorem findElements_keeps_the_matching_elements :
  forall (selector : string) (sels : list CssSelector.t)
         (nodes : list TmplAstNode),
    parse selector = Ok sels ->
    findElements selector nodes
    = (seen ← visited nodes;
       Ok (filter (fun n =>
                     is_element n
                     && existsb (fun cssSelector =>
                                   matches cssSelector (elementInfo n)) sels)
                  seen)).
Proof.
  intros selector sels nodes Hsels.
  rewrite (findElements_with _ _ _ Hsels). symmetry.
  apply (visited_bind nodes
           (filter (fun n =>
                      is_element n
                      && existsb (fun cssSelector =>
                                    matches cssSelector (elementInfo n))
                                 sels))).
Qed.

Lemma findElements_keeps_the_matching_elements_witness :
  findElements "b, .x" Sample.two_siblings
  = (seen ← visited Sample.two_siblings;
     Ok (filter (fun n =>
                   is_element n
                   && existsb (fun cssSelector =>
                                 matches cssSelector (elementInfo n))
                              [Build (Some "b") [] [] [];
                               Build None ["x"] [] []])
                seen)).
Proof.
  apply (findElements_keeps_the_matching_elements "b, .x"). reflexivity.
Defined.

(** X3: a selector the parser rejects makes [findElements] throw the
    parser's error when the traversal comes to an element, and only
    then: on nodes among which no element is visited the call returns
    the empty array. *)
Theorem findElements_throws_at_the_first_element :
  forall (selector : string) (e : exn) (nodes seen : list TmplAstNode),
    parse selector = Throw e ->
    visited nodes = Ok seen ->
    findElements selector nodes
    = if existsb is_element seen then Throw e else Ok [].
Proof.
  intros selector e nodes seen He [-> Hstray]%visited_ok.
  unfold findElements. rewrite traverseNodes_spec.
  generalize (@nil TmplAstNode) as acc.
  induction (visit_order nodes) as [|n l IH]; intros acc;
    cbn [visit_all existsb]; [reflexivity|].
  cbn [existsb] in Hstray. apply orb_false_elim in Hstray as [Hn Hl].
  destruct (is_element n) eqn:Hel.
  - unfold matchesSelector. rewrite He. reflexivity.
  - rewrite push_children_spec. simpl.
    destruct n; try discriminate; simpl; now apply IH.
Qed.

Lemma findElements_throws_at_the_first_element_witness :
  findElements ":not(:not(a))" [TmplAstText "x"]
  = (if existsb is_element [TmplAstText "x"]
     then Throw nesting_error else Ok [])
  /\ findElements ":not(:not(a))" Sample.two_siblings
     = if existsb is_element [Sample.element_b; Sample.element_i]
       then Throw nesting_error else Ok [].
Proof.
  split;
    apply (findElements_throws_at_the_first_element ":not(:not(a))");
    reflexivity.
Defined.

Section SelectFacts.

Lemma matches_new (e : ElementInfo) : matches new e = true.
Proof. reflexivity. Qed.

Lemma filter_pointwise {A : Type} (p q : A -> bool) (l : list A) :
  (forall x, In x l -> p x = q x) -> filter p l = filter q l.
Proof.
  induction l as [|x l IH]; intros H; simpl; [reflexivity|].
  rewrite (H x) by now left.
  rewrite IH; [reflexivity|]. intros y Hy. apply H. now right.
Qed.

(** The test [matches] makes of the element name alone. *)
Lemma matches_element_only (w name : string)
    (attributes : list TextAttribute) (inputs : list BoundAttribute)
    (outputs : list BoundEvent) (children : list TmplAstNode)
    (sourceSpan : ParseSourceSpan) :
  w <> "" ->
  matches (Build (Some w) [] [] [])
          (elementInfo
             (TmplAstElement name attributes inputs outputs children
                             sourceSpan))
  = String.eqb (toLowerCase w) (toLowerCase name).
Proof.
  intros Hw. destruct w as [|c w]; [congruence|].
  destruct name as [|d name]; [reflexivity|].
  cbn -[String.eqb toLowerCase].
  now destruct (String.eqb _ _).
Qed.

End SelectFacts.

(** X4: a selector in which the scan finds no token (the empty string,
    [*], a lone combinator) is read as the selector without requirement,
    and [findElements] returns every element the traversal visits. *)
Theorem findElements_without_token_returns_every_element :
  forall (selector : string) (nodes : list TmplAstNode),
    scan selector = [] ->
    parse selector = Ok [new]
    /\ findElements selector nodes
       = (seen ← visited nodes; Ok (filter is_element seen)).
Proof.
  intros selector nodes Hscan.
  assert (Hparse : parse selector = Ok [new])
    by (rewrite parse_run, Hscan; reflexivity).
  split; [exact Hparse|].
  rewrite (findElements_with _ _ _ Hparse).
  rewrite (visited_bind nodes (filter is_element)).
  rewrite (filter_pointwise _ is_element (visit_order nodes)); [reflexivity|].
  intros n _. cbn [existsb]. rewrite matches_new.
  now destruct (is_element n).
Qed.

Lemma findElements_without_token_returns_every_element_witness :
  (parse "" = Ok [new]
   /\ findElements "" Sample.two_siblings
      = (seen ← visited Sample.two_siblings; Ok (filter is_element seen)))
  /\ (parse "* > *" = Ok [new]
      /\ findElements "* > *" [Sample.button_save]
         = (seen ← visited [Sample.button_save];
            Ok (filter is_element seen))).
Proof.
  split; apply findElements_without_token_returns_every_element;
    reflexivity.
Defined.

(** X5: with a bare tag name for a selector, [findElements] returns the
    visited elements of that name, the case of the letters apart. *)
Theorem findElements_by_tag_name :
  forall (w : string) (nodes : list TmplAstNode),
    tag_word w ->
    findElements w nodes
    = (seen ← visited nodes;
       Ok (filter (fun n =>
                     match n with
                     | TmplAstElement name _ _ _ _ _ =>
                         String.eqb (toLowerCase w) (toLowerCase name)
                     | _ => false
                     end) seen)).
Proof.
  intros w nodes Hw.
  assert (Hparse : parse w = Ok [Build (Some w) [] [] []]).
  { apply (parse_toString (Build (Some w) [] [] [])).
    repeat split; simpl; try constructor; apply Hw. }
  rewrite (findElements_with _ _ _ Hparse).
  rewrite (visited_bind nodes
             (filter (fun n =>
                        match n with
                        | TmplAstElement name _ _ _ _ _ =>
                            String.eqb (toLowerCase w) (toLowerCase name)
                        | _ => false
                        end))).
  match goal with
  | |- context [Ok (filter ?p (visit_order nodes))] =>
      match goal with
      | |- _ = mbind (fun _ => Ok (filter ?q _)) _ =>
          rewrite (filter_pointwise p q (visit_order nodes)); [reflexivity|]
      end
  end.
  intros n _. destruct n; try reflexivity.
  cbn [existsb]. rewrite matches_element_only by apply Hw.
  now rewrite orb_false_r.
Qed.

Lemma findElements_by_tag_name_witness :
  findElements "B" Sample.two_siblings
  = (seen ← visited Sample.two_siblings;
     Ok (filter (fun n =>
                   match n with
                   | TmplAstElement name _ _ _ _ _ =>
                       String.eqb (toLowerCase "B") (toLowerCase name)
                   | _ => false
                   end) seen)).
Proof.
  apply (findElements_by_tag_name "B"). split; [discriminate|reflexivity].
Defined.

(** X6: [findPropertyBindings] and [findEventBindings] return, in the
    order of the visit, the inputs and the outputs of the visited elements
    whose name is the one asked for, letter for letter; the bindings of an
    [ng-template] are not looked at. *)
Theorem find_bindings_by_name :
  forall (name : string) (nodes : list TmplAstNode),
    findPropertyBindings name nodes
    = (seen ← visited nodes;
       Ok (flat_map
             (fun n =>
                match n with
                | TmplAstElement _ _ inputs _ _ _ =>
                    filter (fun input => String.eqb (input_name input) name)
                           inputs
                | _ => []
                end) seen))
    /\ findEventBindings name nodes
       = (seen ← visited nodes;
          Ok (flat_map
                (fun n =>
                   match n with
                   | TmplAstElement _ _ _ outputs _ _ =>
                       filter (fun output =>
                                 String.eqb (output_name output) name)
                              outputs
                   | _ => []
                   end) seen))
    /\ (forall found,
           findPropertyBindings name nodes = Ok found ->
           Forall (fun input => input_name input = name) found)
    /\ (forall found,
           findEventBindings name nodes = Ok found ->
           Forall (fun output => output_name output = name) found).
Proof.
  intros name nodes.
  set (ins := fun n =>
                match n with
                | TmplAstElement _ _ inputs _ _ _ =>
                    filter (fun input => String.eqb (input_name input) name)
                           inputs
                | _ => []
                end).
  set (outs := fun n =>
                 match n with
                 | TmplAstElement _ _ _ outputs _ _ =>
                     filter (fun output =>
                               String.eqb (output_name output) name)
                            outputs
                 | _ => []
                 end).
  assert (Hins : findPropertyBindings name nodes
                 = (seen ← visited nodes; Ok (flat_map ins seen))).
  { rewrite (visited_bind nodes (flat_map ins)). unfold findPropertyBindings.
    rewrite (traverseNodes_pure _ (fun n bindings => bindings ++ ins n)).
    - now rewrite fold_left_append.
    - intros n st. destruct n; try reflexivity; simpl;
        now rewrite app_nil_r. }
  assert (Houts : findEventBindings name nodes
                  = (seen ← visited nodes; Ok (flat_map outs seen))).
  { rewrite (visited_bind nodes (flat_map outs)). unfold findEventBindings.
    rewrite (traverseNodes_pure _ (fun n bindings => bindings ++ outs n)).
    - now rewrite fold_left_append.
    - intros n st. destruct n; try reflexivity; simpl;
        now rewrite app_nil_r. }
  split; [exact Hins|]. split; [exact Houts|]. split; intros found.
  - rewrite Hins. destruct (visited nodes) as [seen| |]; try discriminate.
    intros [= <-]. apply List.Forall_forall. intros b Hb.
    apply in_flat_map in Hb as (n & _ & Hb).
    destruct n; try contradiction. simpl in Hb.
    apply filter_In in Hb as [_ Hb]. now apply String.eqb_eq.
  - rewrite Houts. destruct (visited nodes) as [seen| |]; try discriminate.
    intros [= <-]. apply List.Forall_forall. intros b Hb.
    apply in_flat_map in Hb as (n & _ & Hb).
    destruct n; try contradiction. simpl in Hb.
    apply filter_In in Hb as [_ Hb]. now apply String.eqb_eq.
Qed.

(** X7: [findInterpolations] returns the visited nodes of the class
    [BoundText], in the order of the visit. *)
Theorem findInterpolations_keeps_the_bound_texts :
  forall nodes : list TmplAstNode,
    findInterpolations nodes
    = (seen ← visited nodes;
       Ok (filter (fun n =>
                     match n with
                     | TmplAstBoundText _ => true
                     | _ => false
                     end) seen)).
Proof.
  intros nodes.
  rewrite (visited_bind nodes
             (filter (fun n =>
                        match n with
                        | TmplAstBoundText _ => true
                        | _ => false
                        end))).
  unfold findInterpolations.
  rewrite (traverseNodes_pure _
             (fun n found =>
                if match n with
                   | TmplAstBoundText _ => true
                   | _ => false
                   end
                then found ++ [n] else found)).
  - now rewrite fold_left_filter.
  - intros n st. now destruct n.
Qed.

(** X8: [getPropertyBindings] gives, for the elements the traversal
    visits and in the order it visits them, one record for each input
    whose value is an [ASTWithSource], and none for another input.  The
    record carries the name and the span of its input, the text
    [toString] gives for the value, whether the expression is a literal,
    and the names [traverseAST] collects: those of the reads of the
    implicit receiver that the walk reaches from the expression through
    the arguments and the receiver of a call and the receiver of a
    property read.  A read under another expression class, as the
    operands of [m + n], is not among them, and a literal references no
    property. *)
Theorem getPropertyBindings_records :
  forall (ast_toString : AST -> string),
    (forall nodes : list TmplAstNode,
        getPropertyBindings ast_toString nodes
        = (seen ← visited nodes;
           Ok (flat_map
                 (fun n =>
                    match n with
                    | TmplAstElement _ _ inputs _ _ _ =>
                        omap (analyzePropertyBinding ast_toString) inputs
                    | _ => []
                    end) seen)))
    /\ (forall binding : BoundAttribute,
          analyzePropertyBinding ast_toString binding
          = match input_value binding with
            | ASTWithSource expression _ _ =>
                Some {| binding_name := input_name binding;
                        binding_value := ast_toString (input_value binding);
                        binding_isLiteral :=
                          match expression with
                          | LiteralPrimitive _ => true
                          | _ => false
                          end;
                        binding_referencedProperties :=
                          dependencies expression;
                        binding_sourceSpan := input_sourceSpan binding |}
            | _ => None
            end)
    /\ (forall (expression : AST) (name : string),
          In name (dependencies expression)
          <-> exists receiver,
                walked expression (PropertyRead receiver name)
                /\ instanceof_ImplicitReceiver receiver = true)
    /\ (forall operands : list AST, dependencies (OtherAST operands) = [])
    /\ (forall value : string, dependencies (LiteralPrimitive value) = []).
Proof.
  intros ast_toString. split; [|split; [|split; [|split]]].
  - intros nodes.
    set (records := fun n =>
                      match n with
                      | TmplAstElement _ _ inputs _ _ _ =>
                          omap (analyzePropertyBinding ast_toString) inputs
                      | _ => []
                      end).
    rewrite (visited_bind nodes (flat_map records)).
    unfold getPropertyBindings.
    rewrite (traverseNodes_pure _ (fun n bindings => bindings ++ records n)).
    + now rewrite fold_left_append.
    + intros n st.
      destruct n as [? ? i ? ? ?| | | | | | | | | | | | | | | | | ];
        try (simpl; now rewrite app_nil_r).
      cbn [is_element checkNodeType constructor_name]. simpl startsWith.
      cbv iota. f_equal. unfold records, inputs. revert st.
      induction i as [|b i IH]; intros st; simpl.
      * now rewrite app_nil_r.
      * rewrite IH.
        destruct (analyzePropertyBinding ast_toString b); simpl;
          [now rewrite <- app_assoc | reflexivity].
  - intros binding. unfold analyzePropertyBinding.
    destruct (input_value binding) as [expression source location| | | | | | ];
      reflexivity.
  - apply dependencies_walked.
  - reflexivity.
  - reflexivity.
Qed.

Section ControlFlowFacts.
Variable ast_toString : AST -> string.

Lemma getControlFlowExpressions_blocks (nodes : list TmplAstNode) :
  getControlFlowExpressions ast_toString nodes
  = (_ ← visited nodes;
     Ok (flat_map (block_expressions ast_toString) (visit_order nodes))).
Proof.
  unfold getControlFlowExpressions.
  rewrite (traverseNodes_pure _
             (fun n expressions =>
                expressions
                  ++ match n with
                     | TmplAstSwitchBlockCase c =>
                         [analyzeCaseExpression ast_toString c]
                     | _ => block_expressions ast_toString n
                     end))
    by apply getControlFlowExpressions_visitor_spec.
  rewrite fold_left_append, visited_spec.
  destruct (existsb is_stray_case (visit_order nodes)) eqn:Hstray;
    [reflexivity|].
  simpl. f_equal.
  induction (visit_order nodes) as [|n l IH]; [reflexivity|].
  cbn [existsb] in Hstray. apply orb_false_elim in Hstray as [Hn Hl].
  cbn [flat_map]. rewrite (IH Hl). now destruct n.
Qed.

End ControlFlowFacts.


(** X9: [getControlFlowExpressions] gives one record for each [@if],
    [@for] and [@switch] block the traversal visits, in the order of the
    visit, and nothing else; it fails only where the traversal does.  Of
    an [@if] block the first branch alone is read. *)
Theorem getControlFlowExpressions_records :
  forall (ast_toString : AST -> string),
    (forall nodes : list TmplAstNode,
        getControlFlowExpressions ast_toString nodes
        = (seen ← visited nodes;
           Ok (flat_map (block_expressions ast_toString) seen)))
    /\ (forall (nodes : list TmplAstNode)
               (records : list ControlFlowExpression),
          getControlFlowExpressions ast_toString nodes = Ok records ->
          length records
          = length (filter (fun n =>
                              match n with
                              | TmplAstIfBlock _ _
                              | TmplAstForLoopBlock _ _ _ _
                              | TmplAstSwitchBlock _ _ _ => true
                              | _ => false
                              end) (visit_order nodes)))
    /\ (forall (first : IfBlockBranch) (others : list IfBlockBranch)
               (sourceSpan : ParseSourceSpan),
          analyzeIfExpression ast_toString (first :: others) sourceSpan
          = analyzeExpression ast_toString type_if (branch_expression first)
                              sourceSpan).
Proof.
  intros ast_toString.
  assert (Hspec : forall nodes,
             getControlFlowExpressions ast_toString nodes
             = (seen ← visited nodes;
                Ok (flat_map (block_expressions ast_toString) seen))).
  { intros nodes. rewrite getControlFlowExpressions_blocks. symmetry.
    apply (visited_bind nodes (flat_map (block_expressions ast_toString))). }
  split; [exact Hspec|]. split; [|reflexivity].
  intros nodes records. rewrite Hspec, visited_spec.
  destruct (existsb is_stray_case (visit_order nodes)); [discriminate|].
  intros [= <-].
  induction (visit_order nodes) as [|n l IH]; [reflexivity|].
  cbn [flat_map filter]. rewrite length_app, IH. now destruct n.
Qed.

(** ** The queries that sum up other queries *)

Section SummaryFacts.

Lemma add_each_spec (xs : list string) :
  forall set : list string,
    NoDup set ->
    NoDup (Summary.add_each xs set)
    /\ forall y, In y (Summary.add_each xs set) <-> In y xs \/ In y set.
Proof.
  induction xs as [|x xs IH]; intros set Hset; simpl.
  - split; [assumption|]. intros y. tauto.
  - destruct (set_add_spec x set Hset) as [Hnd Hin].
    destruct (IH _ Hnd) as [Hnd' Hin'].
    split; [exact Hnd'|]. intros y. rewrite Hin', Hin.
    intuition congruence.
Qed.

Lemma add_all_spec {A : Type} (g : A -> list string) (l : list A) :
  forall set : list string,
    NoDup set ->
    NoDup (fold_left (fun set a => Summary.add_each (g a) set) l set)
    /\ forall y,
         In y (fold_left (fun set a => Summary.add_each (g a) set) l set)
         <-> In y set \/ exists a, In a l /\ In y (g a).
Proof.
  induction l as [|a l IH]; intros set Hset; simpl.
  - split; [assumption|]. intros y. split; [now left|].
    now intros [H|(a & [] & _)].
  - destruct (add_each_spec (g a) set Hset) as [Hnd Hin].
    destruct (IH _ Hnd) as [Hnd' Hin'].
    split; [exact Hnd'|]. intros y. rewrite Hin', Hin. split.
    + intros [[H|H]|(b & Hb & Hy)]; eauto 6.
    + intros [H|(b & [<-|Hb] & Hy)]; eauto 6.
Qed.

End SummaryFacts.

(** X10: [findMethodCalls] returns the names of the records of
    [getEventHandlers], each name once; the empty name of a handler of
    another shape is one of them.  It throws what [getEventHandlers]
    throws. *)
Theorem findMethodCalls_names_each_handler_once :
  forall (ast_toString : AST -> string) (nodes : list TmplAstNode)
         (handlers : list EventHandler),
    getEventHandlers ast_toString nodes = Ok handlers ->
    exists names,
      Summary.findMethodCalls ast_toString nodes = Ok names
      /\ NoDup names
      /\ forall x,
           In x names
           <-> exists handler,
                 In handler handlers /\ handler_name handler = x.
Proof.
  intros ast_toString nodes handlers Hh.
  unfold Summary.findMethodCalls. rewrite Hh. simpl.
  eexists. split; [reflexivity|].
  destruct (add_each_spec (map handler_name handlers) []
                          (List.NoDup_nil _)) as [Hnd Hin].
  split; [exact Hnd|]. intros x. rewrite Hin, in_map_iff. simpl.
  split.
  - intros [(h & Hx & Hh')|[]]. now exists h.
  - intros (h & Hh' & Hx). left. now exists h.
Qed.

Lemma findMethodCalls_names_each_handler_once_witness :
  exists names,
    Summary.findMethodCalls (fun _ => "AST")
      [Sample.button_save; Sample.button_save] = Ok names
    /\ NoDup names
    /\ forall x,
         In x names
         <-> exists handler,
               In handler
                  [{| handler_name := "save"; handler_arguments := ["AST"];
                      handler_fullText := "AST";
                      handler_sourceSpan := Sample.span0 |};
                   {| handler_name := "save"; handler_arguments := ["AST"];
                      handler_fullText := "AST";
                      handler_sourceSpan := Sample.span0 |}]
               /\ handler_name handler = x.
Proof.
  apply (findMethodCalls_names_each_handler_once (fun _ => "AST")).
  reflexivity.
Defined.

(** X11: [findReferencedProperties] returns the properties referenced by
    the records of [getPropertyBindings], each property once.  It throws
    what [getPropertyBindings] throws. *)
Theorem findReferencedProperties_names_each_property_once :
  forall (ast_toString : AST -> string) (nodes : list TmplAstNode)
         (bindings : list PropertyBinding),
    getPropertyBindings ast_toString nodes = Ok bindings ->
    exists properties,
      Summary.findReferencedProperties ast_toString nodes = Ok properties
      /\ NoDup properties
      /\ forall x,
           In x properties
           <-> exists binding,
                 In binding bindings
                 /\ In x (binding_referencedProperties binding).
Proof.
  intros ast_toString nodes bindings Hb.
  unfold Summary.findReferencedProperties. rewrite Hb. simpl.
  eexists. split; [reflexivity|].
  destruct (add_all_spec binding_referencedProperties bindings []
                         (List.NoDup_nil _)) as [Hnd Hin].
  split; [exact Hnd|]. intros x. rewrite Hin. simpl. tauto.
Qed.

Lemma findReferencedProperties_names_each_property_once_witness :
  exists properties,
    Summary.findReferencedProperties (fun _ => "AST")
      [Sample.div_title_click; Sample.div_title_click] = Ok properties
    /\ NoDup properties
    /\ forall x,
         In x properties
         <-> exists binding,
               In binding
                  [{| binding_name := "title"; binding_value := "AST";
                      binding_isLiteral := false;
                      binding_referencedProperties := ["a"];
                      binding_sourceSpan := Sample.span0 |};
                   {| binding_name := "title"; binding_value := "AST";
                      binding_isLiteral := false;
                      binding_referencedProperties := ["a"];
                      binding_sourceSpan := Sample.span0 |}]
               /\ In x (binding_referencedProperties binding).
Proof.
  apply (findReferencedProperties_names_each_property_once (fun _ => "AST")).
  reflexivity.
Defined.



(** ** The object of the class [Template] *)

(** X13: [parse] calls the compiler at most once for an object.  After a
    first call of [parse], a further call of [parse], of [getErrors], of
    [validateBindings] or of a query returns what the nodes of that first
    call give, calls the compiler no more and assigns to no field; the
    content and the path are never assigned to. *)
Theorem Template_parse_calls_the_compiler_once :
  forall (World : Type)
         (parseTemplate :
            string -> string -> World -> TemplateClass.ParsedTemplate * World)
         (this this' : TemplateClass.t) (world world' : World)
         (nodes : list TmplAstNode),
    TemplateClass.parse parseTemplate this world = (nodes, this', world') ->
    TemplateClass.parse parseTemplate this' world' = (nodes, this', world')
    /\ TemplateClass.getErrors parseTemplate this' world'
       = (TemplateClass.errors this', this', world')
    /\ TemplateClass.validateBindings parseTemplate this' world'
       = (TemplateClass.errors this', this', world')
    /\ (forall (A : Type) (query : list TmplAstNode -> outcome A),
           TemplateClass.on_nodes parseTemplate query this' world'
           = (query nodes, this', world'))
    /\ TemplateClass.getContent this' = TemplateClass.getContent this
    /\ TemplateClass.getPath this' = TemplateClass.getPath this.
Proof.
  intros World parseTemplate this this' world world' nodes.
  unfold TemplateClass.parse at 1.
  destruct (TemplateClass.parsedTemplate this) as [parsed|] eqn:Hparsed.
  - intros [= <- <- <-].
    unfold TemplateClass.on_nodes, TemplateClass.getErrors,
      TemplateClass.validateBindings, TemplateClass.parse.
    rewrite Hparsed. repeat split.
  - destruct (parseTemplate (TemplateClass.content this)
                            (TemplateClass.path this) world)
      as [parsed world1].
    intros [= <- <- <-]. repeat split.
Qed.

Lemma Template_parse_calls_the_compiler_once_witness :
  TemplateClass.parse
    (fun (content path : string) (calls : nat) =>
       ({| TemplateClass.nodes := Sample.two_siblings;
           TemplateClass.parsed_errors := None |}, S calls))
    {| TemplateClass.content := "<i></i><b></b>";
       TemplateClass.path := "t.html";
       TemplateClass.parsedTemplate :=
         Some {| TemplateClass.nodes := Sample.two_siblings;
                 TemplateClass.parsed_errors := None |};
       TemplateClass.errors := [] |} 1
  = (Sample.two_siblings,
     {| TemplateClass.content := "<i></i><b></b>";
        TemplateClass.path := "t.html";
        TemplateClass.parsedTemplate :=
          Some {| TemplateClass.nodes := Sample.two_siblings;
                  TemplateClass.parsed_errors := None |};
        TemplateClass.errors := [] |}, 1).
Proof.
  apply (Template_parse_calls_the_compiler_once nat
           (fun (content path : string) (calls : nat) =>
              ({| TemplateClass.nodes := Sample.two_siblings;
                  TemplateClass.parsed_errors := None |}, S calls))
           (TemplateClass.new "<i></i><b></b>" "t.html") _ 0 1
           Sample.two_siblings eq_refl).
Defined.

(** X14: on a new object, [getErrors] calls the compiler once and
    returns its errors one for one, in their order, each with its message
    and its span and the level ['error']; none when the compiler gives
    [null] for them.  [validateBindings] does the same and nothing more:
    on every object it returns what [getErrors] returns. *)
Theorem getErrors_reports_the_errors_of_the_compiler :
  forall (World : Type)
         (parseTemplate :
            string -> string -> World -> TemplateClass.ParsedTemplate * World)
         (content path : string) (world world' : World)
         (parsed : TemplateClass.ParsedTemplate),
    parseTemplate content path world = (parsed, world') ->
    (exists this',
        TemplateClass.getErrors parseTemplate
          (TemplateClass.new content path) world
        = (map (fun error =>
                  {| TemplateClass.error_message := TemplateClass.msg error;
                     TemplateClass.error_span := TemplateClass.span error;
                     TemplateClass.error_level := TemplateClass.level_error |})
               (default [] (TemplateClass.parsed_errors parsed)),
           this', world')
        /\ TemplateClass.parsedTemplate this' = Some parsed
        /\ Forall (fun error =>
                     TemplateClass.error_level error
                     = TemplateClass.level_error)
                  (TemplateClass.errors this'))
    /\ (forall (this : TemplateClass.t) (w : World),
           TemplateClass.validateBindings parseTemplate this w
           = TemplateClass.getErrors parseTemplate this w).
Proof.
  intros World parseTemplate content path world world' parsed Hparse.
  split; [|reflexivity].
  unfold TemplateClass.getErrors, TemplateClass.parse. simpl.
  rewrite Hparse.
  destruct (TemplateClass.parsed_errors parsed) as [l|] eqn:Herrors;
    eexists; (split; [reflexivity|]); (split; [reflexivity|]); simpl;
    [|constructor].
  clear Herrors. induction l as [|x l IH]; simpl.
  - apply List.Forall_nil.
  - apply List.Forall_cons; [reflexivity|exact IH].
Qed.

Lemma getErrors_reports_the_errors_of_the_compiler_witness :
  fst (fst (TemplateClass.getErrors
              (fun (content path : string) (calls : nat) =>
                 ({| TemplateClass.nodes := [];
                     TemplateClass.parsed_errors :=
                       Some [{| TemplateClass.msg := "Unexpected closing tag";
                                TemplateClass.span := Sample.span0 |}] |},
                  S calls))
              (TemplateClass.new "</b>" "t.html") 0))
  = [{| TemplateClass.error_message := "Unexpected closing tag";
        TemplateClass.error_span := Sample.span0;
        TemplateClass.error_level := TemplateClass.level_error |}].
Proof.
  destruct (getErrors_reports_the_errors_of_the_compiler nat
              (fun (content path : string) (calls : nat) =>
                 ({| TemplateClass.nodes := [];
                     TemplateClass.parsed_errors :=
                       Some [{| TemplateClass.msg := "Unexpected closing tag";
                                TemplateClass.span := Sample.span0 |}] |},
                  S calls))
              "</b>" "t.html" 0 1 _ eq_refl) as [(this' & H & _) _].
  rewrite H. reflexivity.
Defined.

(** ** The guards of [src/ast/types.ts] *)

Section PrefixFacts.








End PrefixFacts.


(** X16: [hasKind] and [isNodeOfKind] test the name of the class against
    the word of the kind.  With [If], [For], [Switch] and [Defer] they
    accept what the guards [is.ifBlock], [is.forBlock], [is.switchBlock]
    and [is.deferBlock] accept; with thirteen kinds, [Attribute],
    [PropertyBinding], [EventBinding] and [Case] among them, they accept
    no node of the classes the file imports. *)
Theorem hasKind_by_prefix :
  forall node : TmplAstNode,
    (forall kind : NodeKind.t,
        Kinds.isNodeOfKind node kind = Kinds.hasKind node kind)
    /\ Kinds.hasKind node NodeKind.If = is_ifBlock node
    /\ Kinds.hasKind node NodeKind.For = is_forBlock node
    /\ Kinds.hasKind node NodeKind.Switch = is_switchBlock node
    /\ Kinds.hasKind node NodeKind.Defer = is_deferBlock node
    /\ (forall kind : NodeKind.t,
           In kind [NodeKind.Attribute; NodeKind.PropertyBinding;
                    NodeKind.EventBinding; NodeKind.TwoWayBinding;
                    NodeKind.Interpolation; NodeKind.Directive;
                    NodeKind.Else; NodeKind.Empty; NodeKind.Case;
                    NodeKind.Default; NodeKind.DeferPlaceholder;
                    NodeKind.DeferLoading; NodeKind.DeferError] ->
           Kinds.hasKind node kind = false).
Proof.
  intros node. split; [reflexivity|].
  repeat split; try (now destruct node).
  intros kind Hkind. simpl in Hkind.
  repeat (destruct Hkind as [<-|Hkind]; [now destruct node|]).
  contradiction.
Qed.

(** ** What [matches] compares *)

Section SelectorInduction.
Variable P : CssSelector.t -> Prop.
Hypothesis HBuild : forall element classNames attrs notSelectors,
    Forall P notSelectors -> P (Build element classNames attrs notSelectors).

Lemma selector_nested_ind (sel : CssSelector.t) : P sel.
Proof.
  revert sel. fix IH 1. intros [e c a n]. apply HBuild.
  induction n as [|x n IHn]; constructor; [apply IH|exact IHn].
Qed.

End SelectorInduction.

Section MatchFacts.

Lemma existsb_pointwise {A : Type} (f g : A -> bool) (l : list A) :
  Forall (fun x => f x = g x) l -> existsb f l = existsb g l.
Proof.
  induction 1 as [|x l Hx _ IH]; simpl; [reflexivity|].
  now rewrite Hx, IH.
Qed.

Lemma existsb_of_map {A B : Type} (f : B -> bool) (g : A -> B)
    (l : list A) :
  existsb f (map g l) = existsb (fun x => f (g x)) l.
Proof. induction l as [|x l IH]; simpl; [reflexivity|]. now rewrite IH. Qed.

(** [matches] reads of an element the truth of its tag name, that name
    in lower case, the set of its classes and the map of its
    attributes. *)
Lemma matches_ext (e e' : ElementInfo) :
  truthy (tagName e) = truthy (tagName e') ->
  toLowerCase (or_empty (tagName e)) = toLowerCase (or_empty (tagName e')) ->
  elementClasses e = elementClasses e' ->
  elementAttrs e = elementAttrs e' ->
  forall sel, matches sel e = matches sel e'.
Proof.
  intros Ht Hl Hc Ha sel.
  induction sel as [el cs ats ns IH] using selector_nested_ind.
  rewrite !matches_unfold. cbn [element classNames attrs notSelectors].
  rewrite Ht, Hl, Hc, Ha, (existsb_pointwise _ _ _ IH). reflexivity.
Qed.

Lemma truthy_lower (o : option string) :
  truthy (option_map toLowerCase o) = truthy o.
Proof. now destruct o as [[|c s]|]. Qed.

Lemma or_empty_lower (o : option string) :
  toLowerCase (or_empty (option_map toLowerCase o))
  = toLowerCase (or_empty o).
Proof. destruct o; simpl; [apply toLowerCase_idempotent|reflexivity]. Qed.

Lemma elementClasses_lower (e : ElementInfo) :
  elementClasses (lower_info e) = elementClasses e.
Proof.
  unfold elementClasses, lower_info. simpl.
  destruct (classList e) as [l|]; simpl; [|reflexivity].
  rewrite map_map. f_equal. apply map_ext. intros c.
  apply toLowerCase_idempotent.
Qed.

Lemma elementAttrs_lower (e : ElementInfo) :
  elementAttrs (lower_info e) = elementAttrs e.
Proof.
  unfold elementAttrs, lower_info. simpl.
  destruct (attributes e) as [l|]; simpl; [|reflexivity].
  generalize (∅ : gmap string string).
  induction l as [|a l IH]; intros m; simpl; [reflexivity|].
  rewrite !toLowerCase_idempotent. apply IH.
Qed.

Lemma lower_attr_names_length (ats : list string) :
  length (lower_attr_names ats) = length ats.
Proof.
  induction ats as [| |x y l IH] using pair_induction; simpl;
    [reflexivity|reflexivity|]. now rewrite IH.
Qed.

Lemma attrs_hold_lower_names (m : gmap string string) (ats : list string) :
  attrs_hold m (lower_attr_names ats) = attrs_hold m ats.
Proof.
  induction ats as [| |x y l IH] using pair_induction;
    cbn [lower_attr_names attrs_hold]; rewrite ?toLowerCase_idempotent;
    [reflexivity|reflexivity|].
  now rewrite IH.
Qed.

Lemma matches_lower_names (e : ElementInfo) (sel : CssSelector.t) :
  matches (lower_names sel) e = matches sel e.
Proof.
  induction sel as [el cs ats ns IH] using selector_nested_ind.
  rewrite !matches_unfold.
  cbn [lower_names element classNames attrs notSelectors].
  rewrite truthy_lower, or_empty_lower, lower_attr_names_length,
    attrs_hold_lower_names, length_map, existsb_of_map,
    (existsb_pointwise _ _ _ IH).
  reflexivity.
Qed.

End MatchFacts.

(** X17: [matches] does not tell upper case from lower case where it
    compares with the element: an element matches as the same element
    written in lower case does (tag name, classes, names and values of
    attributes), and a selector matches as the same selector with its
    element name and its attribute names in lower case does. *)
Theorem matches_ignores_case :
  forall (sel : CssSelector.t) (e : ElementInfo),
    matches sel (lower_info e) = matches sel e
    /\ matches (lower_names sel) e = matches sel e.
Proof.
  intros sel e. split; [|apply matches_lower_names].
  apply matches_ext.
  - apply truthy_lower.
  - apply or_empty_lower.
  - apply elementClasses_lower.
  - apply elementAttrs_lower.
Qed.

Section ListFacts.

Lemma find_snoc {A : Type} (p : A -> bool) (l : list A) (x : A) :
  find p (l ++ [x])
  = match find p l with
    | Some y => Some y
    | None => if p x then Some x else None
    end.
Proof.
  induction l as [|y l IH]; simpl; [reflexivity|].
  now destruct (p y).
Qed.

(** The map [matches] builds of the attributes gives for a name the
    value of the last attribute of that name. *)
Lemma fold_insert_lookup (l : list (string * string)) (k : string) :
  forall m : gmap string string,
    fold_left (fun m a => <[toLowerCase (fst a) := toLowerCase (snd a)]> m)
              l m !! k
    = match find (fun a => String.eqb (toLowerCase (fst a)) k) (rev l) with
      | Some a => Some (toLowerCase (snd a))
      | None => m !! k
      end.
Proof.
  induction l as [|x l IH]; intros m; simpl; [reflexivity|].
  rewrite IH, find_snoc.
  destruct (find _ (rev l)); [reflexivity|].
  rewrite lookup_insert.
  destruct (String.eqb (toLowerCase (fst x)) k) eqn:Hk.
  - apply String.eqb_eq in Hk. now rewrite decide_True.
  - apply String.eqb_neq in Hk. now rewrite decide_False.
Qed.

Lemma elementAttrs_lookup (e : ElementInfo) (name : string) :
  elementAttrs e !! toLowerCase name
  = option_map (fun a => toLowerCase (snd a))
               (deciding name (default [] (attributes e))).
Proof.
  unfold elementAttrs, deciding. rewrite fold_insert_lookup.
  destruct (find _ _); [reflexivity|]. apply lookup_empty.
Qed.

Lemma attrs_hold_required (e : ElementInfo) (ats : list string) :
  attrs_hold (elementAttrs e) ats
  = attrs_required (default [] (attributes e)) ats.
Proof.
  induction ats as [|name|name value rest IH] using pair_induction;
    cbn [attrs_hold attrs_required]; [reflexivity| |];
    rewrite elementAttrs_lookup;
    destruct (deciding name (default [] (attributes e))) as [a|];
    simpl option_map; cbv iota.
  - apply bool_decide_eq_true. now eexists.
  - apply bool_decide_eq_false. now intros [? ?].
  - rewrite IH. unfold nonempty.
    destruct (truthy (Some value)),
      (String.eqb (toLowerCase (snd a)) value); reflexivity.
  - reflexivity.
Qed.

Lemma class_in_elementClasses (e : ElementInfo) (className : string) :
  bool_decide (className ∈ elementClasses e)
  = existsb (fun c => String.eqb (toLowerCase c) className)
            (default [] (classList e)).
Proof.
  unfold elementClasses.
  destruct (existsb _ _) eqn:Hex.
  - apply bool_decide_eq_true. rewrite elem_of_list_to_set, list_elem_of_In.
    apply existsb_exists in Hex as (c & Hc & Heq).
    apply String.eqb_eq in Heq as <-. now apply in_map.
  - apply bool_decide_eq_false. rewrite elem_of_list_to_set, list_elem_of_In.
    intros (c & Heq & Hc)%in_map_iff.
    assert (H : existsb (fun c => String.eqb (toLowerCase c) className)
                        (default [] (classList e)) = true).
    { apply existsb_exists. exists c. split; [exact Hc|].
      now apply String.eqb_eq. }
    congruence.
Qed.

Lemma guard_forallb {A : Type} (f : A -> bool) (l : list A) :
  (0 <? length l)%nat && negb (forallb f l) = negb (forallb f l).
Proof. now destruct l. Qed.

Lemma guard_existsb {A : Type} (f : A -> bool) (l : list A) :
  (0 <? length l)%nat && existsb f l = existsb f l.
Proof. now destruct l. Qed.

Lemma guard_required (attributes : list (string * string))
    (ats : list string) :
  (0 <? length ats)%nat && negb (attrs_required attributes ats)
  = negb (attrs_required attributes ats).
Proof. now destruct ats. Qed.

(** [matches] as the conjunction of its four tests. *)
Lemma matches_conjunction :
  forall (sel : CssSelector.t) (e : ElementInfo),
    matches sel e
    = (negb (truthy (element sel))
       || (truthy (tagName e)
           && String.eqb (toLowerCase (or_empty (element sel)))
                         (toLowerCase (or_empty (tagName e)))))
      && forallb (fun className =>
                    existsb (fun c => String.eqb (toLowerCase c) className)
                            (default [] (classList e)))
                 (classNames sel)
      && attrs_required (default [] (attributes e)) (attrs sel)
      && negb (existsb (fun notSelector => matches notSelector e)
                       (notSelectors sel)).
Proof.
  intros sel e. rewrite matches_unfold, attrs_hold_required.
  assert (Hc : forallb (fun className =>
                          bool_decide (className ∈ elementClasses e))
                       (classNames sel)
               = forallb (fun className =>
                            existsb (fun c =>
                                       String.eqb (toLowerCase c) className)
                                    (default [] (classList e)))
                         (classNames sel)).
  { induction (classNames sel) as [|c l IH]; simpl; [reflexivity|].
    now rewrite IH, class_in_elementClasses. }
  rewrite Hc, guard_forallb, guard_required, guard_existsb. clear Hc.
  destruct (truthy (element sel)), (truthy (tagName e)), (String.eqb _ _),
    (forallb _ _), (attrs_required _ _), (existsb _ _); reflexivity.
Qed.

End ListFacts.

(** X18: the set and the map that [matches] builds of an element amount
    to searches of its lists.  A selector matches when its element name,
    if it has one, is the tag name of the element, case apart; each of
    its class names is, case apart, a class of the element; each of its
    attribute names is, case apart, the name of an attribute of the
    element and, where the selector gives a value, the last attribute of
    that name has this value in lower case; and none of its negated
    selectors matches. *)
Theorem matches_searches_the_lists :
  forall (sel : CssSelector.t) (e : ElementInfo),
    matches sel e
    = (negb (truthy (element sel))
       || (truthy (tagName e)
           && String.eqb (toLowerCase (or_empty (element sel)))
                         (toLowerCase (or_empty (tagName e)))))
      && forallb (fun className =>
                    existsb (fun c => String.eqb (toLowerCase c) className)
                            (default [] (classList e)))
                 (classNames sel)
      && attrs_required (default [] (attributes e)) (attrs sel)
      && negb (existsb (fun notSelector => matches notSelector e)
                       (notSelectors sel)).
Proof. exact matches_conjunction. Qed.

(** ** What [parse] returns *)

Section CountFacts.

Lemma results_on_current (f : CssSelector.t -> CssSelector.t)
    (st : ParseState) :
  results (on_current f st) = results st.
Proof. unfold on_current. now destruct (current st). Qed.

(** The body of the loop adds a selector to [results] for a comma, and
    for nothing else. *)
Lemma step_results (m : RegExpMatch) (st st' : ParseState) :
  step m st = Ok st' ->
  length (results st')
  = length (results st) + (if is_comma m then 1 else 0).
Proof.
  unfold step, is_comma.
  destruct (truthy (g1 m)); [destruct (inNot st)|]; simpl;
    try discriminate;
    destruct (truthy (g8 m));
    repeat match goal with
           | |- context [if ?b then _ else _] => destruct b
           end;
    simpl; try discriminate; intros [= <-]; simpl;
    rewrite ?length_app, ?results_on_current; simpl; lia.
Qed.

Lemma run_length (ms : list RegExpMatch) :
  forall (st : ParseState) (sels : list CssSelector.t),
    run ms st = Ok sels ->
    length sels
    = length (results st) + S (length (filter is_comma ms)).
Proof.
  induction ms as [|m ms IH]; intros st sels; simpl.
  - intros [= <-]. rewrite length_app. simpl. lia.
  - destruct (step m st) as [st'| |] eqn:Hstep; simpl; try discriminate.
    intros H. rewrite (IH _ _ H), (step_results _ _ _ Hstep).
    destruct (is_comma m); simpl; lia.
Qed.

Lemma attr_pairs_even (ats : list string) :
  attr_pairs ats -> Nat.even (length ats) = true.
Proof.
  induction ats as [| |x y l IH] using pair_induction; simpl;
    [reflexivity|contradiction|].
  intros (_ & _ & H). now apply IH.
Qed.

End CountFacts.

(** X19: when [parse] returns, it returns one selector more than the
    scan of the string finds commas: one selector for each part of the
    list, an empty part included. *)
Theorem parse_returns_a_selector_for_each_part :
  forall (s : string) (sels : list CssSelector.t),
    parse s = Ok sels ->
    length sels = S (length (filter is_comma (scan s))).
Proof.
  intros s sels H. rewrite parse_run in H.
  now rewrite (run_length _ _ _ H).
Qed.

Lemma parse_returns_a_selector_for_each_part_witness :
  length [Build (Some "a") [] [] []; new; Build None ["b"] [] []]
  = S (length (filter is_comma (scan "a, ,.b"))).
Proof.
  apply (parse_returns_a_selector_for_each_part "a, ,.b"). reflexivity.
Defined.

(** X20: what [parse] returns is well formed.  The array [attrs] of a
    selector holds whole pairs of a name and a value, an element name and
    a class name are never empty, and a negated selector has no negated
    selector of its own. *)
Theorem parse_returns_well_formed_selectors :
  forall (s : string) (sels : list CssSelector.t),
    parse s = Ok sels ->
    Forall (fun sel =>
              element sel <> Some ""
              /\ Forall (fun className => className <> "") (classNames sel)
              /\ Nat.even (length (attrs sel)) = true
              /\ Forall (fun notSelector =>
                           notSelectors notSelector = []
                           /\ element notSelector <> Some ""
                           /\ Nat.even (length (attrs notSelector)) = true)
                        (notSelectors sel))
           sels.
Proof.
  intros s sels H. apply parse_parsed in H.
  eapply List.Forall_impl; [|exact H].
  intros sel (He & Hc & Ha & Hn). repeat split.
  - destruct (element sel) as [w|]; [|discriminate].
    intros [= ->]. now destruct He.
  - eapply List.Forall_impl; [|exact Hc]. now intros c [[Hne _] _].
  - now apply attr_pairs_even.
  - eapply List.Forall_impl; [|exact Hn].
    intros n (He' & _ & Ha' & Hn'). repeat split.
    + exact Hn'.
    + destruct (element n) as [w|]; [|discriminate].
      intros [= ->]. now destruct He'.
    + now apply attr_pairs_even.
Qed.

Lemma parse_returns_well_formed_selectors_witness :
  Forall (fun sel =>
            element sel <> Some ""
            /\ Forall (fun className => className <> "") (classNames sel)
            /\ Nat.even (length (attrs sel)) = true
            /\ Forall (fun notSelector =>
                         notSelectors notSelector = []
                         /\ element notSelector <> Some ""
                         /\ Nat.even (length (attrs notSelector)) = true)
                      (notSelectors sel))
         [Build (Some "a") ["b"] ["c"; "d"] [Build None ["e"] [] []]].
Proof.
  apply (parse_returns_well_formed_selectors "a.b[c=d]:not(.e)").
  reflexivity.
Defined.

Section SugarFacts.

Local Open Scope string_scope.
Local Arguments String.append !s1 s2 : simpl nomatch.

Lemma exec_id (w rest : string) :
  tag_word w -> stops is_tag_char rest ->
  exec ("#" ++ w ++ rest) = Some (tag_match "#" w, rest).
Proof.
  intros [Hne Hw] Hrest. destruct w as [|a w]; [congruence|].
  apply exec_here. unfold match_here.
  change (alt_not ("#" ++ String a w ++ rest))
    with (@None (RegExpMatch * string)).
  change ("#" ++ String a w ++ rest) with (String "#" (String a w ++ rest)).
  rewrite alt_tag_prefixed by reflexivity.
  rewrite (span_append is_tag_char (String a w) rest Hw Hrest).
  reflexivity.
Qed.

Lemma parse_id (w : string) :
  tag_word w ->
  parse ("#" ++ w) = Ok [Build None [] ["id"; toLowerCase w] []].
Proof.
  intros Hw. change (parse ("#" ++ w)) with (parse_from ("#" ++ w) init).
  replace ("#" ++ w) with ("#" ++ w ++ "") by now rewrite append_empty_r.
  rewrite parse_from_unfold, (exec_id w "" Hw I). reflexivity.
Qed.

Lemma tag_word_value (w : string) :
  tag_word w -> all_chars is_value_char w = true.
Proof.
  intros [_ Hw]. revert Hw. apply all_chars_weaken. exact tag_char_value.
Qed.

Lemma parse_attribute (name value : string) :
  attr_name name -> all_chars is_value_char value = true ->
  parse ("[" ++ name ++ value_k value "")
  = Ok [Build None [] [name; toLowerCase value] []].
Proof.
  intros Hname Hvalue.
  change (parse ("[" ++ name ++ value_k value ""))
    with (parse_from ("[" ++ name ++ value_k value "") init).
  destruct (exec_attr name value "" Hname Hvalue) as (quote & v & Hexec & Hv).
  rewrite parse_from_unfold, Hexec.
  assert (Hne : truthy (Some name) = true).
  { destruct Hname as [Hne _]. destruct name; [congruence|reflexivity]. }
  unfold step, attr_match. cbn -[truthy parse_from]. rewrite Hne, Hv.
  reflexivity.
Qed.

End SugarFacts.

(** X21: [#w] is read as the attribute selector [[id=w]]: for a word
    [w] of letters, digits, [_] and [-], both texts parse to the one
    selector that requires the attribute [id] with the value [w] in lower
    case. *)
Theorem parse_reads_an_id_as_an_attribute :
  forall w : string,
    tag_word w ->
    parse ("#" ++ w)%string = Ok [Build None [] ["id"; toLowerCase w] []]
    /\ parse ("[id=" ++ w ++ "]")%string = parse ("#" ++ w)%string.
Proof.
  intros w Hw. split; [now apply parse_id|].
  rewrite parse_id by exact Hw.
  assert (Htext : ("[id=" ++ w ++ "]")%string
                  = ("[" ++ "id" ++ value_k w "")%string).
  { unfold value_k. destruct Hw as [Hne _].
    destruct w; [congruence|reflexivity]. }
  rewrite Htext. apply parse_attribute.
  - split; [discriminate|reflexivity].
  - now apply tag_word_value.
Qed.

Lemma parse_reads_an_id_as_an_attribute_witness :
  parse "#Main" = Ok [Build None [] ["id"; toLowerCase "Main"] []]
  /\ parse "[id=Main]" = parse "#Main".
Proof.
  apply (parse_reads_an_id_as_an_attribute "Main").
  split; [discriminate|reflexivity].
Defined.

Section QuoteFacts.

Local Open Scope string_scope.
Local Arguments String.append !s1 s2 : simpl nomatch.

Lemma quote_no_value_char (q : ascii) :
  is_quote q = true -> is_value_char q = false.
Proof.
  intros Hq. unfold is_value_char. now rewrite Hq, orb_true_r.
Qed.

(** An attribute with an equals sign: the text after the name is
    matched by the optional part of the third alternative. *)
Lemma exec_attr_tail (name tail : string) (r : RegExpMatch * string) :
  attr_name name ->
  alt_attr_tail name ("=" ++ tail) = Some r ->
  exec ("[" ++ name ++ "=" ++ tail) = Some r.
Proof.
  intros [Hne Hname] Hr. destruct name as [|a n]; [congruence|].
  apply exec_here. unfold match_here.
  change (alt_not ("[" ++ String a n ++ "=" ++ tail))
    with (@None (RegExpMatch * string)).
  change (alt_tag ("[" ++ String a n ++ "=" ++ tail))
    with (@None (RegExpMatch * string)).
  unfold alt_attr.
  change ("[" ++ String a n ++ "=" ++ tail)
    with (String "[" (String a n ++ "=" ++ tail)).
  cbn [Ascii.eqb Bool.eqb]. cbv iota beta.
  rewrite (span_append is_attr_char (String a n) ("=" ++ tail) Hname)
    by reflexivity.
  now rewrite Hr.
Qed.

Lemma exec_attr_quoted (q : ascii) (name value rest : string) :
  attr_name name -> all_chars is_value_char value = true ->
  is_quote q = true ->
  exec ("[" ++ name ++ "=" ++ String q (value ++ String q ("]" ++ rest)))
  = Some (attr_match name (Some (String q "")) (Some value), rest).
Proof.
  intros Hname Hvalue Hq. apply exec_attr_tail; [exact Hname|].
  unfold alt_attr_tail.
  change ("=" ++ String q (value ++ String q ("]" ++ rest)))
    with (String "=" (String q (value ++ String q ("]" ++ rest)))).
  cbn [Ascii.eqb Bool.eqb]. cbv iota beta. rewrite Hq.
  rewrite (span_append is_value_char value (String q ("]" ++ rest)) Hvalue)
    by (now apply quote_no_value_char).
  change ("]" ++ rest) with (String "]" rest). cbv iota beta.
  rewrite Ascii.eqb_refl. reflexivity.
Qed.

Lemma exec_attr_plain (name value rest : string) :
  attr_name name -> all_chars is_value_char value = true ->
  exec ("[" ++ name ++ "=" ++ value ++ "]" ++ rest)
  = Some (attr_match name (Some "") (Some value), rest).
Proof.
  intros Hname Hvalue. apply exec_attr_tail; [exact Hname|].
  unfold alt_attr_tail.
  change ("=" ++ value ++ "]" ++ rest)
    with (String "=" (value ++ "]" ++ rest)).
  cbn [Ascii.eqb Bool.eqb]. cbv iota beta.
  assert (Hspan : span is_value_char (value ++ "]" ++ rest)
                  = (value, "]" ++ rest))
    by (now apply span_append).
  destruct value as [|c v].
  - reflexivity.
  - change (String c v ++ "]" ++ rest) with (String c (v ++ "]" ++ rest)).
    cbv iota beta.
    pose proof Hvalue as Hcv. simpl in Hcv.
    apply andb_true_iff in Hcv as [Hc Hv].
    rewrite (value_char_no_quote c Hc).
    change (String c (v ++ "]" ++ rest)) with (String c v ++ "]" ++ rest).
    rewrite Hspan. reflexivity.
Qed.

Lemma parse_attr_match (name value rest : string) (quote : option string) :
  attr_name name ->
  exec rest = None ->
  (st' ← step (attr_match name quote (Some value)) init; parse_from rest st')
  = Ok [Build None [] [name; toLowerCase value] []].
Proof.
  intros [Hne _] Hrest.
  assert (Htruthy : truthy (Some name) = true)
    by (destruct name; [congruence|reflexivity]).
  unfold step, attr_match. cbn -[truthy parse_from]. rewrite Htruthy.
  cbn -[parse_from]. now rewrite parse_from_unfold, Hrest.
Qed.

End QuoteFacts.

(** X22: the quotes around the value of an attribute selector are not
    part of the value: with either quote character [q], [[name=qvalueq]]
    parses to the selector [[name=value]] parses to, with the value in
    lower case. *)
Theorem parse_drops_the_quotes_of_a_value :
  forall (q : ascii) (name value : string),
    attr_name name ->
    all_chars is_value_char value = true ->
    is_quote q = true ->
    parse ("[" ++ name ++ "=" ++ String q (value ++ String q "]"))%string
    = Ok [Build None [] [name; toLowerCase value] []]
    /\ parse ("[" ++ name ++ "=" ++ value ++ "]")%string
       = Ok [Build None [] [name; toLowerCase value] []].
Proof.
  intros q name value Hname Hvalue Hq. split.
  - change (parse ("[" ++ name ++ "="
                       ++ String q (value ++ String q "]"))%string)
      with (parse_from ("[" ++ name ++ "="
                            ++ String q (value ++ String q ("]" ++ "")))%string
                       init).
    rewrite parse_from_unfold, exec_attr_quoted by assumption.
    now apply parse_attr_match.
  - change (parse ("[" ++ name ++ "=" ++ value ++ "]")%string)
      with (parse_from ("[" ++ name ++ "=" ++ value ++ "]" ++ "")%string
                       init).
    rewrite parse_from_unfold, exec_attr_plain by assumption.
    now apply parse_attr_match.
Qed.

Lemma parse_drops_the_quotes_of_a_value_witness :
  parse ("[" ++ "type" ++ "="
             ++ String "039" ("Text" ++ String "039" "]"))%string
  = Ok [Build None [] ["type"; toLowerCase "Text"] []]
  /\ parse ("[" ++ "type" ++ "=" ++ "Text" ++ "]")%string
     = Ok [Build None [] ["type"; toLowerCase "Text"] []].
Proof.
  apply (parse_drops_the_quotes_of_a_value "039" "type" "Text");
    [split; [discriminate|reflexivity] | reflexivity | reflexivity].
Defined.

Section GapFacts.

Local Open Scope string_scope.
Local Arguments String.append !s1 s2 : simpl nomatch.

(** A character between two compound selectors starts no match. *)
Lemma gap_char (c : ascii) :
  is_gap c = true ->
  Ascii.eqb ":" c = false
  /\ Ascii.eqb c "." || Ascii.eqb c "#" = false
  /\ is_tag_char c = false
  /\ Ascii.eqb c "[" = false
  /\ Ascii.eqb c ")" = false
  /\ Ascii.eqb c "," = false.
Proof. destruct c as [[] [] [] [] [] [] [] []]; now vm_compute. Qed.

Lemma tag_char_no_comma (c : ascii) :
  is_tag_char c = true -> is_space c = false /\ Ascii.eqb c "," = false.
Proof. destruct c as [[] [] [] [] [] [] [] []]; now vm_compute. Qed.

Lemma alt_comma_space (c : ascii) (s : string) :
  is_space c = true -> alt_comma s = None -> alt_comma (String c s) = None.
Proof.
  unfold alt_comma. simpl. intros ->.
  destruct (span is_space s) as [w1 r].
  destruct r as [|d r1]; [reflexivity|].
  destruct (Ascii.eqb d ","); [|reflexivity].
  now destruct (span is_space r1).
Qed.

Lemma alt_comma_other (c : ascii) (s : string) :
  is_space c = false -> Ascii.eqb c "," = false ->
  alt_comma (String c s) = None.
Proof. unfold alt_comma. simpl. now intros -> ->. Qed.

Lemma alt_comma_gap (sep word rest : string) :
  all_chars is_gap sep = true -> tag_word word ->
  alt_comma (sep ++ word ++ rest) = None.
Proof.
  intros Hsep [Hne Hword].
  induction sep as [|c sep IH].
  - destruct word as [|d w]; [congruence|]. simpl in Hword.
    apply andb_true_iff in Hword as [Hd _].
    destruct (tag_char_no_comma d Hd) as [Hspace Hcomma].
    now apply alt_comma_other.
  - simpl in Hsep. apply andb_true_iff in Hsep as [Hc Hsep].
    change (String c sep ++ word ++ rest)
      with (String c (sep ++ word ++ rest)).
    destruct (is_space c) eqn:Hspace.
    + apply alt_comma_space; [exact Hspace|]. now apply IH.
    + apply alt_comma_other; [exact Hspace|]. apply (gap_char c Hc).
Qed.

Lemma match_here_gap (c : ascii) (s : string) :
  is_gap c = true -> alt_comma (String c s) = None ->
  match_here (String c s) = None.
Proof.
  intros Hc Hcomma.
  destruct (gap_char c Hc) as (Hcolon & Hprefix & Htag & Hopen & Hclose & _).
  unfold match_here.
  assert (Hnot : alt_not (String c s) = None).
  { unfold alt_not. cbn [strip_prefix]. now rewrite Hcolon. }
  assert (Htagged : alt_tag (String c s) = None).
  { unfold alt_tag. cbv iota beta. rewrite Hprefix.
    cbn [span]. now rewrite Htag. }
  assert (Hattr : alt_attr (String c s) = None).
  { unfold alt_attr. now rewrite Hopen. }
  assert (Hclosed : alt_close (String c s) = None).
  { unfold alt_close. now rewrite Hclose. }
  now rewrite Hnot, Htagged, Hattr, Hclosed.
Qed.

(** [exec] goes over the characters between two compound selectors. *)
Lemma exec_gap (sep word rest : string) :
  all_chars is_gap sep = true -> tag_word word ->
  exec (sep ++ word ++ rest) = exec (word ++ rest).
Proof.
  intros Hsep Hword. induction sep as [|c sep IH]; [reflexivity|].
  pose proof (alt_comma_gap _ _ rest Hsep Hword) as Hcomma.
  simpl in Hsep. apply andb_true_iff in Hsep as [Hc Hsep].
  change (String c sep ++ word ++ rest)
    with (String c (sep ++ word ++ rest)) in *.
  cbn [exec]. rewrite (match_here_gap c _ Hc Hcomma). now apply IH.
Qed.

Lemma gap_stops (sep rest : string) :
  sep <> "" -> all_chars is_gap sep = true ->
  stops is_tag_char (sep ++ rest).
Proof.
  intros Hne Hsep. destruct sep as [|c sep]; [congruence|].
  simpl in Hsep. apply andb_true_iff in Hsep as [Hc _].
  apply (gap_char c Hc).
Qed.

Lemma step_tag (w : string) (st : ParseState) :
  tag_word w ->
  step (tag_match "" w) st = Ok (on_current (setElement (Some w)) st).
Proof. intros [Hne _]. destruct w; [congruence|reflexivity]. Qed.

Lemma parse_two_tags (first sep last : string) :
  tag_word first -> tag_word last ->
  sep <> "" -> all_chars is_gap sep = true ->
  parse (first ++ sep ++ last) = Ok [Build (Some last) [] [] []].
Proof.
  intros Hfirst Hlast Hne Hsep.
  change (parse (first ++ sep ++ last))
    with (parse_from (first ++ sep ++ last) init).
  rewrite parse_from_unfold.
  rewrite (exec_element first (sep ++ last) Hfirst) by now apply gap_stops.
  rewrite (step_tag first init Hfirst). cbn [mbind outcome_bind Js.bind].
  rewrite parse_from_unfold.
  rewrite <- (append_empty_r last) at 1.
  rewrite (exec_gap sep last "" Hsep Hlast).
  rewrite (exec_element last "" Hlast I).
  rewrite (step_tag last _ Hlast). cbn [mbind outcome_bind Js.bind].
  rewrite parse_from_unfold. reflexivity.
Qed.

End GapFacts.

(** X23: a combinator is not read.  When two tag names are separated by
    white space or by [>], [+] or [~], [parse] goes over the separator
    and the second name takes the place of the first: the text is read
    as the second name alone. *)
Theorem parse_keeps_the_last_tag_name :
  forall first sep last : string,
    tag_word first -> tag_word last ->
    sep <> ""%string -> all_chars is_gap sep = true ->
    parse (first ++ sep ++ last)%string = Ok [Build (Some last) [] [] []]
    /\ parse (first ++ sep ++ last)%string = parse last.
Proof.
  intros first sep last Hfirst Hlast Hne Hsep.
  split; [now apply parse_two_tags|].
  rewrite parse_two_tags by assumption. symmetry.
  apply (parse_toString (Build (Some last) [] [] [])).
  repeat split; simpl; try constructor; apply Hlast.
Qed.

Lemma parse_keeps_the_last_tag_name_witness :
  parse ("ul" ++ " > " ++ "li")%string = Ok [Build (Some "li") [] [] []]
  /\ parse ("ul" ++ " > " ++ "li")%string = parse "li".
Proof.
  apply (parse_keeps_the_last_tag_name "ul" " > " "li");
    solve [split; [discriminate|reflexivity] | discriminate | reflexivity].
Defined.

(** X24: the text of a selector tells the selectors [parse] returns
    apart: two of them with the same text are the same selector. *)
Theorem toString_tells_parsed_selectors_apart :
  forall (s1 s2 : string) (sels1 sels2 : list CssSelector.t)
         (a b : CssSelector.t),
    parse s1 = Ok sels1 -> parse s2 = Ok sels2 ->
    In a sels1 -> In b sels2 ->
    toString a = toString b -> a = b.
Proof.
  intros s1 s2 sels1 sels2 a b H1 H2 Ha Hb Htext.
  apply parse_parsed in H1, H2.
  rewrite List.Forall_forall in H1, H2.
  pose proof (parse_toString a (H1 a Ha)) as Pa.
  pose proof (parse_toString b (H2 b Hb)) as Pb.
  rewrite Htext, Pb in Pa. now injection Pa as ->.
Qed.

Lemma toString_tells_parsed_selectors_apart_witness :
  Build None [] ["id"; "x"] [] = Build None [] ["id"; "x"] [].
Proof.
  apply (toString_tells_parsed_selectors_apart "#X" "[id=x]"
           [Build None [] ["id"; "x"] []] [Build None [] ["id"; "x"] []]);
    solve [reflexivity | now left].
Defined.

(** ** The classes and the attributes of an element *)

Section TokenFacts.

Local Open Scope string_scope.
Local Arguments String.append !s1 s2 : simpl nomatch.

Lemma find_existsb {A : Type} (p : A -> bool) (l : list A) :
  match find p l with Some _ => true | None => false end = existsb p l.
Proof.
  induction l as [|x l IH]; simpl; [reflexivity|]. now destruct (p x).
Qed.

Lemma existsb_reversed {A : Type} (p : A -> bool) (l : list A) :
  existsb p (rev l) = existsb p l.
Proof.
  induction l as [|x l IH]; simpl; [reflexivity|].
  rewrite existsb_app, IH. simpl. rewrite orb_false_r. apply orb_comm.
Qed.

Lemma parse_class (c : string) :
  tag_word c -> parse ("." ++ c) = Ok [Build None [toLowerCase c] [] []].
Proof.
  intros Hc. change (parse ("." ++ c)) with (parse_from ("." ++ c) init).
  replace ("." ++ c) with ("." ++ c ++ "") by now rewrite append_empty_r.
  rewrite parse_from_unfold, (exec_class c "" Hc I). reflexivity.
Qed.

Lemma parse_attribute_name (name : string) :
  attr_name name ->
  parse ("[" ++ name ++ "]") = Ok [Build None [] [name; ""] []].
Proof.
  intros Hname. apply (parse_attribute name "" Hname). reflexivity.
Qed.

End TokenFacts.

Section WordFacts.

Local Open Scope string_scope.
Local Arguments String.append !s1 s2 : simpl nomatch.

(** White space alone gives no class. *)
Lemma split_gap (gap : string) :
  all_chars is_space gap = true ->
  forall in_run : bool,
    filter nonempty (split_spaces gap "" in_run) = [].
Proof.
  induction gap as [|c gap IH]; intros Hgap in_run; [reflexivity|].
  simpl in Hgap. apply andb_true_iff in Hgap as [Hc Hgap].
  cbn [split_spaces]. rewrite Hc.
  destruct in_run; cbn [filter nonempty truthy]; now apply IH.
Qed.

(** White space before a text is gone over. *)
Lemma split_skip_gap (gap s : string) :
  all_chars is_space gap = true ->
  forall in_run : bool,
    exists in_run' : bool,
      filter nonempty (split_spaces (gap ++ s) "" in_run)
      = filter nonempty (split_spaces s "" in_run').
Proof.
  induction gap as [|c gap IH]; intros Hgap in_run.
  - now exists in_run.
  - simpl in Hgap. apply andb_true_iff in Hgap as [Hc Hgap].
    change (String c gap ++ s) with (String c (gap ++ s)).
    cbn [split_spaces]. rewrite Hc.
    destruct in_run; cbn [filter nonempty truthy]; now apply IH.
Qed.

(** A run of characters that are no white space is added to the piece
    being read. *)
Lemma split_run (word : string) :
  all_chars no_space word = true ->
  forall rest piece : string,
    split_spaces (word ++ rest) piece false
    = split_spaces rest (piece ++ word) false.
Proof.
  induction word as [|c word IH]; intros Hword rest piece.
  - now rewrite append_empty_r.
  - simpl in Hword. apply andb_true_iff in Hword as [Hc Hword].
    change (String c word ++ rest) with (String c (word ++ rest)).
    cbn [split_spaces]. unfold no_space in Hc.
    apply negb_true_iff in Hc. rewrite Hc, (IH Hword), append_assoc.
    reflexivity.
Qed.

Lemma split_word (word : string) :
  word <> "" -> all_chars no_space word = true ->
  forall (rest piece : string) (in_run : bool),
    split_spaces (word ++ rest) piece in_run
    = split_spaces rest (piece ++ word) false.
Proof.
  intros Hne Hword rest piece in_run.
  destruct in_run; [|now apply split_run].
  destruct word as [|c word]; [congruence|].
  pose proof (split_run _ Hword rest piece) as H.
  pose proof Hword as Hc. simpl in Hc.
  apply andb_true_iff in Hc as [Hc _]. unfold no_space in Hc.
  apply negb_true_iff in Hc.
  change (String c word ++ rest) with (String c (word ++ rest)) in *.
  cbn [split_spaces] in *. now rewrite Hc in *.
Qed.

(** The classes of a text that is read as words are these words. *)
Lemma spaced_split (words : list string) (text : string) :
  spaced words text ->
  forall in_run : bool,
    filter nonempty (split_spaces text "" in_run) = words.
Proof.
  induction 1 as [gap Hgap|gap word rest words Hgap Hne Hword Hstop _ IH];
    intros in_run.
  - now apply split_gap.
  - destruct (split_skip_gap gap (word ++ rest) Hgap in_run) as [b ->].
    rewrite (split_word word Hne Hword).
    change ("" ++ word) with word.
    assert (Htruthy : nonempty word = true)
      by (destruct word; [congruence|reflexivity]).
    destruct rest as [|c rest].
    + cbn [split_spaces filter]. rewrite Htruthy. f_equal.
      exact (IH false).
    + cbn [stops] in Hstop. unfold no_space in Hstop.
      apply negb_false_iff in Hstop.
      cbn [split_spaces]. rewrite Hstop. cbn [filter]. rewrite Htruthy.
      f_equal. rewrite <- (IH true). cbn [split_spaces]. now rewrite Hstop.
Qed.

Lemma space_stops (gap : string) :
  all_chars is_space gap = true -> stops no_space gap.
Proof.
  destruct gap as [|c gap]; [easy|]. simpl.
  intros [Hc _]%andb_true_iff. unfold no_space. now rewrite Hc.
Qed.

(** Every text is read as words. *)
Lemma spaced_exists (text : string) : exists words, spaced words text.
Proof.
  induction text as [|c text [words IH]].
  - exists []. now constructor.
  - destruct (is_space c) eqn:Hc.
    + destruct IH as [gap Hgap|gap word rest words Hgap Hne Hword Hstop Hrest].
      * exists []. constructor. simpl. now rewrite Hc.
      * exists (word :: words).
        refine (spaced_word (String c gap) word rest words _ Hne Hword
                            Hstop Hrest).
        simpl. now rewrite Hc.
    + assert (Hno : all_chars no_space (String c "") = true)
        by (simpl; unfold no_space; now rewrite Hc).
      destruct IH as [gap Hgap|gap word rest words Hgap Hne Hword Hstop Hrest].
      * exists [String c ""].
        refine (spaced_word "" (String c "") gap [] eq_refl _ Hno _ _);
          [discriminate|now apply space_stops|now constructor].
      * destruct gap as [|d gap].
        -- exists (String c word :: words).
           refine (spaced_word "" (String c word) rest words eq_refl _ _
                               Hstop Hrest); [discriminate|].
           simpl. unfold no_space at 1. now rewrite Hc.
        -- exists (String c "" :: word :: words).
           refine (spaced_word "" (String c "")
                               (String d gap ++ word ++ rest)
                               (word :: words) eq_refl _ Hno _ _);
             [discriminate| |now constructor].
           simpl in Hgap. apply andb_true_iff in Hgap as [Hd _].
           simpl. unfold no_space. now rewrite Hd.
Qed.

Lemma find_class_first (before after : list TextAttribute)
    (classAttr : TextAttribute) :
  Forall (fun attr => Ng.attr_name attr <> "class") before ->
  Ng.attr_name classAttr = "class" ->
  find (fun attr => String.eqb (Ng.attr_name attr) "class")
       (before ++ classAttr :: after)%list
  = Some classAttr.
Proof.
  intros Hbefore Hclass.
  induction Hbefore as [|attr before Hattr _ IH]; simpl.
  - now rewrite Hclass.
  - apply String.eqb_neq in Hattr. now rewrite Hattr.
Qed.

Lemma find_class_none (attributes : list TextAttribute) :
  Forall (fun attr => Ng.attr_name attr <> "class") attributes ->
  find (fun attr => String.eqb (Ng.attr_name attr) "class") attributes
  = None.
Proof.
  induction 1 as [|attr l Hattr _ IH]; simpl; [reflexivity|].
  apply String.eqb_neq in Hattr. now rewrite Hattr.
Qed.

End WordFacts.

(** X25: the classes [matchesSelector] gives an element are the words of
    the value of its first [class] attribute: the longest runs of
    characters that are no white space, in their order, and nothing
    else; a value reads as one list of words only.  An element without a
    [class] attribute has no class.  [matchesSelector] hands [matches]
    these classes, with the tag name and the attributes, for each
    selector of the list. *)
Theorem classList_holds_the_words_of_the_class_attribute :
  forall (name : string) (attributes : list TextAttribute)
         (inputs : list BoundAttribute) (outputs : list BoundEvent)
         (children : list TmplAstNode) (sourceSpan : ParseSourceSpan),
    (forall selector : string,
        matchesSelector
          (TmplAstElement name attributes inputs outputs children sourceSpan)
          selector
        = (selectors ← parse selector;
           Ok (existsb
                 (fun cssSelector =>
                    matches cssSelector
                      (elementInfo
                         (TmplAstElement name attributes inputs outputs
                                         children sourceSpan)))
                 selectors)))
    /\ (forall (before after : list TextAttribute)
               (classAttr : TextAttribute),
          attributes = (before ++ classAttr :: after)%list ->
          Forall (fun attr => Ng.attr_name attr <> "class"%string) before ->
          Ng.attr_name classAttr = "class"%string ->
          exists classes : list string,
            classList
              (elementInfo
                 (TmplAstElement name attributes inputs outputs children
                                 sourceSpan))
            = Some classes
            /\ spaced classes (Ng.attr_value classAttr)
            /\ forall words : list string,
                 spaced words (Ng.attr_value classAttr) -> words = classes)
    /\ (Forall (fun attr => Ng.attr_name attr <> "class"%string) attributes ->
        classList
          (elementInfo
             (TmplAstElement name attributes inputs outputs children
                             sourceSpan))
        = Some []).
Proof.
  intros name attributes inputs outputs children sourceSpan.
  split; [reflexivity|]. split.
  - intros before after classAttr -> Hbefore Hclass.
    cbn [elementInfo classList].
    rewrite (find_class_first before after classAttr Hbefore Hclass).
    eexists. split; [reflexivity|].
    assert (Hunique : forall words,
               spaced words (Ng.attr_value classAttr) ->
               words
               = filter nonempty
                   (split_spaces (Ng.attr_value classAttr) "" false)).
    { intros words Hwords. symmetry. now apply spaced_split. }
    split; [|exact Hunique].
    destruct (spaced_exists (Ng.attr_value classAttr)) as [words Hwords].
    now rewrite <- (Hunique words Hwords).
  - intros Hnone. cbn [elementInfo classList].
    now rewrite (find_class_none attributes Hnone).
Qed.

(** X26: with a class selector [.c], [findElements] returns the visited
    elements of which one class is [c], case apart; with an attribute
    selector [[name]], those that have a static attribute or a property
    binding of that name, case apart.  An event binding is no
    attribute. *)
Theorem findElements_by_class_and_by_attribute :
  forall (w : string) (nodes : list TmplAstNode),
    (tag_word w ->
     findElements ("." ++ w)%string nodes
     = (seen ← visited nodes;
        Ok (filter
              (fun n =>
                 is_element n
                 && existsb (fun c =>
                               String.eqb (toLowerCase c) (toLowerCase w))
                            (default [] (classList (elementInfo n))))
              seen)))
    /\ (attr_name w ->
        findElements ("[" ++ w ++ "]")%string nodes
        = (seen ← visited nodes;
           Ok (filter
                 (fun n =>
                    match n with
                    | TmplAstElement _ attributes inputs _ _ _ =>
                        existsb (fun a =>
                                   String.eqb (toLowerCase a) (toLowerCase w))
                                (map Ng.attr_name attributes
                                 ++ map input_name inputs)
                    | _ => false
                    end)
                 seen))).
Proof.
  intros w nodes. split; intros Hw.
  - rewrite (findElements_with _ _ nodes (parse_class w Hw)).
    rewrite (visited_bind nodes
               (filter
                  (fun n =>
                     is_element n
                     && existsb (fun c =>
                                   String.eqb (toLowerCase c)
                                              (toLowerCase w))
                                (default [] (classList (elementInfo n)))))).
    match goal with
    | |- mbind (fun _ => Ok (filter ?p _)) _
         = mbind (fun _ => Ok (filter ?q _)) _ =>
        rewrite (filter_pointwise p q (visit_order nodes)); [reflexivity|]
    end.
    intros n _. cbn [existsb]. rewrite matches_unfold.
    cbn [element classNames attrs notSelectors length forallb truthy].
    rewrite class_in_elementClasses. cbn.
    now destruct (existsb _ _).
  - rewrite (findElements_with _ _ nodes (parse_attribute_name w Hw)).
    rewrite (visited_bind nodes
               (filter
                  (fun n =>
                     match n with
                     | TmplAstElement _ attributes inputs _ _ _ =>
                         existsb (fun a =>
                                    String.eqb (toLowerCase a)
                                               (toLowerCase w))
                                 (map Ng.attr_name attributes
                                  ++ map input_name inputs)
                     | _ => false
                     end))).
    match goal with
    | |- mbind (fun _ => Ok (filter ?p _)) _
         = mbind (fun _ => Ok (filter ?q _)) _ =>
        rewrite (filter_pointwise p q (visit_order nodes)); [reflexivity|]
    end.
    intros n _.
    destruct n as [name ats ins outs kids sp| | | | | | | | | | | | | | | | | ];
      try reflexivity.
    cbn [existsb]. rewrite matches_unfold.
    cbn [element classNames attrs notSelectors length truthy].
    rewrite attrs_hold_required. cbn [attrs_required].
    unfold deciding.
    set (p := fun a : string * string =>
                String.eqb (toLowerCase (fst a)) (toLowerCase w)).
    set (l := default [] (attributes
                            (elementInfo
                               (TmplAstElement name ats ins outs kids sp)))).
    pose proof (find_existsb p (rev l)) as Hfind.
    rewrite existsb_reversed in Hfind.
    assert (Hl : existsb p l
                 = existsb (fun a =>
                              String.eqb (toLowerCase a) (toLowerCase w))
                           (map Ng.attr_name ats ++ map input_name ins)).
    { unfold l. cbn [elementInfo attributes default from_option id].
      rewrite !existsb_app, !existsb_of_map. reflexivity. }
    rewrite <- Hl, <- Hfind.
    now destruct (find p (rev l)).
Qed.

Lemma findElements_by_class_and_by_attribute_witness :
  findElements ".Big" [TmplAstElement "p" [{| Ng.attr_name := "class";
                                               Ng.attr_value := "a big" |}]
                                      [] [] [] Sample.span0]
  = (seen ← visited [TmplAstElement "p" [{| Ng.attr_name := "class";
                                            Ng.attr_value := "a big" |}]
                                    [] [] [] Sample.span0];
     Ok (filter
           (fun n =>
              is_element n
              && existsb (fun c =>
                            String.eqb (toLowerCase c) (toLowerCase "Big"))
                         (default [] (classList (elementInfo n))))
           seen))
  /\ findElements "[Title]" [Sample.div_title_click]
     = (seen ← visited [Sample.div_title_click];
        Ok (filter
              (fun n =>
                 match n with
                 | TmplAstElement _ attributes inputs _ _ _ =>
                     existsb (fun a =>
                                String.eqb (toLowerCase a)
                                           (toLowerCase "Title"))
                             (map Ng.attr_name attributes
                              ++ map input_name inputs)
                 | _ => false
                 end)
              seen)).
Proof.
  split.
  - apply (proj1 (findElements_by_class_and_by_attribute "Big" _)).
    split; [discriminate|reflexivity].
  - apply (proj2 (findElements_by_class_and_by_attribute "Title" _)).
    split; [discriminate|reflexivity].
Defined.

(** ** A list of selectors and its text *)

Section JoinFacts.

Local Open Scope string_scope.
Local Arguments String.append !s1 s2 : simpl nomatch.

Lemma tag_word_stops_space (w k : string) :
  tag_word w -> stops is_space (w ++ k).
Proof.
  intros [Hne Hw]. destruct w as [|c w]; [congruence|].
  simpl in Hw. apply andb_true_iff in Hw as [Hc _].
  apply (tag_char_no_comma c Hc).
Qed.

(** The text of a selector does not start with white space. *)
Lemma text_k_stops_space (sel : CssSelector.t) (k : string) :
  parsed sel -> stops is_space k -> stops is_space (text_k sel k).
Proof.
  intros (He & _ & Ha & _) Hk. unfold text_k, positive_k.
  destruct (element sel) as [w|]; [now apply tag_word_stops_space|].
  cbn [or_empty]. change ("" ++ ?x) with x.
  destruct (classNames sel) as [|c cs]; [|reflexivity]. cbn [classes_k].
  destruct (attrs sel) as [|name [|value ats]];
    [|contradiction|reflexivity].
  cbn [pairs_k]. now destruct (notSelectors sel).
Qed.

Lemma span_stops (p : ascii -> bool) (s : string) :
  stops p s -> span p s = ("", s).
Proof. destruct s as [|c s]; simpl; [reflexivity|]. now intros ->. Qed.

Lemma exec_comma (rest : string) :
  stops is_space rest -> exec ("," ++ rest) = Some (comma_match, rest).
Proof.
  intros Hrest. apply exec_here. unfold match_here.
  change (alt_not ("," ++ rest)) with (@None (RegExpMatch * string)).
  change ("," ++ rest) with (String "," rest).
  assert (Htag : alt_tag (String "," rest) = None) by reflexivity.
  assert (Hattr : alt_attr (String "," rest) = None) by reflexivity.
  assert (Hclose : alt_close (String "," rest) = None) by reflexivity.
  rewrite Htag, Hattr, Hclose. unfold alt_comma.
  assert (Hspan : span is_space (String "," rest) = ("", String "," rest))
    by reflexivity.
  rewrite Hspan. cbn [Ascii.eqb Bool.eqb]. cbv iota beta.
  now rewrite (span_stops is_space rest Hrest).
Qed.

(** [parse], in the state it has at the start of a selector, on the text
    of a selector followed by a text that does not go on with it. *)
Lemma parse_from_text (sel : CssSelector.t) (k : string)
    (res : list CssSelector.t) :
  parsed sel -> stops is_tag_char k ->
  parse_from (text_k sel k)
    {| results := res; cssSelector := new; current := CurSelector;
       inNot := false |}
  = parse_from k
      {| results := res; cssSelector := sel; current := CurSelector;
         inNot := false |}.
Proof.
  intros Hsel Hk. destruct sel as [e cs a ns].
  destruct Hsel as (He & Hcs & Ha & Hns). unfold text_k. simpl in *.
  rewrite parse_from_positive by (auto; now apply stops_nots_k).
  unfold on_current. simpl.
  replace (grow e cs a new) with (Build e cs a [])
    by (unfold grow; simpl; now destruct e).
  apply (parse_from_nots ns k res e cs a [] Hns).
Qed.

Lemma join_text (sel : CssSelector.t) (rest : list CssSelector.t) :
  parsed sel ->
  join (sel :: rest)
  = text_k sel match rest with
               | [] => ""
               | _ :: _ => "," ++ join rest
               end.
Proof.
  intros Hsel. destruct rest as [|sel' rest]; cbn [join].
  - now rewrite <- (toString_text sel "" Hsel), append_empty_r.
  - now rewrite <- (toString_text sel _ Hsel).
Qed.

Lemma join_stops_space (sels : list CssSelector.t) :
  Forall parsed sels -> stops is_space (join sels).
Proof.
  intros Hsels. destruct Hsels as [|sel rest Hsel Hrest]; [exact I|].
  rewrite (join_text sel rest Hsel).
  apply text_k_stops_space; [exact Hsel|]. now destruct rest.
Qed.

Lemma parse_from_join (sels : list CssSelector.t) :
  Forall parsed sels -> sels <> [] ->
  forall res : list CssSelector.t,
    parse_from (join sels)
      {| results := res; cssSelector := new; current := CurSelector;
         inNot := false |}
    = Ok (res ++ sels)%list.
Proof.
  induction 1 as [|sel rest Hsel Hrest IH]; intros Hne res; [congruence|].
  rewrite (join_text sel rest Hsel).
  destruct rest as [|sel' rest].
  - rewrite (parse_from_text sel "" res Hsel I).
    rewrite parse_from_unfold. reflexivity.
  - rewrite (parse_from_text sel _ res Hsel) by reflexivity.
    rewrite parse_from_unfold.
    rewrite (exec_comma (join (sel' :: rest))) by now apply join_stops_space.
    cbn [step comma_match truthy g1 g2 g3 g4 g5 g6 g7 g8 mbind outcome_bind
         Js.bind results cssSelector current inNot].
    rewrite IH by discriminate. now rewrite <- app_assoc.
Qed.

End JoinFacts.

(** X27: the list [parse] returns is read again from its text.  When
    [parse] accepts a string, the texts of the selectors it returned,
    joined by commas, parse to the same list. *)
Theorem parse_reads_its_list_again :
  forall (s : string) (sels : list CssSelector.t),
    parse s = Ok sels -> parse (join sels) = Ok sels.
Proof.
  intros s sels H.
  assert (Hne : sels <> []).
  { rewrite parse_run in H.
    destruct (run_returns (scan s) init (scan_tokens s))
      as [(e & He)|(sels' & Hs & Hne)]; congruence. }
  apply parse_parsed in H.
  apply (parse_from_join sels H Hne []).
Qed.

Lemma parse_reads_its_list_again_witness :
  parse (join [Build (Some "a") ["b"] [] []; new;
               Build None [] ["id"; "x"] [Build (Some "c") [] [] []]])
  = Ok [Build (Some "a") ["b"] [] []; new;
        Build None [] ["id"; "x"] [Build (Some "c") [] [] []]].
Proof.
  apply (parse_reads_its_list_again "a.B , ,#X:not(c)"). reflexivity.
Defined.

Section BuilderFacts.

Lemma attrs_required_app (attributes : list (string * string))
    (a b : list string) :
  Nat.even (length a) = true ->
  attrs_required attributes (a ++ b)
  = attrs_required attributes a && attrs_required attributes b.
Proof.
  induction a as [| |x y l IH] using pair_induction; intros Heven.
  - reflexivity.
  - discriminate.
  - change ((x :: y :: l) ++ b) with (x :: y :: (l ++ b)).
    cbn [attrs_required].
    destruct (deciding x attributes); [|reflexivity].
    rewrite IH by exact Heven. now rewrite andb_assoc.
Qed.

End BuilderFacts.

(** X28: each call that builds a selector adds one requirement to what
    it matches.  After [addClassName] the selector matches the elements
    it matched that have the class, case apart; after [addAttribute], on
    a selector whose array [attrs] holds whole pairs, those that meet the
    requirement on the attribute; and a negated selector more takes away
    the elements it matches. *)
Theorem builders_add_one_requirement :
  forall (sel : CssSelector.t) (e : ElementInfo),
    (forall name : string,
        matches (addClassName name sel) e
        = matches sel e
          && existsb (fun c =>
                        String.eqb (toLowerCase c) (toLowerCase name))
                     (default [] (classList e)))
    /\ (forall name value : string,
           Nat.even (length (attrs sel)) = true ->
           matches (addAttribute name value sel) e
           = matches sel e
             && attrs_required (default [] (attributes e))
                               [name; toLowerCase value])
    /\ (forall notSelector : CssSelector.t,
           matches (pushNot notSelector sel) e
           = matches sel e && negb (matches notSelector e)).
Proof.
  intros sel e. repeat split.
  - intros name. rewrite !(matches_conjunction _ e).
    cbn [addClassName element classNames attrs notSelectors].
    rewrite forallb_app. cbn [forallb].
    destruct (negb _ || _), (forallb _ _), (existsb _ _),
      (attrs_required _ _), (existsb _ _); reflexivity.
  - intros name value Heven. rewrite !(matches_conjunction _ e).
    cbn [addAttribute element classNames attrs notSelectors].
    rewrite (attrs_required_app _ _ _ Heven).
    destruct (negb _ || _), (forallb _ _), (attrs_required _ (attrs sel)),
      (attrs_required _ _), (existsb _ _); reflexivity.
  - intros notSelector.
    rewrite (matches_conjunction (pushNot notSelector sel) e),
      (matches_conjunction sel e).
    cbn [pushNot element classNames attrs notSelectors].
    rewrite existsb_app. cbn [existsb].
    destruct (negb _ || _), (forallb _ _), (attrs_required _ _),
      (existsb _ _), (matches notSelector e); reflexivity.
Qed.

Lemma builders_add_one_requirement_witness :
  matches (addAttribute "type" "Text" (Build (Some "input") [] [] []))
          {| tagName := Some "INPUT"; classList := None;
             attributes := Some [("type", "text")] |}
  = matches (Build (Some "input") [] [] [])
            {| tagName := Some "INPUT"; classList := None;
               attributes := Some [("type", "text")] |}
    && attrs_required [("type", "text")] ["type"; toLowerCase "Text"].
Proof.
  apply (proj1 (proj2 (builders_add_one_requirement
                         (Build (Some "input") [] [] [])
                         {| tagName := Some "INPUT"; classList := None;
                            attributes := Some [("type", "text")] |}))).
  reflexivity.
Defined.
